(** * Capital Greenspace web map: ranking and nearby search

    A shallow embedding of the interaction-map scripts

      - [static/js/interaction/config.js]   (global state),
      - [static/js/interaction/ranking.js]  ([applyRanking]),
      - [static/js/interaction/nearby.js]   ([applyLocationSearch], [setSearchMode]),
      - [static/js/interaction/ui.js]       ([clearAllInputs])

    together with the fragment of JavaScript they rely on, and the
    properties of the ranking and proximity engines proved about them; and of
    what these scripts call and what calls them

      - config.js       (the colour tables),
      - ranking.js      ([showTieModal], the markers of the ranked records),
      - nearby.js       (the markers of the matches),
      - ui.js           ([showTieModal], [exportParksToCSV]),
      - map.js          ([resetMarkers]),
      - main.js         (the markers of the parks),
      - search_name.js  (the suggestions and the click on one),
      - popup.js        ([changeImage], [buildStaticUrl]),
      - simd_map.js     (its copy of [changeImage]).

    The search endpoint of the Flask application is not among the scripts.
    What is proved of [applyLocationSearch] holds for every answer of the
    endpoint, but where a statement names the endpoint of the spec: the
    distance ([ProximityEngine]) and the search ([ProximitySearch]) are
    modelled from the spec.

    Conventions of the embedding.
      - A JavaScript number is [NaN], an infinity or an exact rational:
        rounding of doubles is not modelled.  A decimal text within the range
        of doubles is read at its exact value; past that range [parseFloat]
        and [Number] read an infinity or 0, as the code does.  [parseInt]
        reads its integer exactly.  Every double is such a rational, and what
        the ranking does with metric values (comparison, the sign of a
        difference, strict equality) gives on doubles the answer it gives on
        the rationals, so what is proved of the ranking holds of doubles.
      - A string of a JSON document is a sequence of code units below 256;
        the path of a static file is a text of any UTF-16 code units.
      - [parks] comes from a JSON literal, so every slot of the array holds an
        object of its own; a reference to a park is its index in [parks].
      - The page has loaded: [main.js] has built one marker per park from
        [p.name.toLowerCase()] and [createPopupContent(p)], so decorating a
        marker of a park raises nothing.  Timers are run to completion. *)

From Stdlib Require Import ZArith QArith Qround Psatz Ascii String DecimalString List Permutation Sorted Reals.
From stdpp Require Import base option list gmap strings sorting.

#[local] Set Warnings "-register-all".

(** ** The JavaScript fragment *)

Module JS.

(** *** Numbers *)

Inductive number :=
  | NaN
  | Inf (negative : bool)
  | Fin (q : Q).

Definition isNaN (x : number) : bool :=
  match x with NaN => true | _ => false end.

(** Numeric comparison; [None] when an operand is [NaN]. *)
Definition num_compare (a b : number) : option comparison :=
  match a, b with
  | NaN, _ | _, NaN => None
  | Inf s, Inf t =>
      Some (match s, t with true, false => Lt | false, true => Gt | _, _ => Eq end)
  | Inf s, Fin _ => Some (if s then Lt else Gt)
  | Fin _, Inf t => Some (if t then Gt else Lt)
  | Fin p, Fin q => Some (p ?= q)%Q
  end.

(** [a - b] on numbers. *)
Definition num_sub (a b : number) : number :=
  match a, b with
  | NaN, _ | _, NaN => NaN
  | Inf s, Inf t => if Bool.eqb s t then NaN else Inf s
  | Inf s, Fin _ => Inf s
  | Fin _, Inf t => Inf (negb t)
  | Fin p, Fin q => Fin (p - q)
  end.

Definition Qnegative (q : Q) : bool :=
  match (q ?= 0)%Q with Lt => true | _ => false end.

Definition Qzero (q : Q) : bool :=
  match (q ?= 0)%Q with Eq => true | _ => false end.

(** [a * b] on numbers. *)
Definition num_mul (a b : number) : number :=
  match a, b with
  | NaN, _ | _, NaN => NaN
  | Inf s, Inf t => Inf (xorb s t)
  | Inf s, Fin q | Fin q, Inf s =>
      if Qzero q then NaN else Inf (xorb s (Qnegative q))
  | Fin p, Fin q => Fin (p * q)
  end.

Definition num_of_Z (z : Z) : number := Fin (inject_Z z).
Definition num_of_nat (n : nat) : number := num_of_Z (Z.of_nat n).

(** [a <= b] and [a < b] as numbers; false when an operand is [NaN]. *)
Definition num_leb (a b : number) : bool :=
  match num_compare a b with
  | Some Lt | Some Eq => true
  | _ => false
  end.

Definition num_ltb (a b : number) : bool :=
  match num_compare a b with
  | Some Lt => true
  | _ => false
  end.

(** A number with no fractional part. *)
Definition isInteger (x : number) : bool :=
  match x with
  | Fin q => Qeq_bool q (inject_Z (Qfloor q))
  | _ => false
  end.

(** The array index a number denotes: [a[x]] reads an element only when [x]
    is a non-negative integer. *)
Definition array_index (x : number) : option nat :=
  match x with
  | Fin q =>
      let z := (Qnum q / Zpos (Qden q))%Z in
      if Qeq_bool q (inject_Z z) && (0 <=? z)%Z then Some (Z.to_nat z) else None
  | _ => None
  end.

(** *** Strings *)

Definition unit_code (c : ascii) : N := N_of_ascii c.

(** White space and line terminators, as [trim], [parseInt], [parseFloat]
    and [Number] skip them. *)
Definition isWhiteSpace (c : ascii) : bool :=
  let n := unit_code c in
  ((9 <=? n) && (n <=? 13) || (n =? 32) || (n =? 160))%N.

Definition lower_unit (c : ascii) : ascii :=
  let n := unit_code c in
  if ((65 <=? n) && (n <=? 90) || (192 <=? n) && (n <=? 222) && negb (n =? 215))%N
  then ascii_of_N (n + 32) else c.

Fixpoint toLowerCase (s : string) : string :=
  match s with
  | EmptyString => EmptyString
  | String c s' => String (lower_unit c) (toLowerCase s')
  end.

Fixpoint trimStart (s : string) : string :=
  match s with
  | EmptyString => EmptyString
  | String c s' => if isWhiteSpace c then trimStart s' else s
  end.

Fixpoint trimEnd (s : string) : string :=
  match s with
  | EmptyString => EmptyString
  | String c s' =>
      match trimEnd s' with
      | EmptyString => if isWhiteSpace c then EmptyString else String c EmptyString
      | t => String c t
      end
  end.

Definition trim (s : string) : string := trimEnd (trimStart s).

(** [s.split(sep)] for a separator of one code unit. *)
Fixpoint split (sep : ascii) (s : string) : list string :=
  match s with
  | EmptyString => [EmptyString]
  | String c s' =>
      if Ascii.eqb c sep then EmptyString :: split sep s'
      else match split sep s' with
           | x :: r => String c x :: r
           | [] => [String c EmptyString]
           end
  end.

Fixpoint join (sep : string) (l : list string) : string :=
  match l with
  | [] => EmptyString
  | [x] => x
  | x :: r => x ++ sep ++ join sep r
  end.

(** Code-unit order of strings, as [<] compares two strings. *)
Fixpoint str_ltb (a b : string) : bool :=
  match a, b with
  | _, EmptyString => false
  | EmptyString, String _ _ => true
  | String x a', String y b' =>
      if (unit_code x <? unit_code y)%N then true
      else if (unit_code y <? unit_code x)%N then false
      else str_ltb a' b'
  end.

(** *** Numeric literals in strings *)

Definition digit_of (radix : N) (c : ascii) : option Z :=
  let n := unit_code c in
  let v := if ((48 <=? n) && (n <=? 57))%N then Some (n - 48)%N
           else if ((97 <=? n) && (n <=? 122))%N then Some (n - 87)%N
           else if ((65 <=? n) && (n <=? 90))%N then Some (n - 55)%N
           else None in
  match v with
  | Some d => if (d <? radix)%N then Some (Z.of_N d) else None
  | None => None
  end.

(** The longest prefix of digits of [s] in the radix, most significant first,
    and what follows it. *)
Fixpoint span_digits (radix : N) (s : string) : list Z * string :=
  match s with
  | EmptyString => ([], EmptyString)
  | String c s' =>
      match digit_of radix c with
      | Some d => let '(ds, r) := span_digits radix s' in (d :: ds, r)
      | None => ([], s)
      end
  end.

Definition digits_value (radix : N) (ds : list Z) : Z :=
  fold_left (fun acc d => acc * Z.of_N radix + d)%Z ds 0%Z.

Definition strip_sign (s : string) : bool * string :=
  match s with
  | String "-" r => (true, r)
  | String "+" r => (false, r)
  | _ => (false, s)
  end.

(** [parseInt(s)] with no radix argument. *)
Definition parseInt (s : string) : number :=
  let '(neg, s1) := strip_sign (trimStart s) in
  let '(radix, s2) :=
    match s1 with
    | String "0" (String "x" r) | String "0" (String "X" r) => (16%N, r)
    | _ => (10%N, s1)
    end in
  let '(ds, _) := span_digits radix s2 in
  match ds with
  | [] => NaN
  | _ => num_of_Z (if neg then - digits_value radix ds else digits_value radix ds)
  end.

(** [m * 10^e] as a rational. *)
Definition scale10 (m e : Z) : Q :=
  if (0 <=? e)%Z then inject_Z (m * 10 ^ e)
  else Qred (Qmake m (Z.to_pos (10 ^ (- e)))).

(** The exponent part [e±ddd] at the head of [s], when there is one. *)
Definition exponent_part (s : string) : Z * string :=
  match s with
  | String "e" r | String "E" r =>
      let '(neg, r1) := strip_sign r in
      match span_digits 10 r1 with
      | ([], _) => (0%Z, s)
      | (ds, r2) => (if neg then - digits_value 10 ds else digits_value 10 ds, r2)%Z
      end
  | _ => (0%Z, s)
  end.

(** A decimal literal past the range of doubles.  The largest double is
    [2^1024 - 2^971]: a literal at or above [2^1024 - 2^970], half-way to
    [2^1024], is read as an infinity.  The smallest double is [2^-1074]: a
    literal at or below [2^-1075] is read as 0.  Between the two a literal is
    read at its exact value. *)
Definition double_range (q : Q) : number :=
  if Qle_bool (inject_Z (2 ^ 1024 - 2 ^ 970)) q then Inf false
  else if Qle_bool q (1 # 2 ^ 1075) then Fin 0
  else Fin q.

Definition unsigned_decimal (s : string) : option (number * string) :=
  match s with
  | String "I" (String "n" (String "f" (String "i" (String "n"
      (String "i" (String "t" (String "y" r))))))) => Some (Inf false, r)
  | _ =>
      let '(ip, r1) := span_digits 10 s in
      let '(fp, r2) :=
        match r1 with
        | String "." r => span_digits 10 r
        | _ => ([], r1)
        end in
      match ip, fp with
      | [], [] => None
      | _, _ =>
          let '(e, r3) := exponent_part r2 in
          let m := digits_value 10 (ip ++ fp) in
          Some (double_range (scale10 m (e - Z.of_nat (length fp))), r3)
      end
  end.

Definition num_opp (x : number) : number :=
  match x with
  | NaN => NaN
  | Inf s => Inf (negb s)
  | Fin q => Fin (- q)
  end.

(** The longest prefix of [s] that is a [StrDecimalLiteral], with its value. *)
Definition decimal_literal (s : string) : option (number * string) :=
  let '(neg, s1) := strip_sign s in
  match unsigned_decimal s1 with
  | Some (x, r) => Some (if neg then num_opp x else x, r)
  | None => None
  end.

(** [parseFloat(s)]. *)
Definition parseFloat (s : string) : number :=
  match decimal_literal (trimStart s) with
  | Some (x, _) => x
  | None => NaN
  end.

(** The literals [0x..], [0o..] and [0b..], which [Number] accepts unsigned. *)
Definition non_decimal_literal (s : string) : option number :=
  match s with
  | String "0" (String p r) =>
      let radix :=
        if Ascii.eqb p "x" || Ascii.eqb p "X" then Some 16%N
        else if Ascii.eqb p "o" || Ascii.eqb p "O" then Some 8%N
        else if Ascii.eqb p "b" || Ascii.eqb p "B" then Some 2%N
        else None in
      match radix with
      | Some rd =>
          match span_digits rd r with
          | ((_ :: _) as ds, EmptyString) => Some (num_of_Z (digits_value rd ds))
          | _ => None
          end
      | None => None
      end
  | _ => None
  end.

(** [Number(s)] on a string. *)
Definition StringToNumber (s : string) : number :=
  match trim s with
  | EmptyString => Fin 0
  | t =>
      match non_decimal_literal t with
      | Some x => x
      | None =>
          match decimal_literal t with
          | Some (x, EmptyString) => x
          | _ => NaN
          end
      end
  end.

(** *** Printing a number: [String(x)]

    For a positive finite [x] the digits [s], their count [k] and the exponent
    [n] with [x = s * 10^(n-k)] are laid out as Number::toString does.  The
    digits are those of the decimal expansion of the rational, cut at 17
    significant digits. *)

Fixpoint magnitude (fuel : nat) (q : Q) (e : Z) : Q * Z :=
  match fuel with
  | O => (q, e)
  | S f =>
      if Qle_bool 10 q then magnitude f (q / 10) (e + 1)
      else if Qle_bool 1 q then (q, e)
      else magnitude f (q * 10) (e - 1)
  end.

Fixpoint strip_zeros (fuel : nat) (s : Z) (k : Z) : Z * Z :=
  match fuel with
  | O => (s, k)
  | S f => if (s mod 10 =? 0)%Z && (1 <? k)%Z then strip_zeros f (s / 10)%Z (k - 1)%Z else (s, k)
  end.

Definition decimal_digits (z : Z) : string :=
  NilZero.string_of_uint (N.to_uint (Z.to_N z)).

Fixpoint zeros (n : nat) : string :=
  match n with O => EmptyString | S m => String "0" (zeros m) end.

Definition exponent_suffix (e : Z) : string :=
  ("e" ++ (if (0 <=? e)%Z then "+" else "-") ++ decimal_digits (Z.abs e))%string.

Definition positive_to_string (q : Q) : string :=
  let '(m, e) := magnitude 400 q 0 in
  let s17 := Qfloor (m * inject_Z (10 ^ 16) + (1 # 2)) in
  let '(s17, e) := if (10 ^ 17 <=? s17)%Z then ((10 ^ 16)%Z, (e + 1)%Z) else (s17, e) in
  let '(s, k) := strip_zeros 17 s17 17 in
  let n := (e + 1)%Z in
  let ds := decimal_digits s in
  if (k <=? n)%Z && (n <=? 21)%Z then (ds ++ zeros (Z.to_nat (n - k)))%string
  else if (0 <? n)%Z && (n <=? 21)%Z then
    (substring 0 (Z.to_nat n) ds ++ "." ++ substring (Z.to_nat n) (Z.to_nat (k - n)) ds)%string
  else if (-6 <? n)%Z && (n <=? 0)%Z then
    ("0." ++ zeros (Z.to_nat (- n)) ++ ds)%string
  else if (k =? 1)%Z then (ds ++ exponent_suffix (n - 1))%string
  else (substring 0 1 ds ++ "." ++ substring 1 (Z.to_nat (k - 1)) ds
        ++ exponent_suffix (n - 1))%string.

Definition NumberToString (x : number) : string :=
  match x with
  | NaN => "NaN"
  | Inf false => "Infinity"
  | Inf true => "-Infinity"
  | Fin q =>
      match (q ?= 0)%Q with
      | Eq => "0"
      | Lt => ("-" ++ positive_to_string (- q))%string
      | Gt => positive_to_string q
      end
  end.

(** *** Values

    The values a JSON document holds, and [undefined] for what is absent.
    An array stands for the elements of one array object. *)

Inductive JsVal :=
  | JUndefined
  | JNull
  | JBool (b : bool)
  | JNum (x : number)
  | JStr (s : string)
  | JArr (elems : list JsVal).

(** [String(v)]; an array prints its elements joined by commas, [null] and
    [undefined] elements as nothing. *)
Fixpoint ToString (v : JsVal) : string :=
  match v with
  | JUndefined => "undefined"
  | JNull => "null"
  | JBool true => "true"
  | JBool false => "false"
  | JNum x => NumberToString x
  | JStr s => s
  | JArr l =>
      join ","
        (map (fun e => match e with JUndefined | JNull => EmptyString | _ => ToString e end) l)
  end.

Definition ToPrimitive (v : JsVal) : JsVal :=
  match v with
  | JArr _ => JStr (ToString v)
  | _ => v
  end.

(** [Number(v)]. *)
Definition ToNumber (v : JsVal) : number :=
  match ToPrimitive v with
  | JUndefined => NaN
  | JNull => Fin 0
  | JBool true => Fin 1
  | JBool false => Fin 0
  | JNum x => x
  | JStr s => StringToNumber s
  | JArr _ => NaN
  end.

(** Truthiness, as [!v] and [if (v)] test it. *)
Definition ToBoolean (v : JsVal) : bool :=
  match v with
  | JUndefined | JNull => false
  | JBool b => b
  | JNum NaN => false
  | JNum (Fin q) => negb (Qzero q)
  | JNum (Inf _) => true
  | JStr s => negb (String.eqb s EmptyString)
  | JArr _ => true
  end.

(** [a === b].  Two arrays are equal only when they are the same object; the
    scripts compare values read from two different records, whose arrays are
    different objects. *)
Definition strict_equal (a b : JsVal) : bool :=
  match a, b with
  | JUndefined, JUndefined => true
  | JNull, JNull => true
  | JBool x, JBool y => Bool.eqb x y
  | JNum x, JNum y => match num_compare x y with Some Eq => true | _ => false end
  | JStr s, JStr t => String.eqb s t
  | _, _ => false
  end.

(** The comparison behind [<], [>], [<=] and [>=]; [None] is its undefined
    answer, on a [NaN]. *)
Definition IsLessThan (a b : JsVal) : option bool :=
  match ToPrimitive a, ToPrimitive b with
  | JStr s, JStr t => Some (str_ltb s t)
  | pa, pb =>
      match num_compare (ToNumber pa) (ToNumber pb) with
      | Some Lt => Some true
      | Some _ => Some false
      | None => None
      end
  end.

Definition js_lt (a b : JsVal) : bool :=
  match IsLessThan a b with Some true => true | _ => false end.

Definition js_ge (a b : JsVal) : bool :=
  match IsLessThan a b with Some false => true | _ => false end.

Definition js_le (a b : JsVal) : bool :=
  match IsLessThan b a with Some false => true | _ => false end.

(** [a - b]. *)
Definition js_sub (a b : JsVal) : number := num_sub (ToNumber a) (ToNumber b).

(** *** Objects *)

Abbreviation Obj := (gmap string JsVal).

(** [o[k]]: the value of the property, [undefined] when [o] has none. *)
Definition get (o : Obj) (k : string) : JsVal := default JUndefined (o !! k).

(** *** Array.prototype.sort

    The sort is stable.  [x] is moved behind [y] only when the comparator
    answers a positive number; a [NaN] answer counts as [0].  For a
    comparator that is a consistent order every stable sort returns this
    list. *)

Section Sort.
Context {A : Type} (comparefn : A -> A -> number).

Definition SortCompare (x y : A) : number :=
  let v := comparefn x y in if isNaN v then Fin 0 else v.

Definition sorts_after (x y : A) : bool :=
  match num_compare (SortCompare x y) (Fin 0) with
  | Some Gt => true
  | _ => false
  end.

Fixpoint sort_insert (x : A) (l : list A) : list A :=
  match l with
  | [] => [x]
  | y :: l' => if sorts_after x y then y :: sort_insert x l' else x :: l
  end.

Definition sort (l : list A) : list A := foldr sort_insert [] l.
End Sort.

End JS.

(** ** The interaction map *)

Module InteractionMap.
Import JS.

(** *** config.js: global state

    [parks] is the array the page template defines; the four inputs are the
    values of [#rank-type], [#rank-number], [#postcode-input] and
    [#distance-input], and [facility_checked] the values of the checked boxes
    of [#facility-checklist], in document order. *)

Record Circle := { center : number * number; radius : number }.

Inductive ExportData :=
  | ExportParks (refs : list nat)
  | ExportMatches (matches : list Obj).

Record Page := {
  parks : list Obj;
  rank_type : string;
  rank_number : string;
  postcode_input : string;
  distance_input : string;
  facility_checked : list string;
  nearestMode : bool;
  userMarker : option (number * number);
  searchCircle : option Circle;
  currentExportData : ExportData
}.

Definition with_parks (ps : list Obj) (pg : Page) : Page :=
  {| parks := ps; rank_type := rank_type pg; rank_number := rank_number pg;
     postcode_input := postcode_input pg; distance_input := distance_input pg;
     facility_checked := facility_checked pg; nearestMode := nearestMode pg;
     userMarker := userMarker pg; searchCircle := searchCircle pg;
     currentExportData := currentExportData pg |}.

Definition with_nearestMode (b : bool) (pg : Page) : Page :=
  {| parks := parks pg; rank_type := rank_type pg; rank_number := rank_number pg;
     postcode_input := postcode_input pg; distance_input := distance_input pg;
     facility_checked := facility_checked pg; nearestMode := b;
     userMarker := userMarker pg; searchCircle := searchCircle pg;
     currentExportData := currentExportData pg |}.

Definition with_userMarker (m : option (number * number)) (pg : Page) : Page :=
  {| parks := parks pg; rank_type := rank_type pg; rank_number := rank_number pg;
     postcode_input := postcode_input pg; distance_input := distance_input pg;
     facility_checked := facility_checked pg; nearestMode := nearestMode pg;
     userMarker := m; searchCircle := searchCircle pg;
     currentExportData := currentExportData pg |}.

Definition with_searchCircle (c : option Circle) (pg : Page) : Page :=
  {| parks := parks pg; rank_type := rank_type pg; rank_number := rank_number pg;
     postcode_input := postcode_input pg; distance_input := distance_input pg;
     facility_checked := facility_checked pg; nearestMode := nearestMode pg;
     userMarker := userMarker pg; searchCircle := c;
     currentExportData := currentExportData pg |}.

Definition with_currentExportData (d : ExportData) (pg : Page) : Page :=
  {| parks := parks pg; rank_type := rank_type pg; rank_number := rank_number pg;
     postcode_input := postcode_input pg; distance_input := distance_input pg;
     facility_checked := facility_checked pg; nearestMode := nearestMode pg;
     userMarker := userMarker pg; searchCircle := searchCircle pg;
     currentExportData := d |}.

(** Both entry points start by removing the user marker and the search
    circle of an earlier nearby search. *)
Definition clearSearchArtifacts (pg : Page) : Page :=
  with_searchCircle None (with_userMarker None pg).

(** The record a reference denotes, and a property of it. *)
Definition park (store : list Obj) (r : nat) : Obj := default ∅ (store !! r).

Definition field (store : list Obj) (r : nat) (k : string) : JsVal :=
  get (park store r) k.

(** [p[k] = v] on the record behind the reference. *)
Definition set_field (store : list Obj) (r : nat) (k : string) (v : JsVal) : list Obj :=
  <[r := <[k := v]> (park store r)]> store.

(** *** ranking.js: applyRanking *)

Inductive RankingOutcome :=
  | ShowSelectRankModal
  | ShowEnterRankNumModal
  | ToastNoData
  | CallbackThrows
  | ShowTieModal (topResults : list nat).

(** [type.split('_')[0]], [type.split('_')[1]] and the property they name. *)
Definition rankField (type : string) : string := hd EmptyString (split "_" type).

Definition rankOrder (type : string) : JsVal :=
  match nth_error (split "_" type) 1 with
  | Some s => JStr s
  | None => JUndefined
  end.

Definition rankDataKey (type : string) : string :=
  if String.eqb (rankField type) "quantity" then "quantity_variety" else rankField type.

Definition highest (order : JsVal) : bool := strict_equal order (JStr "highest").

(** [parks.filter(p => p[dataKey] !== null && !isNaN(Number(p[dataKey])))]. *)
Definition hasScore (store : list Obj) (dataKey : string) (r : nat) : bool :=
  negb (strict_equal (field store r dataKey) JNull)
  && negb (isNaN (ToNumber (field store r dataKey))).

Definition validParks (store : list Obj) (dataKey : string) : list nat :=
  List.filter (hasScore store dataKey) (seq 0 (length store)).

(** The comparator handed to [valid.sort]. *)
Definition byScore (store : list Obj) (order : JsVal) (dataKey : string) (a b : nat) : number :=
  if highest order then js_sub (field store b dataKey) (field store a dataKey)
  else js_sub (field store a dataKey) (field store b dataKey).

Definition sortedValid (store : list Obj) (order : JsVal) (dataKey : string) : list nat :=
  sort (byScore store order dataKey) (validParks store dataKey).

(** The cut with ties; [None] when [valid[num-1]] is not an element. *)
Definition topResultsOf (store : list Obj) (order : JsVal) (dataKey : string)
    (num : number) (valid : list nat) : option (list nat) :=
  if js_le (JNum (num_of_nat (length valid))) (JNum num) then Some valid
  else
    match array_index (num_sub num (Fin 1)) with
    | Some i =>
        match valid !! i with
        | Some c =>
            let cutoffVal := field store c dataKey in
            Some (List.filter
                    (fun p => if highest order then js_ge (field store p dataKey) cutoffVal
                              else js_le (field store p dataKey) cutoffVal)
                    valid)
        | None => None
        end
    | None => None
    end.

(** The [forEach] that writes [displayRank]: [todo] is what is left of
    [topResults], [index] the position of its head. *)
Fixpoint assignDisplayRank (dataKey : string) (topResults todo : list nat)
    (index currentRank : nat) (store : list Obj) : list Obj :=
  match todo with
  | [] => store
  | p :: todo' =>
      let previous := default 0 (topResults !! (index - 1)) in
      let currentRank :=
        if (0 <? index)
           && negb (strict_equal (field store p dataKey) (field store previous dataKey))
        then index + 1 else currentRank in
      assignDisplayRank dataKey topResults todo' (S index) currentRank
        (set_field store p "displayRank" (JNum (num_of_nat currentRank)))
  end.

(** [applyRanking()].  The body of the 400 ms timer runs at once.  After the
    rank calculation the script only presents [topResults] (map bounds, tie
    modal, markers with their tooltips), which is [ShowTieModal] here.
    [CallbackThrows] stands for a TypeError at [valid[num-1][dataKey]]. *)
Definition applyRanking (pg : Page) : Page * RankingOutcome :=
  let type := rank_type pg in
  let numInput := rank_number pg in
  let num := parseInt numInput in
  if negb (ToBoolean (JStr type)) then (pg, ShowSelectRankModal)
  else if negb (ToBoolean (JStr numInput)) || js_lt (JNum num) (JNum (Fin 1)) || isNaN num
  then (with_currentExportData (ExportParks []) pg, ShowEnterRankNumModal)
  else
    let pg := clearSearchArtifacts pg in
    let order := rankOrder type in
    let dataKey := rankDataKey type in
    let valid := sortedValid (parks pg) order dataKey in
    match topResultsOf (parks pg) order dataKey num valid with
    | None => (pg, CallbackThrows)
    | Some topResults =>
        let pg := with_currentExportData (ExportParks topResults) pg in
        if (length topResults =? 0)%nat then (pg, ToastNoData)
        else
          (with_parks (assignDisplayRank dataKey topResults topResults 0 1 (parks pg)) pg,
           ShowTieModal topResults)
    end.

(** The ranked records a call hands to the presentation. *)
Definition ranked (out : RankingOutcome) : list nat :=
  match out with
  | ShowTieModal topResults => topResults
  | _ => []
  end.

(** *** nearby.js: setSearchMode and applyLocationSearch *)

Definition setSearchMode (isNearest : bool) (pg : Page) : Page :=
  with_nearestMode isNearest pg.

(** The two services the search calls: the geocoder, asked for a postcode,
    answers the parsed JSON array [geoData]; the search endpoint, asked with
    the posted body, answers the array [result.parks].  [None] is a request
    that is rejected or whose answer has no such array. *)

Record SearchBody := {
  facilities : list string;
  user_lat : JsVal;
  user_lon : JsVal;
  distance : JsVal;
  nearest_only : bool
}.

Record Network := {
  nominatim : string -> option (list Obj);
  SEARCH_URL : SearchBody -> option (list Obj)
}.

(** [JSON.stringify] of a number: what is not finite is written [null]. *)
Definition json_number (x : number) : JsVal :=
  match x with
  | Fin _ => JNum x
  | _ => JNull
  end.

Inductive SearchOutcome :=
  | ShowEnterPostcodeModal
  | ShowInvalidPostcodeModal
  | ShowSelectFacilityModal
  | ShowNoResultsModal
  | ToastCouldNotLocate
  | ToastErrorSearching
  | ToastFound (validMatches : list Obj).

Record SearchRun := {
  page_after : Page;
  outcome : SearchOutcome;
  posted : option SearchBody
}.

(** [/^[A-Z]{1,2}\d[A-Z\d]? ?\d[A-Z]{2}$/i]: the eight shapes the optional
    parts give, each tried against the whole string. *)
Inductive CharClass := Letter | Digit | LetterOrDigit | Space.

Definition isLetter (c : ascii) : bool :=
  let n := unit_code c in
  ((65 <=? n) && (n <=? 90) || (97 <=? n) && (n <=? 122))%N.

Definition isDigit (c : ascii) : bool :=
  let n := unit_code c in ((48 <=? n) && (n <=? 57))%N.

Definition in_class (cls : CharClass) (c : ascii) : bool :=
  match cls with
  | Letter => isLetter c
  | Digit => isDigit c
  | LetterOrDigit => isLetter c || isDigit c
  | Space => (unit_code c =? 32)%N
  end.

Fixpoint matches_shape (shape : list CharClass) (s : string) : bool :=
  match shape, s with
  | [], EmptyString => true
  | cls :: shape', String c s' => in_class cls c && matches_shape shape' s'
  | _, _ => false
  end.

Definition postcodeShapes : list (list CharClass) :=
  area ← [[Letter]; [Letter; Letter]];
  sub ← [[]; [LetterOrDigit]];
  gap ← [[]; [Space]];
  [area ++ [Digit] ++ sub ++ gap ++ [Digit; Letter; Letter]].

Definition postcodeRegex_test (s : string) : bool :=
  existsb (fun shape => matches_shape shape s) postcodeShapes.

(** [parks.find(p => String(p.site_id) === String(match.site_id))]. *)
Definition findPark (store : list Obj) (match_ : Obj) : option Obj :=
  List.find
    (fun p => String.eqb (ToString (get p "site_id")) (ToString (get match_ "site_id")))
    store.

(** The strict conjunctive filter.  [None] is a TypeError: an element of
    [facilities] without [toLowerCase], or a truthy [facilities] without
    [some].  [some] stops at the first facility that matches, [every] at the
    first requirement that fails. *)
Fixpoint someAvailable (reqNorm : string) (avails : list JsVal) : option bool :=
  match avails with
  | [] => Some false
  | JStr avail :: rest =>
      if String.eqb (trim (toLowerCase avail)) reqNorm then Some true
      else someAvailable reqNorm rest
  | _ :: _ => None
  end.

Definition hasFacility (fullPark : Obj) (req : string) : option bool :=
  let reqNorm := trim (toLowerCase req) in
  match get fullPark "facilities" with
  | JArr avails => someAvailable reqNorm avails
  | _ => None
  end.

Fixpoint everyRequired (fullPark : Obj) (selectedFacilities : list string) : option bool :=
  match selectedFacilities with
  | [] => Some true
  | req :: rest =>
      match hasFacility fullPark req with
      | Some true => everyRequired fullPark rest
      | other => other
      end
  end.

Definition strictMatch (store : list Obj) (selectedFacilities : list string)
    (match_ : Obj) : option bool :=
  match findPark store match_ with
  | None => Some false
  | Some fullPark =>
      if negb (ToBoolean (get fullPark "facilities")) then Some false
      else everyRequired fullPark selectedFacilities
  end.

Fixpoint filterMatches (store : list Obj) (selectedFacilities : list string)
    (resultParks : list Obj) : option (list Obj) :=
  match resultParks with
  | [] => Some []
  | m :: rest =>
      keep ← strictMatch store selectedFacilities m;
      kept ← filterMatches store selectedFacilities rest;
      Some (if keep : bool then m :: kept else kept)
  end.

(** [match.distance.toFixed(2)], which the result list and the marker badge
    evaluate for every match shown, needs a number. *)
Definition hasDistance (match_ : Obj) : bool :=
  match get match_ "distance" with
  | JNum _ => true
  | _ => false
  end.

(** [applyLocationSearch()], its two requests answered by [net].  Whatever
    the [try] block raises ends in the toast [ToastErrorSearching], but for
    the error of an empty [geoData], which has a toast of its own.  After step
    6 the script presents [validMatches]: the result list in distance mode,
    the marker badges, the search circle and the toast with their count,
    which is [ToastFound] here. *)
Definition applyLocationSearch (net : Network) (pg : Page) : SearchRun :=
  let postcode := trim (postcode_input pg) in
  let rawDistance := distance_input pg in
  let distance := if ToBoolean (JStr rawDistance) then parseFloat rawDistance else Fin 5 in
  let selectedFacilities := facility_checked pg in
  let stop pg out body := {| page_after := pg; outcome := out; posted := body |} in
  if negb (ToBoolean (JStr postcode)) then stop pg ShowEnterPostcodeModal None
  else if negb (postcodeRegex_test postcode) then stop pg ShowInvalidPostcodeModal None
  else if (length selectedFacilities =? 0)%nat then stop pg ShowSelectFacilityModal None
  else
    let pg := clearSearchArtifacts pg in
    match nominatim net postcode with
    | None => stop pg ToastErrorSearching None
    | Some [] => stop pg ToastCouldNotLocate None
    | Some (hit :: _) =>
        let userLat := parseFloat (ToString (get hit "lat")) in
        let userLon := parseFloat (ToString (get hit "lon")) in
        (* L.marker refuses a NaN coordinate *)
        if isNaN userLat || isNaN userLon then stop pg ToastErrorSearching None
        else
          let pg := with_userMarker (Some (userLat, userLon)) pg in
          let body :=
            {| facilities := selectedFacilities;
               user_lat := json_number userLat;
               user_lon := json_number userLon;
               distance := if nearestMode pg then JNull else json_number distance;
               nearest_only := nearestMode pg |} in
          match SEARCH_URL net body with
          | None => stop pg ToastErrorSearching (Some body)
          | Some resultParks =>
              match filterMatches (parks pg) selectedFacilities resultParks with
              | None => stop pg ToastErrorSearching (Some body)
              | Some validMatches =>
                  let validMatches :=
                    match validMatches with
                    | first :: _ => if nearestMode pg then [first] else validMatches
                    | [] => validMatches
                    end in
                  let pg := with_currentExportData (ExportMatches validMatches) pg in
                  if (length validMatches =? 0)%nat then stop pg ShowNoResultsModal (Some body)
                  else if negb (forallb hasDistance validMatches)
                  then stop pg ToastErrorSearching (Some body)
                  else if nearestMode pg then stop pg (ToastFound validMatches) (Some body)
                  else
                    let radius := num_mul distance (Fin 1000) in
                    (* L.circle refuses a NaN radius *)
                    if isNaN radius then stop pg ToastErrorSearching (Some body)
                    else
                      stop
                        (with_searchCircle
                           (Some {| center := (userLat, userLon); radius := radius |}) pg)
                        (ToastFound validMatches) (Some body)
              end
          end
    end.

(** The matches a call hands to the presentation. *)
Definition found (run : SearchRun) : list Obj :=
  match outcome run with
  | ToastFound validMatches => validMatches
  | _ => []
  end.

(** *** ui.js: clearAllInputs

    [selectedIndex = 0] selects the first option of [#rank-type].  The page
    that declares the options is not among the scripts: the value of the
    first one is the parameter [firstRankType]. *)

Definition clearAllInputs (firstRankType : string) (pg : Page) : Page :=
  {| parks := parks pg;
     rank_type := firstRankType;
     rank_number := EmptyString;
     postcode_input := EmptyString;
     distance_input := "5.0";
     facility_checked := [];
     nearestMode := false;
     userMarker := None;
     searchCircle := None;
     currentExportData := ExportParks (seq 0 (length (parks pg))) |}.

(** *** Vocabulary of the properties *)

(** The metric value of a record, as a number. *)
Definition score (store : list Obj) (dataKey : string) (r : nat) : number :=
  ToNumber (field store r dataKey).

(** Equal to or better than: [>=] when the order is 'highest', [<=]
    otherwise. *)
Definition betterOrEqual (order : JsVal) (a b : number) : bool :=
  if highest order then num_leb b a else num_leb a b.

(** The data model of the catalog: a metric is a number or unknown ([null],
    or absent). *)
Definition numericOrUnknown (v : JsVal) : Prop :=
  match v with
  | JNum _ | JNull | JUndefined => True
  | _ => False
  end.

Definition numericCatalog (store : list Obj) (dataKey : string) : Prop :=
  forall o, o ∈ store -> numericOrUnknown (get o dataKey).

(** A value that is not [null] and denotes a number. *)
Definition numeric (v : JsVal) : Prop :=
  v <> JNull /\ isNaN (ToNumber v) = false.

(** Follows the spec's words: a limit below 1 or not an integer is
    [InvalidLimit]. *)
Definition InvalidLimit_spec (limit : number) : Prop :=
  num_ltb limit (Fin 1) = true \/ isInteger limit = false.

(** The data model of the catalog: the facilities of a record are an array
    of names. *)
Definition facilitiesCatalog (store : list Obj) : Prop :=
  forall o, o ∈ store -> exists names, get o "facilities" = JArr (map JStr names).

(** The record offers the facility, under lower-casing and trimming of both
    names. *)
Definition offers (fullPark : Obj) (req : string) : Prop :=
  exists avails avail,
    get fullPark "facilities" = JArr avails
    /\ JStr avail ∈ avails
    /\ trim (toLowerCase avail) = trim (toLowerCase req).

Definition matchDistance (match_ : Obj) : number :=
  match get match_ "distance" with
  | JNum x => x
  | _ => NaN
  end.

(** Every match carries a distance, and they come in ascending order. *)
Definition ascendingByDistance (ms : list Obj) : Prop :=
  Forall (fun m => isNaN (matchDistance m) = false) ms
  /\ StronglySorted (fun a b => num_leb (matchDistance a) (matchDistance b) = true) ms.

(** The search got as far as its origin: a postcode of the accepted shape, a
    facility selected, and a first geocoder hit at [(userLat, userLon)]. *)
Definition geocoded (net : Network) (pg : Page) (userLat userLon : number) : Prop :=
  let postcode := trim (postcode_input pg) in
  postcode <> EmptyString
  /\ postcodeRegex_test postcode = true
  /\ facility_checked pg <> []
  /\ (exists hit others,
        nominatim net postcode = Some (hit :: others)
        /\ userLat = parseFloat (ToString (get hit "lat"))
        /\ userLon = parseFloat (ToString (get hit "lon")))
  /\ isNaN userLat = false
  /\ isNaN userLon = false.

(** The radius a search in distance mode works with, in kilometers. *)
Definition searchRadius (pg : Page) : number :=
  if ToBoolean (JStr (distance_input pg)) then parseFloat (distance_input pg) else Fin 5.

(** The candidates of a search: the array the endpoint answered. *)
Definition candidates (net : Network) (run : SearchRun) : list Obj :=
  match posted run with
  | Some body => default [] (SEARCH_URL net body)
  | None => []
  end.

Definition with_rank_number (s : string) (pg : Page) : Page :=
  {| parks := parks pg; rank_type := rank_type pg; rank_number := s;
     postcode_input := postcode_input pg; distance_input := distance_input pg;
     facility_checked := facility_checked pg; nearestMode := nearestMode pg;
     userMarker := userMarker pg; searchCircle := searchCircle pg;
     currentExportData := currentExportData pg |}.

(** The ranks the [forEach] of [applyRanking] computes, on the values alone:
    [prev] is the value before the head, [index] the position of the head. *)
Fixpoint denseRanks (index currentRank : nat) (prev : JsVal) (vals : list JsVal) : list nat :=
  match vals with
  | [] => []
  | v :: vals' =>
      let currentRank :=
        if (0 <? index) && negb (strict_equal v prev) then index + 1 else currentRank in
      currentRank :: denseRanks (S index) currentRank v vals'
  end.

End InteractionMap.

(** ** The distance of the proximity engine *)

Module ProximityEngine.
Local Open Scope R_scope.

Record Point := { lat : R; lon : R }.

Definition toRadians (degrees : R) : R := degrees * PI / 180.

(** Mean radius of the Earth, in kilometers. *)
Definition earthRadiusKm : R := 6371.

Definition hav (theta : R) : R := (sin (theta / 2))².

(** Modelled from the spec: [distanceKm] is computed by the search endpoint of
    the Flask application, which is not among the scripts; the spec gives it
    as the great-circle (haversine) distance between two latitude/longitude
    pairs in degrees, in kilometers.  It is taken over the real numbers. *)
Definition distanceKm (a b : Point) : R :=
  let phi1 := toRadians (lat a) in
  let phi2 := toRadians (lat b) in
  let h := hav (phi2 - phi1)
           + cos phi1 * cos phi2 * hav (toRadians (lon b) - toRadians (lon a)) in
  2 * earthRadiusKm * asin (sqrt h).

End ProximityEngine.

(** ** The search of the proximity engine *)

Module ProximitySearch.
Import JS InteractionMap.

(** Modelled from the spec: the two modes of a search, and what it answers:
    the failure InvalidRadius, or the candidates as ProximityResults. *)
Inductive Mode :=
  | nearest
  | withinRadius (radiusKm : Q).

Inductive SearchResult :=
  | InvalidRadius
  | Candidates (results : list Obj).

Section Search.
(** The distance of a record from the origin, in kilometers: [distanceKm] as
    the endpoint computes it, a double. *)
Context (distanceOf : Obj -> Q).

(** Modelled from the spec: a ProximityResult wraps a Park with its distance
    in kilometers.  The endpoint's format of a match is not among the
    scripts; what they read of a match is [site_id] and [distance]. *)
Definition proximityResult (p : Obj) : Obj :=
  <["distance" := JNum (Fin (distanceOf p))]> p.

(** Modelled from the spec: the order of the sort, by ascending distance. *)
Definition byDistance (a b : Obj) : number := Fin (distanceOf a - distanceOf b).

(** Modelled from the spec: [search] is the work of the search endpoint of the
    Flask application, which is not among the scripts.  The spec gives it as
    the distance of every record from the origin (step 1), a stable sort of
    the candidates by ascending distance (step 3), in radius mode the
    candidates at a distance of at most the radius (step 4), and the failure
    InvalidRadius for a radius of 0 or less (step 5).  The facility filter of
    step 2 and the cut of nearest mode are in nearby.js, and are taken from
    there. *)
Definition search (records : list Obj) (mode : Mode) : SearchResult :=
  let sorted := sort byDistance records in
  match mode with
  | nearest => Candidates (map proximityResult sorted)
  | withinRadius radiusKm =>
      if Qle_bool radiusKm 0 then InvalidRadius
      else
        Candidates
          (map proximityResult
             (List.filter (fun p => Qle_bool (distanceOf p) radiusKm) sorted))
  end.
End Search.

(** Modelled from the spec: the body the scripts post, read as the arguments
    of [search].  The origin is a finite pair of degrees; the mode is nearest,
    or a radius that is a finite number. *)
Definition originOf (body : SearchBody) : option (Q * Q) :=
  match user_lat body, user_lon body with
  | JNum (Fin userLat), JNum (Fin userLon) => Some (userLat, userLon)
  | _, _ => None
  end.

Definition modeOf (body : SearchBody) : option Mode :=
  if nearest_only body then Some nearest
  else
    match distance body with
    | JNum (Fin radiusKm) => Some (withinRadius radiusKm)
    | _ => None
    end.

(** Modelled from the spec: the answer of the search endpoint to a posted
    body is the result of [search] on the endpoint's records.  A failure of
    [search], and a body that gives no origin or no mode, is answered without
    the array of parks. *)
Definition endpoint (distanceOf : Q * Q -> Obj -> Q) (records : list Obj)
    (body : SearchBody) : option (list Obj) :=
  origin ← originOf body;
  mode ← modeOf body;
  match search (distanceOf origin) records mode with
  | Candidates results => Some results
  | InvalidRadius => None
  end.

(** The two services, the search endpoint being the one of the spec. *)
Definition network (geocoder : string -> option (list Obj))
    (distanceOf : Q * Q -> Obj -> Q) (records : list Obj) : Network :=
  {| nominatim := geocoder; SEARCH_URL := endpoint distanceOf records |}.

End ProximitySearch.

(** ** The order of a ranked result *)

Module RankingOrder.
Import JS InteractionMap.

(** Strictly better: equal to or better than, and not the other way round. *)
Definition strictlyBetter (order : JsVal) (a b : number) : bool :=
  betterOrEqual order a b && negb (betterOrEqual order b a).

(** The order of a ranked result: by score, and by position in the catalog
    among records whose scores are equal. *)
Definition rankedBefore (store : list Obj) (order : JsVal) (dataKey : string) (p q : nat) : Prop :=
  betterOrEqual order (score store dataKey p) (score store dataKey q) = true
  /\ (betterOrEqual order (score store dataKey q) (score store dataKey p) = true -> p < q).

End RankingOrder.

(** ** The colours of the ranks *)

Module Palette.
Import JS InteractionMap.

(** *** config.js: the colour tables *)

Definition rankColorMap : list string :=
  [ "gold"; "orange"; "red"; "violet"; "blue"; "green"; "yellow"; "grey";
    "purple"; "pink"; "brown"; "teal"; "lime"; "indigo"; "coral"; "navy";
    "maroon"; "olive"; "cyan"; "magenta" ].

Definition rankHexMap : gmap string string :=
  list_to_map
    [ ("gold", "#FFD326"); ("orange", "#CB8427"); ("red", "#982E40");
      ("violet", "#9C2BCB"); ("blue", "#2A81CB"); ("green", "#2AAD27");
      ("yellow", "#CAC428"); ("grey", "#7B7B7B"); ("black", "#3D3D3D");
      ("purple", "#6A0DAD"); ("pink", "#FF69B4"); ("brown", "#8B4513");
      ("teal", "#008080"); ("lime", "#32CD32"); ("indigo", "#4B0082");
      ("coral", "#FF7F50"); ("navy", "#000080"); ("maroon", "#800000");
      ("olive", "#808000"); ("cyan", "#00FFFF"); ("magenta", "#FF00FF") ].

(** The image of a marker icon, which is all that tells two icons apart. *)
Definition iconUrl (colour : string) : string :=
  ("https://raw.githubusercontent.com/pointhi/leaflet-color-markers/master/img/marker-icon-"
   ++ colour ++ ".png")%string.

Definition icons : gmap string string :=
  list_to_map
    [ ("black", iconUrl "black"); ("gold", iconUrl "gold"); ("orange", iconUrl "orange");
      ("red", iconUrl "red"); ("violet", iconUrl "violet"); ("blue", iconUrl "blue");
      ("green", iconUrl "green"); ("yellow", iconUrl "yellow"); ("grey", iconUrl "grey");
      ("purple", iconUrl "violet"); ("pink", iconUrl "red"); ("brown", iconUrl "orange");
      ("teal", iconUrl "blue"); ("lime", iconUrl "green"); ("indigo", iconUrl "violet");
      ("coral", iconUrl "orange"); ("navy", iconUrl "blue"); ("maroon", iconUrl "red");
      ("olive", iconUrl "yellow"); ("cyan", iconUrl "blue"); ("magenta", iconUrl "violet") ].

(** *** The remainder [n % d] *)

(** The integer part of a rational, rounding towards zero. *)
Definition truncate (q : Q) : Z :=
  if Qnegative q then (- Qfloor (- q))%Z else Qfloor q.

Definition num_rem (n d : number) : number :=
  match n, d with
  | Fin p, Fin q => if Qzero q then NaN else Fin (p - q * inject_Z (truncate (p / q)))
  | Fin p, Inf _ => Fin p
  | _, _ => NaN
  end.

(** *** Reading the tables *)

(** [a[i]] on an array of strings. *)
Definition element (a : list string) (i : number) : JsVal :=
  match array_index i with
  | Some k => match a !! k with Some s => JStr s | None => JUndefined end
  | None => JUndefined
  end.

(** [o[k]] on an object of strings. *)
Definition property (o : gmap string string) (k : JsVal) : JsVal :=
  match o !! ToString k with
  | Some v => JStr v
  | None => JUndefined
  end.

(** *** ranking.js: the colour of a rank, in [showTieModal] and on the marker *)

Definition colorKey (displayRank : JsVal) : JsVal :=
  let length := num_of_nat (List.length rankColorMap) in
  let colorIndex := js_sub displayRank (JNum (Fin 1)) in
  let colorIndex :=
    if js_ge (JNum colorIndex) (JNum length) then num_rem colorIndex length
    else colorIndex in
  element rankColorMap colorIndex.

(** *** ui.js: the colour of a rank, in its [showTieModal] *)

Definition colorKey_ui (displayRank : JsVal) : JsVal :=
  let length := num_of_nat (List.length rankColorMap) in
  element rankColorMap (num_rem (js_sub displayRank (JNum (Fin 1))) length).

Definition hexColor (colorKey : JsVal) : JsVal := property rankHexMap colorKey.

Definition isLightColor (colorKey : JsVal) : bool :=
  strict_equal colorKey (JStr "yellow") || strict_equal colorKey (JStr "lime")
  || strict_equal colorKey (JStr "cyan").

Definition textColor (colorKey : JsVal) : string :=
  if isLightColor colorKey then "#000" else "#fff".

End Palette.

(** ** The tie note of the ranking modal *)

Module TieModal.
Import JS InteractionMap.

(** *** ranking.js: showTieModal

    [new Set(scores).size !== scores.length]: a set keeps the first of the
    values that are the same under SameValueZero, which is [===] but for
    [NaN], the same as itself. *)

Definition sameValueZero (a b : JsVal) : bool :=
  match a, b with
  | JNum NaN, JNum NaN => true
  | _, _ => strict_equal a b
  end.

Definition setAdd (s : list JsVal) (v : JsVal) : list JsVal :=
  if existsb (sameValueZero v) s then s else s ++ [v].

Definition newSet (values : list JsVal) : list JsVal := foldl setAdd [] values.

Definition hasTies (store : list Obj) (data : list nat) (key : string) : bool :=
  let scores := map (fun p => field store p key) data in
  negb (length (newSet scores) =? length scores)%nat.

(** *** ui.js: showTieModal

    The loop from [i = 1] that stops at the first record with the
    [displayRank] of the record before it. *)

Fixpoint hasTies_ui (store : list Obj) (results : list nat) : bool :=
  match results with
  | previous :: (current :: _) as rest =>
      if strict_equal (field store current "displayRank") (field store previous "displayRank")
      then true
      else hasTies_ui store rest
  | _ => false
  end.

End TieModal.

(** ** The CSV export *)

Module CsvExport.
Import JS InteractionMap.

(** *** ui.js: exportParksToCSV *)

Inductive ExportOutcome :=
  | ShowNoExportDataModal
  | ExportThrows
  | Download (csvContent : string).

Definition quote : ascii := "034".

Definition lineFeed : string := String "010" EmptyString.

(** [s.replace] of every quote by two quotes, as the row does with the name. *)
Fixpoint doubleQuotes (s : string) : string :=
  match s with
  | EmptyString => EmptyString
  | String c s' =>
      if Ascii.eqb c quote then String quote (String quote (doubleQuotes s'))
      else String c (doubleQuotes s')
  end.

(** A text between two quotes. *)
Definition quoted (s : string) : string :=
  String quote (s ++ String quote EmptyString).

(** [v || ''], the empty text for a falsy value. *)
Definition orEmpty (v : JsVal) : JsVal :=
  if ToBoolean v then v else JStr EmptyString.

Definition headers : list string :=
  [ "Site ID"; "Park Name"; "Postcode"; "Council Area"; "Rec Score";
    "Quality"; "Safety"; "Accessibility"; "Quantity/Variety";
    "Latitude"; "Longitude" ].

(** The cells of a row.  [None] is the TypeError of [replace] on a name that
    is truthy and not a string. *)
Definition row (p : Obj) : option (list JsVal) :=
  match orEmpty (get p "name") with
  | JStr name =>
      Some [ get p "site_id";
             JStr (quoted (doubleQuotes name));
             orEmpty (get p "postcode");
             JStr (quoted (ToString (orEmpty (get p "community"))));
             orEmpty (get p "recreation");
             orEmpty (get p "quality");
             orEmpty (get p "safety");
             orEmpty (get p "accessibility");
             orEmpty (get p "quantity_variety");
             get p "lat";
             get p "lon" ]
  | _ => None
  end.

(** [r.join(',')]: the cells as [String] prints them, [null] and [undefined]
    as nothing. *)
Definition line (cells : list JsVal) : string := ToString (JArr cells).

(** The array behind [window.currentExportData]: records of the catalog, or
    the matches the search endpoint answered. *)
Definition exportData (pg : Page) : list Obj :=
  match currentExportData pg with
  | ExportParks refs => map (park (parks pg)) refs
  | ExportMatches matches => matches
  end.

(** [fullPark || item]. *)
Definition fullData (pg : Page) : list Obj :=
  map (fun item => default item (findPark (parks pg) item)) (exportData pg).

Definition csvContent (rows : list (list JsVal)) : string :=
  join lineFeed (join "," headers :: map line rows).

Definition exportParksToCSV (pg : Page) : ExportOutcome :=
  if (length (exportData pg) =? 0)%nat then ShowNoExportDataModal
  else
    match mapM row (fullData pg) with
    | Some rows => Download (csvContent rows)
    | None => ExportThrows
    end.

(** *** Vocabulary of the properties *)

(** How a reader of CSV takes a quoted field (RFC 4180): after the opening
    quote, two quotes stand for one and a single quote closes the field.  The
    answer is the text of the field and what follows it. *)
Fixpoint readQuotedBody (s : string) : option (string * string) :=
  match s with
  | EmptyString => None
  | String c s' =>
      if Ascii.eqb c quote then
        match s' with
        | String c' s'' =>
            if Ascii.eqb c' quote then
              match readQuotedBody s'' with
              | Some (text, rest) => Some (String quote text, rest)
              | None => None
              end
            else Some (EmptyString, s')
        | EmptyString => Some (EmptyString, EmptyString)
        end
      else
        match readQuotedBody s' with
        | Some (text, rest) => Some (String c text, rest)
        | None => None
        end
  end.

Definition readQuotedField (s : string) : option (string * string) :=
  match s with
  | String c s' => if Ascii.eqb c quote then readQuotedBody s' else None
  | EmptyString => None
  end.

(** No two records of the catalog print the same [site_id]. *)
Definition distinctSiteIds (store : list Obj) : Prop :=
  forall i j o o',
    store !! i = Some o -> store !! j = Some o' ->
    ToString (get o "site_id") = ToString (get o' "site_id") -> i = j.

End CsvExport.

(** ** The search by name *)

Module NameSearch.
Import JS InteractionMap.

(** *** search_name.js: the suggestions of the search box *)

(** [s.includes(val)]. *)
Fixpoint includes (s val : string) : bool :=
  String.prefix val s
  || match s with
     | EmptyString => false
     | String _ s' => includes s' val
     end.

(** [parks.filter(p => p.name.toLowerCase().includes(val))], from the record
    at [index] on.  [None] is the TypeError of [toLowerCase] on a name that
    is not a string. *)
Fixpoint matchingParks (val : string) (store : list Obj) (index : nat) : option (list nat) :=
  match store with
  | [] => Some []
  | p :: rest =>
      match get p "name" with
      | JStr name =>
          match matchingParks val rest (S index) with
          | Some found =>
              Some (if includes (toLowerCase name) val then index :: found else found)
          | None => None
          end
      | _ => None
      end
  end.

(** The handler of [input] on the search box: the records it lists. *)
Definition suggest (value : string) (store : list Obj) : option (list nat) :=
  let val := toLowerCase value in
  if negb (ToBoolean (JStr val)) then Some []
  else take 6 <$> matchingParks val store 0.

(** The handler of a click on the suggestion of [p], on the page. *)
Definition selectSuggestion (p : nat) (pg : Page) : Page :=
  clearSearchArtifacts (with_currentExportData (ExportParks [p]) pg).

End NameSearch.

(** ** The image gallery of a popup *)

Module Gallery.
Import JS.

(** The gallery of a park in the document: for each image whether it
    carries the class [active], and the text of the counter, when there is
    one. *)
Record GalleryDom := {
  images : list bool;
  counter : option string
}.

(** [window.currentImageIndex], and the galleries by the park id in their
    element id.  The buttons pass the directions [-1] and [1], so the indices
    are integers. *)
Record GalleryState := {
  currentImageIndex : gmap string Z;
  galleries : gmap string GalleryDom
}.

(** [images[index].classList.add('active')] and [.remove('active')];
    [None] is the TypeError on an index without an image. *)
Definition setActive (index : Z) (active : bool) (imgs : list bool) : option (list bool) :=
  if (0 <=? index)%Z && (index <? Z.of_nat (length imgs))%Z
  then Some (<[Z.to_nat index := active]> imgs)
  else None.

Definition counterText (index n : Z) : string :=
  (NumberToString (num_of_Z (index + 1)) ++ "/" ++ NumberToString (num_of_Z n))%string.

(** *** popup.js: changeImage *)

Definition changeImage (parkId : string) (direction : Z) (st : GalleryState)
    : option GalleryState :=
  match galleries st !! parkId with
  | None => Some st
  | Some gallery =>
      let n := Z.of_nat (length (images gallery)) in
      if (n =? 0)%Z then Some st
      else
        let index := default 0%Z (currentImageIndex st !! parkId) in
        match setActive index false (images gallery) with
        | None => None
        | Some imgs =>
            let index := (index + direction)%Z in
            let index := if (index <? 0)%Z then (n - 1)%Z else index in
            let index := if (n <=? index)%Z then 0%Z else index in
            match setActive index true imgs with
            | None => None
            | Some imgs =>
                Some {| currentImageIndex := <[parkId := index]> (currentImageIndex st);
                        galleries :=
                          <[parkId := {| images := imgs;
                                         counter := (fun _ => counterText index n)
                                                      <$> counter gallery |}]>
                            (galleries st) |}
            end
        end
  end.

(** *** simd_map.js: its copy of changeImage

    It does not look at the number of images, and tests the index with [!]. *)

Definition changeImage_simd (parkId : string) (direction : Z) (st : GalleryState)
    : option GalleryState :=
  match galleries st !! parkId with
  | None => Some st
  | Some gallery =>
      let n := Z.of_nat (length (images gallery)) in
      let index :=
        match currentImageIndex st !! parkId with
        | Some i => if (i =? 0)%Z then 0%Z else i
        | None => 0%Z
        end in
      match setActive index false (images gallery) with
      | None => None
      | Some imgs =>
          let index := (index + direction)%Z in
          let index :=
            if (index <? 0)%Z then (n - 1)%Z
            else if (n <=? index)%Z then 0%Z else index in
          match setActive index true imgs with
          | None => None
          | Some imgs =>
              Some {| currentImageIndex := <[parkId := index]> (currentImageIndex st);
                      galleries :=
                        <[parkId := {| images := imgs;
                                       counter := (fun _ => counterText index n)
                                                    <$> counter gallery |}]>
                          (galleries st) |}
          end
      end
  end.

(** *** popup.js: the gallery createPopupContent writes

    A record with images gets a gallery whose first image is the active one,
    and, with more than one image, the counter at [1/n]. *)
Definition newGallery (n : nat) : GalleryDom :=
  {| images := match n with O => [] | S m => true :: replicate m false end;
     counter := if (1 <? n)%nat then Some (counterText 0 (Z.of_nat n)) else None |}.

(** *** Vocabulary of the properties *)

(** The gallery shows image [index]: that image alone is active, and the
    counter, when there is one, reads [index + 1]. *)
Definition shows (gallery : GalleryDom) (index : Z) : Prop :=
  let n := length (images gallery) in
  (0 <= index < Z.of_nat n)%Z
  /\ images gallery = <[Z.to_nat index := true]> (replicate n false)
  /\ (forall text, counter gallery = Some text -> text = counterText index (Z.of_nat n)).

(** How far a run of clicks moves: the sum of its directions. *)
Definition moved (directions : list Z) : Z := foldr Z.add 0%Z directions.

(** Clicks on the buttons of a gallery, one after the other. *)
Fixpoint clicks (parkId : string) (directions : list Z) (st : GalleryState)
    : option GalleryState :=
  match directions with
  | [] => Some st
  | d :: rest =>
      match changeImage parkId d st with
      | Some st' => clicks parkId rest st'
      | None => None
      end
  end.

End Gallery.

(** ** The markers of the parks *)

Module Markers.
Import JS InteractionMap Palette.

(** A marker, by what the scripts set on it.  The content of its popup is
    given by the arguments [createPopupContent] was called with: the record
    and the badge.  The badge of a rank is given by its colours, the rank and
    the score it prints; the badge of a distance by the distance (which it
    prints with two decimals) and the facilities listed as found. *)

Inductive Badge :=
  | NoBadge
  | RankBadge (hexColor : JsVal) (light : bool) (displayRank score : JsVal)
  | DistanceBadge (distance : JsVal) (found : list string).

Record Tooltip := {
  text : string;
  className : string
}.

Record Marker := {
  icon : JsVal;
  zIndexOffset : Z;
  tooltip : option Tooltip;
  popup : Obj * Badge;
  onMap : bool
}.

(** [parkMarkers]: the markers by the lower-cased name of their park. *)
Abbreviation MarkerTable := (gmap string Marker).

(** [p.name.toLowerCase()]; [None] is its TypeError on a name that is not a
    string. *)
Definition nameKey (p : Obj) : option string :=
  match get p "name" with
  | JStr name => Some (toLowerCase name)
  | _ => None
  end.

(** *** main.js: one marker per park

    The body of the loop builds the marker of [p], binds its popup, stores it
    under the lower-cased name and adds it to the map.  It raises
      - in Leaflet, on a position it does not take: a latitude or a longitude
        that denotes no number is refused when the marker is built (Invalid
        LatLng object), and a latitude that is [null] or an array leaves the
        marker without a position, which fails when it is added to the map;
      - in [createPopupContent], on images that are a text: a text that is
        not empty has a length above 0 and no [map];
      - on a name that is not a text, which has no [toLowerCase].
    Whatever the loop raises ends it: [None]. *)

Definition acceptsLatLng (lat lon : JsVal) : bool :=
  match lat with
  | JNull | JArr _ => false
  | _ => negb (isNaN (ToNumber lat)) && negb (isNaN (ToNumber lon))
  end.

Definition imagesRaise (images : JsVal) : bool :=
  match images with
  | JStr _ => ToBoolean images
  | _ => false
  end.

Definition newMarker (p : Obj) : Marker :=
  {| icon := property icons (JStr "black");
     zIndexOffset := 0;
     tooltip := None;
     popup := (p, NoBadge);
     onMap := true |}.

(** The key and the marker the body of the loop stores for [p]. *)
Definition markerEntry (p : Obj) : option (string * Marker) :=
  if negb (acceptsLatLng (get p "lat") (get p "lon")) then None
  else if imagesRaise (get p "images") then None
  else
    match nameKey p with
    | Some key => Some (key, newMarker p)
    | None => None
    end.

Fixpoint initMarkers (store : list Obj) (parkMarkers : MarkerTable) : option MarkerTable :=
  match store with
  | [] => Some parkMarkers
  | p :: rest =>
      match markerEntry p with
      | Some (key, m) => initMarkers rest (<[key := m]> parkMarkers)
      | None => None
      end
  end.

(** *** map.js: resetMarkers *)

Definition reset (m : Marker) : Marker :=
  {| icon := property icons (JStr "black");
     zIndexOffset := 0;
     tooltip := None;
     popup := popup m;
     onMap := true |}.

Fixpoint resetMarkers (store : list Obj) (parkMarkers : MarkerTable) : option MarkerTable :=
  match store with
  | [] => Some parkMarkers
  | p :: rest =>
      match nameKey p with
      | Some key => resetMarkers rest (alter reset key parkMarkers)
      | None => None
      end
  end.

(** *** ranking.js: the markers of the ranked records

    The body of the timer of the record at position [idx] of [topResults];
    the timers run in the order of the positions. *)

Definition rankedMarker (p : Obj) (dataKey : string) (idx : nat) (m : Marker) : Marker :=
  let displayRank := get p "displayRank" in
  let colorKey := colorKey displayRank in
  {| icon := property icons colorKey;
     zIndexOffset := 10000 - Z.of_nat idx;
     tooltip := Some {| text := "#" ++ ToString displayRank;
                        className := "rank-tooltip rank-tooltip-" ++ ToString colorKey |};
     popup := (p, RankBadge (hexColor colorKey) (isLightColor colorKey) displayRank
                    (get p dataKey));
     onMap := true |}.

Fixpoint decorateRanked (store : list Obj) (dataKey : string) (todo : list nat) (idx : nat)
    (parkMarkers : MarkerTable) : option MarkerTable :=
  match todo with
  | [] => Some parkMarkers
  | r :: rest =>
      match nameKey (park store r) with
      | Some key =>
          decorateRanked store dataKey rest (S idx)
            (alter (rankedMarker (park store r) dataKey idx) key parkMarkers)
      | None => None
      end
  end.

(** *** nearby.js: the markers of the matches

    [None] is a TypeError: of [toLowerCase], or of [toFixed] on a distance
    that is not a number. *)

Definition foundMarker (fullPark : Obj) (distance : JsVal) (selectedFacilities : list string)
    (m : Marker) : Marker :=
  {| icon := property icons (JStr "green");
     zIndexOffset := 500;
     tooltip := tooltip m;
     popup := (fullPark, DistanceBadge distance selectedFacilities);
     onMap := onMap m |}.

Fixpoint decorateFound (store : list Obj) (selectedFacilities : list string)
    (validMatches : list Obj) (parkMarkers : MarkerTable) : option MarkerTable :=
  match validMatches with
  | [] => Some parkMarkers
  | match_ :: rest =>
      match findPark store match_ with
      | Some fullPark =>
          match nameKey fullPark with
          | Some key =>
              match parkMarkers !! key with
              | Some m =>
                  if hasDistance match_ then
                    decorateFound store selectedFacilities rest
                      (<[key := foundMarker fullPark (get match_ "distance")
                                  selectedFacilities m]> parkMarkers)
                  else None
              | None => decorateFound store selectedFacilities rest parkMarkers
              end
          | None => None
          end
      | None => decorateFound store selectedFacilities rest parkMarkers
      end
  end.

(** *** search_name.js: the marker of the suggestion that is clicked

    After [resetMarkers] the popup of the marker is written anew, without a
    badge.  The icon is left as it is: the script sets the blue one only if
    [window.icons] is there, and config.js declares [icons] with [const],
    which makes no property of [window]. *)

Definition selectedMarker (p : Obj) (m : Marker) : Marker :=
  {| icon := icon m;
     zIndexOffset := zIndexOffset m;
     tooltip := tooltip m;
     popup := (p, NoBadge);
     onMap := onMap m |}.

Definition selectMarker (store : list Obj) (p : nat) (parkMarkers : MarkerTable)
    : option MarkerTable :=
  match resetMarkers store parkMarkers with
  | Some parkMarkers =>
      match nameKey (park store p) with
      | Some key => Some (alter (selectedMarker (park store p)) key parkMarkers)
      | None => None
      end
  | None => None
  end.

(** *** Vocabulary of the properties *)

(** The page has loaded: every park has its name as a text and a marker
    under it, and no two parks share a lower-cased name. *)
Definition loaded (store : list Obj) (parkMarkers : MarkerTable) : Prop :=
  (forall p, p ∈ store -> exists key, nameKey p = Some key /\ is_Some (parkMarkers !! key))
  /\ (forall i j p q, store !! i = Some p -> store !! j = Some q ->
        nameKey p = nameKey q -> i = j).

(** The match resolves to the park whose marker is at [key]. *)
Definition resolves (store : list Obj) (key : string) (match_ : Obj) : bool :=
  match findPark store match_ with
  | Some fullPark => bool_decide (nameKey fullPark = Some key)
  | None => false
  end.

(** The marker of the record at [r]. *)
Definition markerOf (store : list Obj) (parkMarkers : MarkerTable) (r : nat) : option Marker :=
  match nameKey (park store r) with
  | Some key => parkMarkers !! key
  | None => None
  end.

End Markers.

(** ** The address of a static file *)

Module StaticUrl.
Import JS.

(** *** Texts of any code units

    The texts of a JSON document are held in code units below 256.  The path
    of a static file may be any text: here a text is the list of its UTF-16
    code units. *)

Abbreviation Text := (list N).

Definition units (s : string) : Text := map unit_code (list_ascii_of_string s).

(** A value handed to the helpers: a text, or a value of a JSON document. *)
Inductive Value :=
  | Wide (t : Text)
  | Json (v : JsVal).

Definition truthy (a : Value) : bool :=
  match a with
  | Wide [] => false
  | Wide (_ :: _) => true
  | Json v => ToBoolean v
  end.

(** [String(a)]. *)
Definition toText (a : Value) : Text :=
  match a with
  | Wide t => t
  | Json v => units (ToString v)
  end.

(** *** encodeURIComponent

    A letter, a digit and the marks [- _ . ! ~ * ' ( )] stand for themselves.
    Any other character is written as the bytes of its UTF-8 form, each as
    [%] and two hexadecimal digits in upper case; a character beyond the
    first 65536 is held in two code units, a leading and a trailing
    surrogate.  A surrogate that is not of such a pair raises a URIError:
    [None]. *)

Definition isUnreserved (c : N) : bool :=
  ((65 <=? c) && (c <=? 90) || (97 <=? c) && (c <=? 122) || (48 <=? c) && (c <=? 57)
   || (c =? 45) || (c =? 95) || (c =? 46) || (c =? 33) || (c =? 126) || (c =? 42)
   || (c =? 39) || (c =? 40) || (c =? 41))%N.

Definition isLeadSurrogate (c : N) : bool := ((55296 <=? c) && (c <=? 56319))%N.

Definition isTrailSurrogate (c : N) : bool := ((56320 <=? c) && (c <=? 57343))%N.

Definition hexDigit (n : N) : N :=
  if (n <? 10)%N then (48 + n)%N else (55 + n)%N.

(** [%] and the two hexadecimal digits of a byte. *)
Definition percent (byte : N) : Text :=
  [37; hexDigit ((byte / 16) mod 16); hexDigit (byte mod 16)]%N.

Definition utf8 (codePoint : N) : list N :=
  if (codePoint <? 128)%N then [codePoint]
  else if (codePoint <? 2048)%N then
    [192 + codePoint / 64; 128 + codePoint mod 64]%N
  else if (codePoint <? 65536)%N then
    [224 + codePoint / 4096; 128 + (codePoint / 64) mod 64; 128 + codePoint mod 64]%N
  else
    [240 + codePoint / 262144; 128 + (codePoint / 4096) mod 64;
     128 + (codePoint / 64) mod 64; 128 + codePoint mod 64]%N.

Definition escape (codePoint : N) : Text := concat (map percent (utf8 codePoint)).

Fixpoint encodeURIComponent (t : Text) : option Text :=
  match t with
  | [] => Some []
  | c :: rest =>
      if isUnreserved c then cons c <$> encodeURIComponent rest
      else if isTrailSurrogate c then None
      else if isLeadSurrogate c then
        match rest with
        | d :: rest' =>
            if isTrailSurrogate d
            then app (escape (65536 + (c - 55296) * 1024 + (d - 56320))%N)
                   <$> encodeURIComponent rest'
            else None
        | [] => None
        end
      else app (escape c) <$> encodeURIComponent rest
  end.

(** *** The methods of a text that buildStaticUrl calls *)

(** [t.replace(/^\/+/, '')]. *)
Fixpoint stripLeadingSlashes (t : Text) : Text :=
  match t with
  | c :: t' => if (c =? 47)%N then stripLeadingSlashes t' else t
  | [] => []
  end.

Fixpoint startsWith (pattern t : Text) : bool :=
  match pattern, t with
  | [], _ => true
  | a :: pattern', b :: t' => (a =? b)%N && startsWith pattern' t'
  | _ :: _, [] => false
  end.

(** [t.includes(pattern)]. *)
Fixpoint includesText (t pattern : Text) : bool :=
  startsWith pattern t
  || match t with
     | [] => false
     | _ :: t' => includesText t' pattern
     end.

(** [t.replace(pattern, by)] for a pattern that is a text: the first place
    where it occurs, if any, is rewritten. *)
Fixpoint replaceText (pattern by_ t : Text) : Text :=
  if startsWith pattern t then by_ ++ drop (length pattern) t
  else match t with
       | [] => []
       | c :: t' => c :: replaceText pattern by_ t'
       end.

(** [t.split(sep)] for a separator of one code unit. *)
Fixpoint splitText (sep : N) (t : Text) : list Text :=
  match t with
  | [] => [[]]
  | c :: t' =>
      if (c =? sep)%N then [] :: splitText sep t'
      else match splitText sep t' with
           | segment :: segments => (c :: segment) :: segments
           | [] => [[c]]
           end
  end.

(** [segments.join(sep)]. *)
Fixpoint joinText (sep : N) (segments : list Text) : Text :=
  match segments with
  | [] => []
  | [segment] => segment
  | segment :: segments' => segment ++ sep :: joinText sep segments'
  end.

(** *** popup.js: getStaticBase and buildStaticUrl *)

(** [STATIC_BASE] is [undefined] on a page that does not declare it. *)
Definition getStaticBase (STATIC_BASE : Value) : Value :=
  if truthy STATIC_BASE then STATIC_BASE else Json (JStr "/static/").

(** [String(relativePath || '')]. *)
Definition pathText (relativePath : Value) : Text :=
  toText (if truthy relativePath then relativePath else Json (JStr EmptyString)).

(** The relative path without its leading slashes, the folder of St
    Margaret's Park under the name it has on disk. *)
Definition cleanPath (relativePath : Value) : Text :=
  let clean := stripLeadingSlashes (pathText relativePath) in
  if includesText clean (units "St Margaret's Park")
  then replaceText (units "St Margaret's Park") (units "St Margarets Park") clean
  else if includesText clean (units "St Magaret's Park")
  then replaceText (units "St Magaret's Park") (units "St Margarets Park") clean
  else clean.

(** The path behind the base: every segment encoded. *)
Definition encodedPath (relativePath : Value) : option Text :=
  joinText 47 <$> mapM encodeURIComponent (splitText 47 (cleanPath relativePath)).

(** [base + encoded]. *)
Definition buildStaticUrl (STATIC_BASE relativePath : Value) : option Text :=
  app (toText (getStaticBase STATIC_BASE)) <$> encodedPath relativePath.

(** *** Vocabulary of the properties *)

(** No surrogate outside a pair: [t.isWellFormed()]. *)
Fixpoint isWellFormed (t : Text) : bool :=
  match t with
  | [] => true
  | c :: rest =>
      if isTrailSurrogate c then false
      else if isLeadSurrogate c then
        match rest with
        | d :: rest' => isTrailSurrogate d && isWellFormed rest'
        | [] => false
        end
      else isWellFormed rest
  end.

(** A character that ends neither an attribute of the popup's HTML nor a
    segment of the path. *)
Definition urlSafe (c : N) : bool :=
  isUnreserved c || (c =? 37)%N || (c =? 47)%N.

Definition startsWithSlash (t : Text) : bool :=
  match t with
  | c :: _ => (c =? 47)%N
  | [] => false
  end.

(** A code unit that is no surrogate. *)
Definition plain (c : N) : bool := negb (isLeadSurrogate c) && negb (isTrailSurrogate c).

(** What an encoded segment is made of. *)
Definition escaped (c : N) : bool := isUnreserved c || (c =? 37)%N.

End StaticUrl.

(** ** A small catalog *)

Module Demo.
Import JS InteractionMap.

Definition parkRecord (site_id : Z) (name : string) (lat lon : Q) (quality : JsVal)
    (facilities : list string) : Obj :=
  <["site_id" := JNum (num_of_Z site_id)]>
    (<["name" := JStr name]>
       (<["lat" := JNum (Fin lat)]>
          (<["lon" := JNum (Fin lon)]>
             (<["quality" := quality]>
                (<["facilities" := JArr (map JStr facilities)]> ∅))))).

(** Five parks: A and B tied on quality 5, D without a quality. *)
Definition catalog : list Obj :=
  [ parkRecord 1 "A" (111889 # 2000) (-7973 # 2500) (JNum (Fin 5)) ["Toilets"; " Parking "];
    parkRecord 2 "B" (5596 # 100) (-32 # 10) (JNum (Fin 5)) ["Cafe"];
    parkRecord 3 "C" (5595 # 100) (-318 # 100) (JNum (Fin 3)) ["toilets"; "Cafe"];
    parkRecord 4 "D" (559 # 10) (-33 # 10) JNull [];
    parkRecord 5 "E" (5599 # 100) (-325 # 100) (JNum (Fin 7)) ["Playground"] ].

Definition rankingPage (type number : string) : Page :=
  {| parks := catalog; rank_type := type; rank_number := number;
     postcode_input := EmptyString; distance_input := EmptyString;
     facility_checked := []; nearestMode := false;
     userMarker := None; searchCircle := None;
     currentExportData := ExportParks (seq 0 (length catalog)) |}.

Definition searchPage (distance : string) (checked : list string) (nearest : bool) : Page :=
  {| parks := catalog; rank_type := EmptyString; rank_number := EmptyString;
     postcode_input := "EH8 9YL"; distance_input := distance;
     facility_checked := checked; nearestMode := nearest;
     userMarker := None; searchCircle := None;
     currentExportData := ExportParks (seq 0 (length catalog)) |}.

(** The geocoder answers one hit for every postcode. *)
Definition geocoder (postcode : string) : option (list Obj) :=
  Some [<["lat" := JStr "55.9445"]> (<["lon" := JStr "-3.1892"]> ∅)].

Definition origin : number * number := (Fin (111889 # 2000), Fin (-7973 # 2500)).

(** The distances of the parks from that origin, in kilometers; A lies at
    the origin itself. *)
Definition distanceOf (origin : Q * Q) (p : Obj) : Q :=
  match get p "name" with
  | JStr "A" => 0
  | JStr "C" => 6 # 5
  | JStr "B" => 5 # 2
  | JStr "E" => 7
  | _ => 9
  end.

(** The two services: the geocoder, and the search endpoint over the
    catalog. *)
Definition endpoint : Network :=
  ProximitySearch.network geocoder distanceOf catalog.

(** The match the endpoint answers for the park at [r]. *)
Definition matchOf (r : nat) : Obj :=
  ProximitySearch.proximityResult (distanceOf (111889 # 2000, -7973 # 2500))
    (park catalog r).

(** The markers main.js makes for the catalog. *)
Definition markers : Markers.MarkerTable :=
  default ∅ (Markers.initMarkers catalog ∅).

(** The gallery of a new popup with three images, for the park 7. *)
Definition galleryState : Gallery.GalleryState :=
  {| Gallery.currentImageIndex := ∅;
     Gallery.galleries := <["7" := Gallery.newGallery 3]> ∅ |}.

(** A name with quotes in it. *)
Definition nickname : string :=
  ("The " ++ String CsvExport.quote ("Meadows" ++ String CsvExport.quote EmptyString))%string.

End Demo.

(** * Properties *)

Import JS InteractionMap.

(** ** Numbers and values *)

Lemma Qcompare_inject_Z (a b : Z) : (inject_Z a ?= inject_Z b)%Q = (a ?= b)%Z.
Proof. unfold Qcompare; simpl. by rewrite !Z.mul_1_r. Qed.

Lemma Qcompare_cases (p q : Q) :
  ((p ?= q)%Q = Lt /\ (p < q)%Q) \/ ((p ?= q)%Q = Eq /\ (p == q)%Q) \/ ((p ?= q)%Q = Gt /\ (q < p)%Q).
Proof.
  destruct (p ?= q)%Q eqn:E.
  - right; left. split; [done|]. by apply (proj2 (Qeq_alt _ _)).
  - left. split; [done|]. by apply (proj2 (Qlt_alt _ _)).
  - right; right. split; [done|]. by apply (proj2 (Qgt_alt _ _)).
Qed.

Lemma Qcompare_sub (p q : Q) : (p - q ?= 0)%Q = (p ?= q)%Q.
Proof.
  destruct (Qcompare_cases p q) as [[-> H]|[[-> H]|[-> H]]].
  - apply (proj1 (Qlt_alt _ _)). lra.
  - apply (proj1 (Qeq_alt _ _)). lra.
  - apply (proj1 (Qgt_alt _ _)). lra.
Qed.

Lemma num_leb_refl (x : number) : isNaN x = false -> num_leb x x = true.
Proof.
  destruct x as [|[]|q]; try done. intros _. unfold num_leb; simpl.
  destruct (Qcompare_cases q q) as [[-> H]|[[-> H]|[-> H]]]; try done; lra.
Qed.

Lemma num_leb_total (x y : number) :
  isNaN x = false -> isNaN y = false -> num_leb x y = true \/ num_leb y x = true.
Proof.
  destruct x as [|[]|p], y as [|[]|q]; try done; intros _ _; unfold num_leb; simpl; auto.
  destruct (Qcompare_cases p q) as [[-> H]|[[-> H]|[-> H]]]; auto.
  right. destruct (Qcompare_cases q p) as [[-> H']|[[-> H']|[-> H']]]; try done; lra.
Qed.

Lemma num_leb_trans (x y z : number) :
  num_leb x y = true -> num_leb y z = true -> num_leb x z = true.
Proof.
  destruct x as [|[]|p], y as [|[]|q], z as [|[]|r]; try done; unfold num_leb; simpl.
  destruct (Qcompare_cases p q) as [[-> H]|[[-> H]|[-> H]]]; try done;
  destruct (Qcompare_cases q r) as [[-> H']|[[-> H']|[-> H']]]; try done;
  destruct (Qcompare_cases p r) as [[-> H'']|[[-> H'']|[-> H'']]]; try done; lra.
Qed.

(** The sign of a difference is the order of its operands. *)
Lemma num_sub_positive (a b : number) :
  isNaN a = false -> isNaN b = false ->
  match num_compare (let v := num_sub a b in if isNaN v then Fin 0 else v) (Fin 0) with
  | Some Gt => true
  | _ => false
  end = negb (num_leb a b).
Proof.
  destruct a as [|[]|p], b as [|[]|q]; try done; intros _ _; unfold num_leb; simpl.
  rewrite Qcompare_sub. by destruct (p ?= q)%Q.
Qed.

Lemma num_compare_antisym (a b : number) : num_compare b a = CompOpp <$> num_compare a b.
Proof.
  destruct a as [|[]|p], b as [|[]|q]; try done. simpl.
  by rewrite <- Qcompare_antisym.
Qed.

Lemma js_ge_numbers (x y : number) : js_ge (JNum x) (JNum y) = num_leb y x.
Proof.
  unfold js_ge, IsLessThan, num_leb. cbn [ToPrimitive ToNumber].
  rewrite (num_compare_antisym x y). by destruct (num_compare x y) as [[]|].
Qed.

Lemma js_le_numbers (x y : number) : js_le (JNum x) (JNum y) = num_leb x y.
Proof.
  unfold js_le, IsLessThan, num_leb. cbn [ToPrimitive ToNumber].
  rewrite (num_compare_antisym x y). by destruct (num_compare x y) as [[]|].
Qed.

Lemma js_lt_numbers (x y : number) : js_lt (JNum x) (JNum y) = num_ltb x y.
Proof.
  unfold js_lt, IsLessThan, num_ltb. cbn [ToPrimitive ToNumber].
  by destruct (num_compare x y) as [[]|].
Qed.

Lemma num_leb_nat (n m : nat) : num_leb (num_of_nat n) (num_of_nat m) = (n <=? m)%nat.
Proof.
  unfold num_leb, num_of_nat, num_of_Z. cbn [num_compare]. rewrite Qcompare_inject_Z.
  destruct (Z.compare_spec (Z.of_nat n) (Z.of_nat m)), (Nat.leb_spec n m); try done; lia.
Qed.

Lemma num_ltb_nat (n m : nat) : num_ltb (num_of_nat n) (num_of_nat m) = (n <? m)%nat.
Proof.
  unfold num_ltb, num_of_nat, num_of_Z. cbn [num_compare]. rewrite Qcompare_inject_Z.
  destruct (Z.compare_spec (Z.of_nat n) (Z.of_nat m)), (Nat.ltb_spec n m); try done; lia.
Qed.

Lemma array_index_pred (n : nat) :
  1 <= n -> array_index (num_sub (num_of_nat n) (Fin 1)) = Some (n - 1).
Proof.
  intros Hn. unfold array_index, num_of_nat, num_of_Z, num_sub.
  assert (Qnum (inject_Z (Z.of_nat n) - 1) = Z.of_nat n - 1)%Z as Hnum by (simpl; lia).
  assert (Qden (inject_Z (Z.of_nat n) - 1) = 1%positive) as Hden by done.
  rewrite Hnum, Hden, Z.div_1_r.
  assert (Qeq_bool (inject_Z (Z.of_nat n) - 1) (inject_Z (Z.of_nat n - 1)) = true) as ->.
  { apply Qeq_bool_iff. unfold Qeq; simpl. lia. }
  assert ((0 <=? Z.of_nat n - 1)%Z = true) as -> by lia.
  simpl. f_equal. lia.
Qed.

Lemma parseInt_empty : parseInt EmptyString = NaN.
Proof. reflexivity. Qed.

Lemma ToBoolean_string (s : string) : ToBoolean (JStr s) = true <-> s <> EmptyString.
Proof.
  cbn [ToBoolean]. rewrite negb_true_iff. apply String.eqb_neq.
Qed.

(** ** Array.prototype.sort: a stable sort of a consistent order *)

Section SortFacts.
Context {A : Type} (cmp : A -> A -> number).

Lemma sort_insert_perm (x : A) (l : list A) : sort_insert cmp x l ≡ₚ x :: l.
Proof.
  induction l as [|y l IH]; simpl; [done|].
  destruct (sorts_after cmp x y); [|done].
  rewrite IH. apply Permutation_swap.
Qed.

Lemma sort_perm (l : list A) : sort cmp l ≡ₚ l.
Proof.
  induction l as [|x l IH]; simpl; [done|].
  rewrite sort_insert_perm. by rewrite IH.
Qed.

Context (P : A -> Prop) (le : A -> A -> Prop).
Hypothesis after_le : forall a b, P a -> P b -> (sorts_after cmp a b = false <-> le a b).
Hypothesis le_total : forall a b, P a -> P b -> le a b \/ le b a.
Hypothesis le_trans : forall a b c, P a -> P b -> P c -> le a b -> le b c -> le a c.

Lemma sort_insert_sorted (x : A) (l : list A) :
  P x -> Forall P l -> StronglySorted le l -> StronglySorted le (sort_insert cmp x l).
Proof.
  intros Px. induction l as [|y l IH]; intros HP Hs; simpl.
  - constructor; constructor.
  - apply Forall_cons in HP as [Py HP].
    apply StronglySorted_inv in Hs as [Hs Hy].
    destruct (sorts_after cmp x y) eqn:E.
    + constructor; [by apply IH|].
      rewrite sort_insert_perm. constructor; [|done].
      destruct (le_total x y Px Py) as [Hxy|]; [|done].
      apply after_le in Hxy; [congruence|done..].
    + assert (le x y) as Hxy by by apply after_le.
      constructor; [by constructor|].
      constructor; [done|].
      rewrite Forall_forall in Hy, HP |- *. intros z Hz.
      apply (le_trans x y z); auto.
Qed.

Lemma sort_sorted (l : list A) : Forall P l -> StronglySorted le (sort cmp l).
Proof.
  induction l as [|x l IH]; intros HP; simpl; [constructor|].
  apply Forall_cons in HP as [Px HP].
  apply sort_insert_sorted; [done| |by apply IH].
  by rewrite sort_perm.
Qed.
End SortFacts.

Lemma StronglySorted_filter {A} (R : A -> A -> Prop) (f : A -> bool) (l : list A) :
  StronglySorted R l -> StronglySorted R (List.filter f l).
Proof.
  induction 1 as [|x l Hs IH Hx]; simpl; [constructor|].
  destruct (f x); [|done]. constructor; [done|].
  rewrite Forall_forall in Hx |- *. intros y Hy.
  apply Hx. apply list_elem_of_In in Hy. apply filter_In in Hy as [Hy _].
  by apply list_elem_of_In.
Qed.

(** ** Ranking: the valid records, their order and the cut *)


Section RankingFacts.
Context (store : list Obj) (dataKey : string).

Lemma field_lookup (r : nat) (o : Obj) (k : string) :
  store !! r = Some o -> field store r k = get o k.
Proof. unfold field, park. by intros ->. Qed.

Lemma validParks_spec (r : nat) :
  r ∈ validParks store dataKey <-> r < length store /\ hasScore store dataKey r = true.
Proof.
  unfold validParks. rewrite list_elem_of_In, filter_In, in_seq. intuition lia.
Qed.

Lemma validParks_NoDup : NoDup (validParks store dataKey).
Proof.
  unfold validParks. apply NoDup_ListNoDup, List.NoDup_filter, seq_NoDup.
Qed.

Lemma hasScore_numeric (r : nat) :
  hasScore store dataKey r = true -> numeric (field store r dataKey).
Proof.
  unfold hasScore, numeric. intros [H1 H2]%andb_prop.
  apply negb_true_iff in H1, H2. split; [|done].
  intros E. rewrite E in H1. done.
Qed.

Lemma sortedValid_perm (order : JsVal) :
  sortedValid store order dataKey ≡ₚ validParks store dataKey.
Proof. apply sort_perm. Qed.

Lemma topResultsOf_subset (order : JsVal) (num : number) (valid top : list nat) (r : nat) :
  topResultsOf store order dataKey num valid = Some top -> r ∈ top -> r ∈ valid.
Proof.
  unfold topResultsOf. destruct (js_le _ _); [by intros [= ->]|].
  destruct (array_index _); [|done]. destruct (valid !! _); [|done].
  intros [= <-]. rewrite !list_elem_of_In, filter_In. tauto.
Qed.

Lemma topResultsOf_NoDup (order : JsVal) (num : number) (valid top : list nat) :
  topResultsOf store order dataKey num valid = Some top -> NoDup valid -> NoDup top.
Proof.
  unfold topResultsOf. destruct (js_le _ _); [by intros [= ->]|].
  destruct (array_index _); [|done]. destruct (valid !! _); [|done].
  intros [= <-] H. apply NoDup_ListNoDup, List.NoDup_filter. by apply NoDup_ListNoDup.
Qed.
End RankingFacts.

(** What [applyRanking] ranks: the checks it passed and the cut it took. *)
Lemma applyRanking_ranked (pg : Page) (r : nat) :
  r ∈ ranked (snd (applyRanking pg)) ->
  exists top,
    snd (applyRanking pg) = ShowTieModal top /\ r ∈ top
    /\ topResultsOf (parks pg) (rankOrder (rank_type pg)) (rankDataKey (rank_type pg))
         (parseInt (rank_number pg))
         (sortedValid (parks pg) (rankOrder (rank_type pg)) (rankDataKey (rank_type pg)))
       = Some top.
Proof.
  unfold applyRanking.
  destruct (negb (ToBoolean (JStr (rank_type pg)))); [by intros ?%elem_of_nil|].
  destruct (_ || _); [by intros ?%elem_of_nil|].
  cbn [parks clearSearchArtifacts with_searchCircle with_userMarker].
  destruct (topResultsOf _ _ _ _ _) as [top|]; [|by intros ?%elem_of_nil].
  destruct (length top =? 0)%nat; [by intros ?%elem_of_nil|].
  cbn [snd ranked]. eauto.
Qed.

Lemma topResultsOf_limit (store : list Obj) (order : JsVal) (dataKey : string)
    (limit : nat) (valid : list nat) :
  1 <= limit ->
  topResultsOf store order dataKey (num_of_nat limit) valid =
  if (length valid <=? limit)%nat then Some valid
  else
    c ← valid !! (limit - 1);
    Some (List.filter
            (fun p => if highest order then js_ge (field store p dataKey) (field store c dataKey)
                      else js_le (field store p dataKey) (field store c dataKey))
            valid).
Proof.
  intros Hlimit. unfold topResultsOf. rewrite js_le_numbers, num_leb_nat.
  destruct (length valid <=? limit)%nat; [done|].
  rewrite array_index_pred by done. by destruct (valid !! (limit - 1)).
Qed.

Section Accepted.
Context (pg : Page) (limit : nat).
Hypothesis type_chosen : rank_type pg <> EmptyString.
Hypothesis limit_parsed : parseInt (rank_number pg) = num_of_nat limit.
Hypothesis limit_positive : 1 <= limit.

(** A chosen type and an integer limit of at least 1 pass the checks; what is
    ranked is the cut of the sorted records. *)
Lemma applyRanking_accepted :
  ranked (snd (applyRanking pg))
  = default []
      (topResultsOf (parks pg) (rankOrder (rank_type pg)) (rankDataKey (rank_type pg))
         (num_of_nat limit)
         (sortedValid (parks pg) (rankOrder (rank_type pg)) (rankDataKey (rank_type pg)))).
Proof.
  unfold applyRanking.
  apply ToBoolean_string in type_chosen as ->.
  assert (ToBoolean (JStr (rank_number pg)) = true) as ->.
  { apply ToBoolean_string. intros E. rewrite E, parseInt_empty in limit_parsed. done. }
  rewrite limit_parsed, js_lt_numbers.
  change (Fin 1) with (num_of_nat 1). rewrite num_ltb_nat.
  assert ((limit <? 1)%nat = false) as -> by (apply Nat.ltb_ge; lia).
  cbn [negb orb isNaN num_of_nat num_of_Z parks clearSearchArtifacts
       with_searchCircle with_userMarker].
  fold (num_of_Z (Z.of_nat limit)). fold (num_of_nat limit).
  destruct (topResultsOf _ _ _ _ _) as [top|]; [|done].
  destruct top; done.
Qed.
End Accepted.

Section Scores.
Context (store : list Obj) (order : JsVal) (dataKey : string).

Lemma hasScore_not_NaN (r : nat) :
  hasScore store dataKey r = true -> isNaN (score store dataKey r) = false.
Proof. intros H. by apply hasScore_numeric in H as [_ H]. Qed.

Lemma sorts_after_byScore (a b : nat) :
  isNaN (score store dataKey a) = false -> isNaN (score store dataKey b) = false ->
  sorts_after (byScore store order dataKey) a b
  = negb (betterOrEqual order (score store dataKey a) (score store dataKey b)).
Proof.
  intros Ha Hb. unfold sorts_after, SortCompare, byScore, betterOrEqual, js_sub.
  fold (score store dataKey a) (score store dataKey b).
  destruct (highest order); by rewrite num_sub_positive.
Qed.

Lemma betterOrEqual_total (x y : number) :
  isNaN x = false -> isNaN y = false ->
  betterOrEqual order x y = true \/ betterOrEqual order y x = true.
Proof.
  intros Hx Hy. unfold betterOrEqual.
  destruct (highest order), (num_leb_total x y Hx Hy); auto.
Qed.

Lemma betterOrEqual_trans (x y z : number) :
  betterOrEqual order x y = true -> betterOrEqual order y z = true ->
  betterOrEqual order x z = true.
Proof.
  unfold betterOrEqual. destruct (highest order); eauto using num_leb_trans.
Qed.

Lemma betterOrEqual_refl (x : number) : isNaN x = false -> betterOrEqual order x x = true.
Proof. intros H. unfold betterOrEqual. destruct (highest order); by apply num_leb_refl. Qed.

Lemma sortedValid_sorted :
  StronglySorted
    (fun a b => betterOrEqual order (score store dataKey a) (score store dataKey b) = true)
    (sortedValid store order dataKey).
Proof.
  apply (sort_sorted _ (fun r => isNaN (score store dataKey r) = false)).
  - intros a b Ha Hb. rewrite sorts_after_byScore by done. apply negb_false_iff.
  - intros a b Ha Hb. by apply betterOrEqual_total.
  - intros a b c _ _ _. apply betterOrEqual_trans.
  - apply Forall_forall. intros r [_ Hr]%validParks_spec. by apply hasScore_not_NaN.
Qed.

(** On a catalog of numbers the cut compares scores. *)
Lemma cut_compares_scores (p c : nat) :
  numericCatalog store dataKey ->
  p ∈ validParks store dataKey -> c ∈ validParks store dataKey ->
  (if highest order then js_ge (field store p dataKey) (field store c dataKey)
   else js_le (field store p dataKey) (field store c dataKey))
  = betterOrEqual order (score store dataKey p) (score store dataKey c).
Proof.
  intros Hcat Hp Hc.
  assert (forall r, r ∈ validParks store dataKey ->
            exists x, field store r dataKey = JNum x) as Hnum.
  { intros r [Hr Hs]%validParks_spec.
    apply lookup_lt_is_Some in Hr as [o Ho].
    pose proof (Hcat o (list_elem_of_lookup_2 _ _ _ Ho)) as Hv.
    apply hasScore_numeric in Hs as [Hnull Hnan].
    rewrite (field_lookup _ _ _ _ Ho) in *.
    destruct (get o dataKey); try done; eauto. }
  destruct (Hnum p Hp) as [x Hx], (Hnum c Hc) as [y Hy].
  unfold betterOrEqual, score. rewrite Hx, Hy, js_ge_numbers, js_le_numbers. done.
Qed.
End Scores.


(** ** Ranking: the display ranks *)

Section SetField.
Context (store : list Obj) (r : nat) (k : string) (v : JsVal).

Lemma length_set_field : length (set_field store r k v) = length store.
Proof. apply length_insert. Qed.

Lemma set_field_lookup_ne (r' : nat) : r <> r' -> set_field store r k v !! r' = store !! r'.
Proof. intros. by apply list_lookup_insert_ne. Qed.

Lemma set_field_lookup_eq (o : Obj) :
  store !! r = Some o -> set_field store r k v !! r = Some (<[k := v]> o).
Proof.
  intros Ho. unfold set_field, park. rewrite Ho. apply list_lookup_insert_eq.
  by eapply lookup_lt_Some.
Qed.

Lemma field_set_field_eq : r < length store -> field (set_field store r k v) r k = v.
Proof.
  intros [o Ho]%lookup_lt_is_Some. unfold field at 1, park at 1.
  rewrite (set_field_lookup_eq o Ho). unfold get. simpl. by rewrite lookup_insert_eq.
Qed.

(** A write leaves every other property of every record as it was. *)
Lemma set_field_preserves (r' : nat) (o : Obj) :
  store !! r' = Some o ->
  exists o', set_field store r k v !! r' = Some o'
             /\ (forall k', k <> k' -> o' !! k' = o !! k')
             /\ (r <> r' -> o' = o).
Proof.
  intros Ho. destruct (decide (r = r')) as [<-|Hne].
  - exists (<[k := v]> o). split; [by apply set_field_lookup_eq|].
    split; [|done]. intros k' Hk. by apply lookup_insert_ne.
  - exists o. by rewrite set_field_lookup_ne.
Qed.

Lemma field_set_field_ne (r' : nat) (k' : string) :
  k <> k' -> field (set_field store r k v) r' k' = field store r' k'.
Proof.
  intros Hk. unfold field, park.
  destruct (store !! r') as [o|] eqn:Ho.
  - destruct (set_field_preserves r' o Ho) as (o' & -> & Hsame & _).
    unfold get. simpl. by rewrite Hsame.
  - assert (set_field store r k v !! r' = None) as ->; [|done].
    apply lookup_ge_None. rewrite length_set_field. by apply lookup_ge_None.
Qed.
End SetField.

(** The rank at a position is at most the position, and the next one either
    repeats it or is its own position. *)
Lemma denseRanks_step (vals : list JsVal) (index cr : nat) (prev : JsVal)
    (i a b : nat) (va vb : JsVal) :
  cr <= Nat.max 1 index ->
  denseRanks index cr prev vals !! i = Some a ->
  denseRanks index cr prev vals !! S i = Some b ->
  vals !! i = Some va -> vals !! S i = Some vb ->
  a <= index + i + 1
  /\ b = if strict_equal vb va then a else index + i + 2.
Proof.
  revert index cr prev i. induction vals as [|v vals IH]; intros index cr prev i Hcr;
    [done|].
  cbn [denseRanks].
  set (cr' := if (0 <? index) && negb (strict_equal v prev) then index + 1 else cr).
  assert (cr' <= index + 1) as Hcr'.
  { unfold cr'. destruct (_ && _); lia. }
  destruct i as [|i].
  - intros [= <-] Hb [= ->] Hvb.
    destruct vals as [|v' vals]; [done|]. simplify_eq/=.
    split; [lia|]. destruct (strict_equal vb va); simpl; lia.
  - intros Ha Hb Hva Hvb. cbn [lookup list_lookup] in Ha, Hb, Hva, Hvb.
    destruct (IH (S index) cr' v i ltac:(lia) Ha Hb Hva Hvb) as [H1 H2].
    split; [lia|]. rewrite H2. destruct (strict_equal vb va); lia.
Qed.

(** The loop writes [displayRank] on the records it visits and nothing
    else. *)
Lemma assignDisplayRank_frame (dataKey : string) (top todo : list nat) (index cr : nat)
    (store : list Obj) :
  let final := assignDisplayRank dataKey top todo index cr store in
  length final = length store
  /\ (forall r o, store !! r = Some o ->
        exists o', final !! r = Some o'
                   /\ (forall k, k <> "displayRank" -> o' !! k = o !! k)
                   /\ (r ∉ todo -> o' = o)
                   /\ (r ∈ todo ->
                       exists n, o' !! "displayRank" = Some (JNum (num_of_nat n)))).
Proof.
  revert index cr store. induction todo as [|p todo IH]; intros index cr store.
  { simpl. split; [done|]. intros r o Ho. exists o. repeat split; [done..|].
    by intros ?%elem_of_nil. }
  cbn [assignDisplayRank].
  set (cr' := if (0 <? index) && negb (strict_equal _ _) then index + 1 else cr).
  set (store1 := set_field store p "displayRank" (JNum (num_of_nat cr'))).
  destruct (IH (S index) cr' store1) as (Hlen & Hpres).
  split; [rewrite Hlen; apply length_set_field|].
  intros r o Ho.
  destruct (set_field_preserves store p "displayRank" (JNum (num_of_nat cr')) r o Ho)
    as (o1 & Ho1 & Hk1 & Hne1).
  destruct (Hpres r o1 Ho1) as (o' & Ho' & Hk' & Hne' & Hin').
  exists o'. split; [done|]. split; [|split].
  - intros k Hk. rewrite Hk' by done. apply Hk1. congruence.
  - intros [Hrp Hr]%not_elem_of_cons. rewrite Hne' by done. apply Hne1. congruence.
  - intros Hr. destruct (decide (r ∈ todo)) as [Hrt|Hrt]; [by apply Hin'|].
    apply elem_of_cons in Hr as [->|Hr]; [|done].
    rewrite (Hne' Hrt). exists cr'.
    unfold store1 in Ho1. rewrite (set_field_lookup_eq _ _ _ _ _ Ho) in Ho1.
    injection Ho1 as <-. apply lookup_insert_eq.
Qed.

Section AssignDisplayRank.
Context (dataKey : string) (top : list nat).
Hypothesis not_displayRank : dataKey <> "displayRank".
Hypothesis top_NoDup : NoDup top.

(** On the records of [topResults] the loop leaves the ranks [denseRanks]
    computes from their values. *)
Lemma assignDisplayRank_ranks (todo seen : list nat) (index cr : nat) (store : list Obj) :
  top = seen ++ todo -> index = length seen ->
  (forall r, r ∈ top -> r < length store) ->
  let final := assignDisplayRank dataKey top todo index cr store in
  let prev := field store (default 0 (top !! (index - 1))) dataKey in
  forall j r, todo !! j = Some r ->
    exists n,
      denseRanks index cr prev (map (fun r => field store r dataKey) todo) !! j = Some n
      /\ field final r "displayRank" = JNum (num_of_nat n).
Proof.
  revert seen index cr store.
  induction todo as [|p todo IH]; intros seen index cr store Htop Hindex Hbound;
    [done|].
  cbn [assignDisplayRank].
  set (prev := field store (default 0 (top !! (index - 1))) dataKey).
  set (cr' := if (0 <? index) && negb (strict_equal (field store p dataKey) prev)
              then index + 1 else cr).
  set (store1 := set_field store p "displayRank" (JNum (num_of_nat cr'))).
  assert (top !! index = Some p) as Hp.
  { rewrite Htop, Hindex, lookup_app_r by done. by rewrite Nat.sub_diag. }
  assert (p < length store) as Hpb by (apply Hbound; by eapply list_elem_of_lookup_2).
  assert (p ∉ todo) as Hfresh.
  { rewrite Htop in top_NoDup. apply NoDup_app in top_NoDup as (_ & _ & Hnd).
    by apply NoDup_cons in Hnd as [? _]. }
  assert (forall r, field store1 r dataKey = field store r dataKey) as Hsame.
  { intros r. apply field_set_field_ne. congruence. }
  intros j r Hj. cbn [map denseRanks]. fold prev cr'. destruct j as [|j].
  - injection Hj as ->. exists cr'. split; [done|].
    destruct (lookup_lt_is_Some_2 store1 r) as [o1 Ho1].
    { unfold store1. by rewrite length_set_field. }
    destruct (assignDisplayRank_frame dataKey top todo (S index) cr' store1)
      as (_ & Hpres).
    destruct (Hpres r o1 Ho1) as (o' & Ho' & _ & Hne' & _).
    rewrite (Hne' Hfresh) in Ho'.
    unfold field, park. rewrite Ho', <- Ho1.
    by apply field_set_field_eq.
  - cbn [lookup list_lookup] in Hj.
    destruct (IH (seen ++ [p]) (S index) cr' store1) with (j := j) (r := r)
      as (n & Hn & Hf); [| | |done|].
    { by rewrite <- app_assoc. }
    { rewrite length_app. simpl. lia. }
    { intros r' Hr'. unfold store1. rewrite length_set_field. by apply Hbound. }
    exists n. split; [|done].
    cbn [lookup list_lookup].
    rewrite <- Hn. replace (S index - 1) with index by lia.
    rewrite Hp. simpl. rewrite Hsame. do 2 f_equal.
    apply map_ext. intros. by rewrite Hsame.
Qed.
End AssignDisplayRank.

(** The run of [applyRanking] that ends in the tie modal. *)
Lemma applyRanking_inv (pg pg' : Page) (top : list nat) :
  let order := rankOrder (rank_type pg) in
  let dataKey := rankDataKey (rank_type pg) in
  applyRanking pg = (pg', ShowTieModal top) ->
  topResultsOf (parks pg) order dataKey (parseInt (rank_number pg))
    (sortedValid (parks pg) order dataKey) = Some top
  /\ top <> []
  /\ parks pg' = assignDisplayRank dataKey top top 0 1 (parks pg).
Proof.
  intros order dataKey. unfold applyRanking.
  destruct (negb (ToBoolean (JStr (rank_type pg)))); [done|].
  destruct (_ || _); [done|].
  cbn [parks clearSearchArtifacts with_searchCircle with_userMarker with_currentExportData].
  fold order dataKey.
  destruct (topResultsOf _ _ _ _ _) as [top'|]; [|done].
  destruct (length top' =? 0)%nat eqn:E; [done|].
  intros [= <- <-]. split; [done|]. split; [|done].
  intros ->. done.
Qed.

Lemma applyRanking_cases (pg : Page) :
  (parks (fst (applyRanking pg)) = parks pg /\ ranked (snd (applyRanking pg)) = [])
  \/ exists top, snd (applyRanking pg) = ShowTieModal top
                 /\ applyRanking pg = (fst (applyRanking pg), ShowTieModal top).
Proof.
  unfold applyRanking.
  destruct (negb (ToBoolean (JStr (rank_type pg)))); [by left|].
  destruct (_ || _); [by left|].
  destruct (topResultsOf _ _ _ _ _) as [top|]; [|by left].
  destruct (length top =? 0)%nat; [by left|].
  right. by exists top.
Qed.

Lemma topResults_wf (store : list Obj) (order : JsVal) (dataKey : string) (num : number)
    (top : list nat) :
  topResultsOf store order dataKey num (sortedValid store order dataKey) = Some top ->
  NoDup top /\ forall r, r ∈ top -> r ∈ validParks store dataKey.
Proof.
  intros Htop. split.
  - eapply topResultsOf_NoDup; [done|].
    rewrite sortedValid_perm. apply validParks_NoDup.
  - intros r Hr. rewrite <- (sortedValid_perm store dataKey order).
    by eapply topResultsOf_subset.
Qed.

(** [parseInt] reads an integer or nothing. *)
Lemma parseInt_integer (s : string) : parseInt s = NaN \/ exists z, parseInt s = num_of_Z z.
Proof.
  unfold parseInt. repeat case_match; eauto.
Qed.

(** The timer callback of [applyRanking] raises nothing: past the checks the
    limit is an integer of at least 1, and [valid[num-1]] is an element
    whenever [valid] is longer than the limit. *)
Lemma applyRanking_completes (pg : Page) : snd (applyRanking pg) <> CallbackThrows.
Proof.
  unfold applyRanking.
  destruct (negb (ToBoolean (JStr (rank_type pg)))); [done|].
  destruct (negb _ || js_lt _ _ || isNaN _) eqn:Hchecks; [done|].
  apply orb_false_elim in Hchecks as [[_ Hlt]%orb_false_elim Hnan].
  destruct (parseInt_integer (rank_number pg)) as [E|[z E]]; [by rewrite E in Hnan|].
  rewrite E, js_lt_numbers in Hlt. rewrite E.
  assert (exists n, 1 <= n /\ num_of_Z z = num_of_nat n) as (n & Hn & ->).
  { exists (Z.to_nat z). unfold num_ltb, num_of_Z in Hlt. cbn [num_compare] in Hlt.
    change 1%Q with (inject_Z 1) in Hlt. rewrite Qcompare_inject_Z in Hlt.
    destruct (Z.compare_spec z 1); try done; (split; [lia|]);
      unfold num_of_nat; f_equal; lia. }
  cbn [parks clearSearchArtifacts with_searchCircle with_userMarker].
  rewrite topResultsOf_limit by done.
  destruct (Nat.leb_spec (length (sortedValid (parks pg) (rankOrder (rank_type pg))
                                    (rankDataKey (rank_type pg)))) n) as [Hle|Hgt].
  - by destruct (length _ =? 0)%nat.
  - destruct (lookup_lt_is_Some_2 (sortedValid (parks pg) (rankOrder (rank_type pg))
                                     (rankDataKey (rank_type pg))) (n - 1)) as [c ->];
      [lia|].
    simpl. by destruct (length _ =? 0)%nat.
Qed.

(** C2.  Dense ranks.  In a ranked result the first record has displayRank 1;
    a record carries the displayRank of the one before it exactly when their
    metric values are equal, and otherwise its own 1-based position. *)
Theorem rank_dense_ranks (pg pg' : Page) (top : list nat) :
  let dataKey := rankDataKey (rank_type pg) in
  let value r := field (parks pg') r dataKey in
  let displayRank r := field (parks pg') r "displayRank" in
  applyRanking pg = (pg', ShowTieModal top) ->
  dataKey <> "displayRank" ->
  (exists first, top !! 0 = Some first /\ displayRank first = JNum (num_of_nat 1))
  /\ forall i p q,
       top !! i = Some p -> top !! S i = Some q ->
       exists rp rq : nat,
         displayRank p = JNum (num_of_nat rp)
         /\ displayRank q = JNum (num_of_nat rq)
         /\ (rq = rp <-> strict_equal (value q) (value p) = true)
         /\ (strict_equal (value q) (value p) = false -> rq = i + 2).
Proof.
  intros dataKey value displayRank Hrun Hkey.
  apply applyRanking_inv in Hrun as (Htop & Hne & Hparks).
  change (parks pg' = assignDisplayRank dataKey top top 0 1 (parks pg)) in Hparks.
  apply topResults_wf in Htop as [Hnd Hvalid].
  assert (forall r, r ∈ top -> r < length (parks pg)) as Hbound.
  { intros r Hr. by apply Hvalid, validParks_spec in Hr as [? _]. }
  pose proof (assignDisplayRank_ranks dataKey top Hkey Hnd top [] 0 1 (parks pg)
                eq_refl eq_refl Hbound) as Hranks.
  cbv zeta in Hranks. rewrite <- Hparks in Hranks.
  set (vals := map (fun r => field (parks pg) r dataKey) top) in Hranks.
  set (prev := field (parks pg) _ dataKey) in Hranks.
  assert (forall r, r ∈ top -> value r = field (parks pg) r dataKey) as Hvalue.
  { intros r Hr. unfold value, field, park.
    destruct (lookup_lt_is_Some_2 _ _ (Hbound r Hr)) as [o Ho].
    destruct (assignDisplayRank_frame dataKey top top 0 1 (parks pg)) as (_ & Hpres).
    destruct (Hpres r o Ho) as (o' & Ho' & Hk & _).
    rewrite Hparks, Ho', Ho. unfold get. simpl. by rewrite Hk. }
  split.
  - destruct top as [|first top']; [done|]. exists first. split; [done|].
    destruct (Hranks 0 first eq_refl) as (n & Hn & Hf).
    unfold displayRank. rewrite Hf. by injection Hn as <-.
  - intros i p q Hp Hq.
    destruct (Hranks i p Hp) as (rp & Hrp & Hfp).
    destruct (Hranks (S i) q Hq) as (rq & Hrq & Hfq).
    exists rp, rq. split; [done|]. split; [done|].
    rewrite (Hvalue p), (Hvalue q) by by eapply list_elem_of_lookup_2.
    destruct (denseRanks_step vals 0 1 prev i rp rq
                (field (parks pg) p dataKey) (field (parks pg) q dataKey))
      as [Hle Heq]; [simpl; lia|done|done| | |].
    { unfold vals. by rewrite list_lookup_fmap, Hp. }
    { unfold vals. by rewrite list_lookup_fmap, Hq. }
    destruct (strict_equal _ _); split; intros; try done; lia.
Qed.

(** C3.  A ranked record has a metric value that is not [null], is present,
    and denotes a number ([Number] of it is not [NaN]); in the data model of
    the catalog it is a number.  Records without such a value are left out of
    the ranking, not sorted last. *)
Theorem rank_excludes_non_numeric (pg : Page) (r : nat) :
  let dataKey := rankDataKey (rank_type pg) in
  r ∈ ranked (snd (applyRanking pg)) ->
  exists o,
    parks pg !! r = Some o
    /\ get o dataKey <> JNull
    /\ get o dataKey <> JUndefined
    /\ isNaN (ToNumber (get o dataKey)) = false
    /\ (numericOrUnknown (get o dataKey) ->
        exists x, get o dataKey = JNum x /\ isNaN x = false).
Proof.
  intros dataKey (top & _ & Hr & Htop)%applyRanking_ranked.
  apply topResults_wf in Htop as [_ Hvalid].
  apply Hvalid, validParks_spec in Hr as [Hlt Hscore].
  apply lookup_lt_is_Some in Hlt as [o Ho]. exists o. split; [done|].
  apply hasScore_numeric in Hscore as [Hnull Hnan].
  rewrite (field_lookup _ _ _ _ Ho) in Hnull, Hnan. fold dataKey in Hnull, Hnan.
  repeat split; [done| |done|].
  - intros E. by rewrite E in Hnan.
  - intros Hmodel. destruct (get o dataKey) as [| | |x| |]; try done. by exists x.
Qed.

(** ** Nearby search: the facility filter and the nearest park *)

Section FacilityFilter.
Context (store : list Obj) (selectedFacilities : list string).

Lemma someAvailable_true (reqNorm : string) (avails : list JsVal) :
  someAvailable reqNorm avails = Some true ->
  exists avail, JStr avail ∈ avails /\ trim (toLowerCase avail) = reqNorm.
Proof.
  induction avails as [|a avails IH]; [done|]. simpl.
  destruct a as [| | | |avail|]; try done.
  destruct (String.eqb_spec (trim (toLowerCase avail)) reqNorm) as [E|_].
  - intros _. exists avail. split; [apply list_elem_of_here|done].
  - intros (avail' & Hin & E)%IH. exists avail'. split; [by apply list_elem_of_further|done].
Qed.

Lemma hasFacility_offers (fullPark : Obj) (req : string) :
  hasFacility fullPark req = Some true -> offers fullPark req.
Proof.
  unfold hasFacility, offers. destruct (get fullPark "facilities") as [| | | | |avails];
    try done.
  intros (avail & Hin & E)%someAvailable_true. eauto.
Qed.

Lemma everyRequired_offers (fullPark : Obj) (reqs : list string) :
  everyRequired fullPark reqs = Some true ->
  forall req, req ∈ reqs -> offers fullPark req.
Proof.
  induction reqs as [|req' reqs IH]; simpl; [by intros _ ? ?%elem_of_nil|].
  destruct (hasFacility fullPark req') as [[]|] eqn:E; try done.
  intros H req [->|Hin]%elem_of_cons; [by apply hasFacility_offers|by apply IH].
Qed.

Lemma strictMatch_offers (m : Obj) :
  strictMatch store selectedFacilities m = Some true ->
  exists fullPark,
    findPark store m = Some fullPark
    /\ fullPark ∈ store
    /\ forall req, req ∈ selectedFacilities -> offers fullPark req.
Proof.
  unfold strictMatch. destruct (findPark store m) as [fullPark|] eqn:E; [|done].
  destruct (negb _); [done|]. intros H. exists fullPark. split; [done|]. split.
  - apply find_some in E as [E _]. by apply list_elem_of_In.
  - by apply everyRequired_offers.
Qed.

(** What the filter keeps, in the order of the answer. *)
Lemma filterMatches_kept (resultParks kept : list Obj) :
  filterMatches store selectedFacilities resultParks = Some kept ->
  kept = List.filter
           (fun m => bool_decide (strictMatch store selectedFacilities m = Some true))
           resultParks
  /\ Forall (fun m => is_Some (strictMatch store selectedFacilities m)) resultParks.
Proof.
  revert kept. induction resultParks as [|m ms IH]; intros kept; simpl.
  - intros [= <-]. by split.
  - destruct (strictMatch store selectedFacilities m) as [keep|] eqn:E; [|done]. simpl.
    destruct (filterMatches store selectedFacilities ms) as [kept'|]; [|done]. simpl.
    intros [= <-]. destruct (IH kept' eq_refl) as [-> Hall].
    split; [|by constructor]. by destruct keep.
Qed.

(** The first match kept is the first of the answer that passes. *)
Lemma filterMatches_first (resultParks kept : list Obj) (first : Obj) :
  filterMatches store selectedFacilities resultParks = Some (first :: kept) ->
  exists before after,
    resultParks = before ++ first :: after
    /\ strictMatch store selectedFacilities first = Some true
    /\ forall m, m ∈ before -> strictMatch store selectedFacilities m = Some false.
Proof.
  revert kept. induction resultParks as [|m ms IH]; intros kept; simpl; [done|].
  destruct (strictMatch store selectedFacilities m) as [keep|] eqn:E; [|done]. simpl.
  destruct (filterMatches store selectedFacilities ms) as [kept'|]; [|done]. simpl.
  destruct keep.
  - intros [= -> ->]. exists [], ms. split; [done|]. split; [done|].
    by intros ? ?%elem_of_nil.
  - intros [= ->]. destruct (IH kept eq_refl) as (before & after & -> & Hf & Hb).
    exists (m :: before), after. split; [done|]. split; [done|].
    intros m' [->|Hin]%elem_of_cons; [done|by apply Hb].
Qed.
End FacilityFilter.

(** The run of [applyLocationSearch] that finds parks. *)
Lemma applyLocationSearch_found (net : Network) (pg : Page) (ms : list Obj) :
  let run := applyLocationSearch net pg in
  outcome run = ToastFound ms ->
  exists body resultParks kept,
    posted run = Some body
    /\ SEARCH_URL net body = Some resultParks
    /\ filterMatches (parks pg) (facility_checked pg) resultParks = Some kept
    /\ ms = match kept with
            | first :: _ => if nearestMode pg then [first] else kept
            | [] => kept
            end.
Proof.
  intros run. unfold run, applyLocationSearch.
  destruct (negb (ToBoolean (JStr (trim (postcode_input pg))))); [done|].
  destruct (negb (postcodeRegex_test _)); [done|].
  destruct (length (facility_checked pg) =? 0)%nat; [done|].
  destruct (nominatim net _) as [[|hit others]|]; [done| |done].
  destruct (isNaN _ || isNaN _); [done|].
  cbn [parks nearestMode clearSearchArtifacts with_searchCircle with_userMarker
       with_currentExportData].
  destruct (SEARCH_URL net _) as [resultParks|] eqn:Hreply; [|done].
  destruct (filterMatches _ _ _) as [kept|] eqn:Hkept; [|done].
  set (validMatches := match kept with [] => _ | _ => _ end).
  destruct (length validMatches =? 0)%nat; [done|].
  destruct (negb (forallb hasDistance validMatches)); [done|].
  destruct (nearestMode pg) eqn:Hmode.
  - cbn [outcome posted]. intros [= <-]. eauto 10.
  - destruct (isNaN _); [done|]. cbn [outcome posted]. intros [= <-]. eauto 10.
Qed.

Lemma found_outcome (run : SearchRun) (m : Obj) :
  m ∈ found run -> outcome run = ToastFound (found run).
Proof. unfold found. destruct (outcome run); by try intros ?%elem_of_nil. Qed.

(** C4.  Strict conjunctive facility match.  Every match [applyLocationSearch]
    returns is a catalog record that offers each required facility, names
    compared lower-cased and trimmed on both sides. *)
Theorem search_strict_facility_match (net : Network) (pg : Page) (m : Obj) :
  m ∈ found (applyLocationSearch net pg) ->
  exists fullPark,
    findPark (parks pg) m = Some fullPark
    /\ fullPark ∈ parks pg
    /\ forall req, req ∈ facility_checked pg -> offers fullPark req.
Proof.
  intros Hm. pose proof (found_outcome _ _ Hm) as Hout.
  apply applyLocationSearch_found in Hout as (body & resultParks & kept & _ & _ & Hkept & Hms).
  apply strictMatch_offers.
  apply filterMatches_kept in Hkept as [Hkept _].
  assert (m ∈ kept) as Hin.
  { rewrite Hms in Hm. destruct kept as [|first kept']; [by apply elem_of_nil in Hm|].
    destruct (nearestMode pg); [|done].
    apply list_elem_of_singleton in Hm as ->. apply list_elem_of_here. }
  rewrite Hkept in Hin. apply list_elem_of_In, filter_In in Hin as [_ Hin].
  by apply bool_decide_eq_true in Hin.
Qed.

(** In nearest mode, against any network, the match returned is the first
    candidate of the answer that passes the facility filter. *)
Lemma applyLocationSearch_nearest (net : Network) (pg : Page) (m : Obj) :
  let run := applyLocationSearch net pg in
  nearestMode pg = true ->
  m ∈ found run ->
  found run = [m]
  /\ exists before after,
       candidates net run = before ++ m :: after
       /\ strictMatch (parks pg) (facility_checked pg) m = Some true
       /\ forall m', m' ∈ before ->
            strictMatch (parks pg) (facility_checked pg) m' = Some false.
Proof.
  intros run Hmode Hm. pose proof (found_outcome _ _ Hm) as Hout.
  apply applyLocationSearch_found in Hout
    as (body & resultParks & kept & Hbody & Hreply & Hkept & Hms).
  fold run in Hbody, Hms. rewrite Hmode in Hms.
  destruct kept as [|first kept']; [rewrite Hms in Hm; by apply elem_of_nil in Hm|].
  rewrite Hms in Hm. apply list_elem_of_singleton in Hm as ->.
  split; [done|]. unfold candidates. rewrite Hbody, Hreply. simpl.
  by eapply filterMatches_first.
Qed.

(** *** The facility filter on the data model *)

Lemma someAvailable_names (reqNorm : string) (names : list string) :
  is_Some (someAvailable reqNorm (map JStr names)).
Proof.
  induction names as [|name names IH]; simpl; [done|].
  by destruct (String.eqb _ _).
Qed.

Lemma everyRequired_names (fullPark : Obj) (reqs names : list string) :
  get fullPark "facilities" = JArr (map JStr names) ->
  is_Some (everyRequired fullPark reqs).
Proof.
  intros Hnames. induction reqs as [|req reqs IH]; simpl; [done|].
  unfold hasFacility. rewrite Hnames.
  by destruct (someAvailable_names (trim (toLowerCase req)) names) as [[] ->].
Qed.

Lemma strictMatch_total (store : list Obj) (sel : list string) (m : Obj) :
  facilitiesCatalog store -> is_Some (strictMatch store sel m).
Proof.
  intros Hmodel. unfold strictMatch.
  destruct (findPark store m) as [fullPark|] eqn:Hfind; [|done].
  apply find_some in Hfind as [Hin _]. apply list_elem_of_In in Hin.
  destruct (Hmodel fullPark Hin) as [names Hnames]. rewrite Hnames. simpl.
  by eapply everyRequired_names.
Qed.

Lemma filterMatches_total (store : list Obj) (sel : list string) (ms : list Obj) :
  facilitiesCatalog store -> is_Some (filterMatches store sel ms).
Proof.
  intros Hmodel. induction ms as [|m ms [kept IH]]; simpl; [done|].
  destruct (strictMatch_total store sel m Hmodel) as [keep ->]. simpl.
  by rewrite IH.
Qed.

(** *** The search of the spec *)

Section SearchFacts.
Import ProximitySearch.
Context (distanceOf : Obj -> Q).

Lemma matchDistance_proximityResult (p : Obj) :
  matchDistance (proximityResult distanceOf p) = Fin (distanceOf p).
Proof. unfold matchDistance, proximityResult, get. by rewrite lookup_insert_eq. Qed.

Lemma hasDistance_proximityResult (p : Obj) :
  hasDistance (proximityResult distanceOf p) = true.
Proof. unfold hasDistance, proximityResult, get. by rewrite lookup_insert_eq. Qed.

Lemma sorts_after_byDistance (a b : Obj) :
  sorts_after (byDistance distanceOf) a b = false <-> (distanceOf a <= distanceOf b)%Q.
Proof.
  unfold sorts_after, SortCompare, byDistance. cbn [isNaN num_compare].
  rewrite Qcompare_sub.
  destruct (Qcompare_cases (distanceOf a) (distanceOf b)) as [[-> H]|[[-> H]|[-> H]]];
    split; try done; try lra.
Qed.

Lemma sort_byDistance_sorted (records : list Obj) :
  StronglySorted (fun a b => (distanceOf a <= distanceOf b)%Q)
    (sort (byDistance distanceOf) records).
Proof.
  apply (sort_sorted _ (fun _ => True)).
  - intros a b _ _. apply sorts_after_byDistance.
  - intros a b _ _. lra.
  - intros a b c _ _ _. lra.
  - by apply Forall_forall.
Qed.

(** The candidates come in ascending order of distance. *)
Lemma search_ascending (records : list Obj) (mode : Mode) (results : list Obj) :
  search distanceOf records mode = Candidates results ->
  ascendingByDistance results
  /\ Forall (fun m => hasDistance m = true) results.
Proof.
  assert (forall l, StronglySorted (fun a b => (distanceOf a <= distanceOf b)%Q) l ->
            ascendingByDistance (map (proximityResult distanceOf) l)
            /\ Forall (fun m => hasDistance m = true) (map (proximityResult distanceOf) l))
    as Hmap.
  { intros l Hl. split; [split|].
    - apply Forall_forall. intros m (p & -> & _)%list_elem_of_fmap.
      by rewrite matchDistance_proximityResult.
    - eapply StronglySorted_fmap; [|exact Hl]. intros a b Hab. cbv beta in Hab |- *.
      rewrite !matchDistance_proximityResult. unfold num_leb. cbn [num_compare].
      destruct (Qcompare_cases (distanceOf a) (distanceOf b)) as [[-> H]|[[-> H]|[-> H]]];
        try done; lra.
    - apply Forall_forall. intros m (p & -> & _)%list_elem_of_fmap.
      apply hasDistance_proximityResult. }
  unfold search. destruct mode as [|radiusKm].
  - intros [= <-]. apply Hmap, sort_byDistance_sorted.
  - destruct (Qle_bool radiusKm 0); [done|]. intros [= <-].
    apply Hmap, StronglySorted_filter, sort_byDistance_sorted.
Qed.

Lemma search_within (records : list Obj) (radiusKm : Q) (results : list Obj) :
  search distanceOf records (withinRadius radiusKm) = Candidates results ->
  Forall (fun m => num_leb (matchDistance m) (Fin radiusKm) = true) results.
Proof.
  unfold search. destruct (Qle_bool radiusKm 0); [done|]. intros [= <-].
  apply Forall_forall. intros m (p & -> & Hp)%list_elem_of_fmap.
  apply list_elem_of_In, filter_In in Hp as [_ Hp]. apply Qle_bool_iff in Hp.
  rewrite matchDistance_proximityResult. unfold num_leb. cbn [num_compare].
  destruct (Qcompare_cases (distanceOf p) radiusKm) as [[-> H]|[[-> H]|[-> H]]];
    try done; lra.
Qed.

Lemma search_InvalidRadius (records : list Obj) (radiusKm : Q) :
  search distanceOf records (withinRadius radiusKm) = InvalidRadius <-> (radiusKm <= 0)%Q.
Proof.
  unfold search. destruct (Qle_bool radiusKm 0) eqn:E.
  - apply Qle_bool_iff in E. by split.
  - split; [done|]. intros H. apply Qle_bool_iff in H. congruence.
Qed.
End SearchFacts.

(** ** Nearby search: the radius *)

(** A search that has its origin posts one body and ends as the answer to
    it decides. *)
Lemma applyLocationSearch_geocoded (net : Network) (pg : Page) (userLat userLon : number) :
  geocoded net pg userLat userLon ->
  let body :=
    {| facilities := facility_checked pg;
       user_lat := json_number userLat;
       user_lon := json_number userLon;
       distance := if nearestMode pg then JNull else json_number (searchRadius pg);
       nearest_only := nearestMode pg |} in
  let run := applyLocationSearch net pg in
  posted run = Some body
  /\ outcome run =
     match SEARCH_URL net body with
     | None => ToastErrorSearching
     | Some resultParks =>
         match filterMatches (parks pg) (facility_checked pg) resultParks with
         | None => ToastErrorSearching
         | Some kept =>
             let validMatches :=
               match kept with
               | first :: _ => if nearestMode pg then [first] else kept
               | [] => kept
               end in
             if (length validMatches =? 0)%nat then ShowNoResultsModal
             else if negb (forallb hasDistance validMatches) then ToastErrorSearching
             else if nearestMode pg then ToastFound validMatches
             else if isNaN (num_mul (searchRadius pg) (Fin 1000)) then ToastErrorSearching
             else ToastFound validMatches
         end
     end
  /\ (forall ms, outcome run = ToastFound ms -> nearestMode pg = false ->
        searchCircle (page_after run)
        = Some {| center := (userLat, userLon);
                  radius := num_mul (searchRadius pg) (Fin 1000) |}).
Proof.
  intros (Hpost & Hshape & Hfac & (hit & others & Hgeo & -> & ->) & Hlat & Hlon) body run.
  unfold run, applyLocationSearch.
  apply ToBoolean_string in Hpost as ->. rewrite Hshape.
  assert ((length (facility_checked pg) =? 0)%nat = false) as ->.
  { apply Nat.eqb_neq. by destruct (facility_checked pg). }
  rewrite Hgeo, Hlat, Hlon.
  cbn [negb orb parks nearestMode clearSearchArtifacts with_searchCircle with_userMarker
       with_currentExportData].
  fold (searchRadius pg). fold body.
  destruct (SEARCH_URL net body) as [resultParks|]; [|done].
  destruct (filterMatches _ _ _) as [kept|]; [|done].
  cbv zeta. set (validMatches := match kept with [] => _ | _ => _ end).
  destruct (length validMatches =? 0)%nat; [done|].
  destruct (negb (forallb hasDistance validMatches)); [done|].
  destruct (nearestMode pg); [by repeat split; intros ms _ [=]|].
  destruct (isNaN (num_mul (searchRadius pg) (Fin 1000)));
    (split; [done|split; [done|]]); by intros ms [=] _.
Qed.

(** Clearing the inputs puts the search back in distance mode at 5 km. *)
Lemma clearAllInputs_radius (firstRankType : string) (pg : Page) :
  nearestMode (clearAllInputs firstRankType pg) = false
  /\ searchRadius (clearAllInputs firstRankType pg) = Fin 5.
Proof. split; [reflexivity|]. vm_compute. reflexivity. Qed.

Lemma setSearchMode_nearestMode (isNearest : bool) (pg : Page) :
  nearestMode (setSearchMode isNearest pg) = isNearest
  /\ parks (setSearchMode isNearest pg) = parks pg.
Proof. split; reflexivity. Qed.

(** C10.  Default radius.  In distance mode an empty distance input makes the
    search work with 5.0 km: that is the distance posted to the endpoint and,
    in meters, the radius of the circle drawn; a well-formed answer with parks
    that pass is shown, not refused. *)
Theorem search_default_radius (net : Network) (pg : Page) (userLat userLon : number) :
  let run := applyLocationSearch net pg in
  distance_input pg = EmptyString ->
  nearestMode pg = false ->
  geocoded net pg userLat userLon ->
  searchRadius pg = Fin 5
  /\ exists body,
       posted run = Some body
       /\ distance body = JNum (Fin 5)
       /\ (forall ms, outcome run = ToastFound ms ->
             searchCircle (page_after run)
             = Some {| center := (userLat, userLon); radius := Fin 5000 |})
       /\ (forall resultParks kept,
             SEARCH_URL net body = Some resultParks ->
             filterMatches (parks pg) (facility_checked pg) resultParks = Some kept ->
             kept <> [] -> forallb hasDistance kept = true ->
             outcome run = ToastFound kept).
Proof.
  intros run Hempty Hmode Hgeo.
  assert (searchRadius pg = Fin 5) as Hradius by (unfold searchRadius; by rewrite Hempty).
  split; [done|].
  destruct (applyLocationSearch_geocoded net pg userLat userLon Hgeo)
    as (Hbody & Hout & Hcircle).
  fold run in Hbody, Hout, Hcircle. rewrite Hmode, Hradius in Hbody, Hout.
  cbv beta iota zeta delta [json_number] in Hbody, Hout.
  eexists. split; [exact Hbody|]. split; [done|]. split.
  - intros ms Hms. rewrite (Hcircle ms Hms Hmode), Hradius. done.
  - intros resultParks kept Hreply Hkept Hne Hdist. rewrite Hout, Hreply, Hkept.
    destruct kept as [|first kept']; [done|]. simpl length.
    cbn [Nat.eqb]. by rewrite Hdist.
Qed.

(** ** Nearby search: against the endpoint of the spec *)

Section SpecEndpoint.
Import ProximitySearch.

(** C5.  Nearest mode, the endpoint being the one of the spec.  The search
    returns no match or one.  The one returned passes the facility filter and
    no candidate that passes is nearer: the candidates are the records of the
    endpoint in ascending order of distance, records at one distance in the
    order they have, and the match is the first of them that passes.  On a
    catalog of the data model a search that has its origin returns a match
    whenever a candidate passes. *)
Theorem search_nearest_single (geocoder : string -> option (list Obj))
    (distanceOf : Q * Q -> Obj -> Q) (records : list Obj) (pg : Page) :
  let net := network geocoder distanceOf records in
  let run := applyLocationSearch net pg in
  let passes m := strictMatch (parks pg) (facility_checked pg) m = Some true in
  nearestMode pg = true ->
  length (found run) <= 1
  /\ (forall m, m ∈ found run ->
        found run = [m]
        /\ passes m
        /\ (forall m', m' ∈ candidates net run -> passes m' ->
              num_leb (matchDistance m) (matchDistance m') = true)
        /\ exists origin before after,
             candidates net run
             = map (proximityResult (distanceOf origin))
                 (sort (byDistance (distanceOf origin)) records)
             /\ candidates net run = before ++ m :: after
             /\ forall m', m' ∈ before ->
                  strictMatch (parks pg) (facility_checked pg) m' = Some false)
  /\ (forall userLat userLon m',
        geocoded net pg (Fin userLat) (Fin userLon) ->
        facilitiesCatalog (parks pg) ->
        m' ∈ candidates net run -> passes m' ->
        found run <> []).
Proof.
  intros net run passes Hmode.
  assert (forall m, m ∈ found run ->
            exists origin,
              candidates net run
              = map (proximityResult (distanceOf origin))
                  (sort (byDistance (distanceOf origin)) records)) as Hcand.
  { intros m Hm. pose proof (found_outcome _ _ Hm) as Hout.
    apply applyLocationSearch_found in Hout
      as (body & resultParks & kept & Hbody & Hreply & _).
    fold run in Hbody. unfold candidates. rewrite Hbody, Hreply. simpl.
    revert Hreply. cbn [SEARCH_URL net network]. unfold endpoint.
    destruct (originOf body) as [origin|]; [|done]. simpl.
    destruct (modeOf body) as [mode|] eqn:Hm'; [|done]. simpl.
    assert (mode = nearest) as ->.
    { revert Hm'. unfold modeOf.
      assert (nearest_only body = true) as ->; [|congruence].
      revert Hbody. unfold run, applyLocationSearch.
      destruct (negb (ToBoolean (JStr (trim (postcode_input pg))))); [done|].
      destruct (negb (postcodeRegex_test _)); [done|].
      destruct (length (facility_checked pg) =? 0)%nat; [done|].
      destruct (nominatim net _) as [[|hit others]|]; [done| |done].
      destruct (isNaN _ || isNaN _); [done|].
      cbn [parks nearestMode clearSearchArtifacts with_searchCircle with_userMarker
           with_currentExportData]. rewrite Hmode.
      destruct (SEARCH_URL net _) as [rp|]; [|by intros [= <-]].
      destruct (filterMatches _ _ _) as [kp|]; [|by intros [= <-]].
      set (validMatches := match kp with [] => _ | _ => _ end).
      destruct (length validMatches =? 0)%nat; [by intros [= <-]|].
      destruct (negb (forallb hasDistance validMatches)); by intros [= <-]. }
    cbn [search]. intros [= <-]. by exists origin. }
  split; [|split].
  - destruct (found run) as [|m l] eqn:E; [simpl; lia|].
    destruct (applyLocationSearch_nearest net pg m Hmode) as [Hm _].
    { fold run. rewrite E. left. }
    fold run in Hm. rewrite E in Hm. by injection Hm as ->.
  - intros m Hm.
    destruct (applyLocationSearch_nearest net pg m Hmode Hm)
      as (Hfound & before & after & Hsplit & Hpass & Hbefore).
    fold run in Hfound, Hsplit.
    destruct (Hcand m Hm) as [origin Horigin].
    split; [done|]. split; [done|]. split; [|by exists origin, before, after].
    intros m' Hm' Hpass'.
    destruct (search_ascending (distanceOf origin) records nearest (candidates net run))
      as [[Hnum Hasc] _]; [by rewrite Horigin|].
    rewrite Hsplit in Hm', Hasc, Hnum.
    apply elem_of_app in Hm' as [Hm'|Hm'].
    { apply Hbefore in Hm'. unfold passes in Hpass'. congruence. }
    apply StronglySorted_app_1_r, StronglySorted_inv in Hasc as [_ Hasc].
    apply elem_of_cons in Hm' as [->|Hm'].
    + apply num_leb_refl. rewrite Forall_app, Forall_cons in Hnum. tauto.
    + rewrite Forall_forall in Hasc. by apply Hasc.
  - intros userLat userLon m' Hgeo Hmodel Hm' Hpass'.
    destruct (applyLocationSearch_geocoded net pg _ _ Hgeo) as (Hbody & Hout & _).
    fold run in Hbody, Hout. unfold candidates in Hm'. rewrite Hbody in Hm'.
    destruct (SEARCH_URL net _) as [resultParks|] eqn:Hreply;
      [|by apply elem_of_nil in Hm'].
    simpl in Hm'.
    destruct (filterMatches_total (parks pg) (facility_checked pg) resultParks Hmodel)
      as [kept Hkept].
    rewrite Hkept, Hmode in Hout.
    pose proof Hkept as [Hfilter _]%filterMatches_kept.
    assert (m' ∈ kept) as Hin.
    { rewrite Hfilter. apply list_elem_of_In, filter_In. split; [by apply list_elem_of_In|].
      by apply bool_decide_eq_true. }
    destruct kept as [|first kept']; [by apply elem_of_nil in Hin|].
    assert (hasDistance first = true) as Hd.
    { revert Hreply. cbn [SEARCH_URL net network]. unfold endpoint.
      destruct (originOf _) as [origin|]; [|done]. simpl.
      destruct (modeOf _) as [mode|]; [|done]. simpl.
      destruct (search _ _ _) as [|results] eqn:Hsearch; [done|]. intros [= ->].
      apply search_ascending in Hsearch as [_ Hall]. rewrite Forall_forall in Hall.
      apply Hall. assert (first ∈ first :: kept') as Hf by left.
      rewrite Hfilter in Hf. apply list_elem_of_In, filter_In in Hf as [Hf _].
      by apply list_elem_of_In. }
    cbn [length Nat.eqb forallb] in Hout. rewrite Hd in Hout. cbn in Hout.
    unfold found. by rewrite Hout.
Qed.

(** C8.  The radius, the endpoint being the one of the spec.  nearby.js
    refuses no radius: it posts the one it reads.  [search] fails with
    InvalidRadius exactly when that radius is 0 or less, and the search of
    the page then ends in the toast of an error, with nothing found.  For a
    radius above 0 it ends, on a catalog of the data model, without an error:
    with the candidates within the radius that pass the facility filter, or
    with the no-results modal when there is none. *)
Theorem search_invalid_radius (geocoder : string -> option (list Obj))
    (distanceOf : Q * Q -> Obj -> Q) (records : list Obj) (pg : Page)
    (userLat userLon radiusKm : Q) :
  let net := network geocoder distanceOf records in
  let run := applyLocationSearch net pg in
  let result :=
    search (distanceOf (userLat, userLon)) records
      (withinRadius radiusKm) in
  nearestMode pg = false ->
  geocoded net pg (Fin userLat) (Fin userLon) ->
  searchRadius pg = Fin radiusKm ->
  facilitiesCatalog (parks pg) ->
  (result = InvalidRadius <-> (radiusKm <= 0)%Q)
  /\ (result = InvalidRadius ->
      outcome run = ToastErrorSearching /\ found run = [])
  /\ (forall results, result = Candidates results ->
        Forall (fun m => num_leb (matchDistance m) (Fin radiusKm) = true) results
        /\ outcome run
           = match List.filter
                     (fun m => bool_decide
                                 (strictMatch (parks pg) (facility_checked pg) m = Some true))
                     results with
             | [] => ShowNoResultsModal
             | first :: others => ToastFound (first :: others)
             end).
Proof.
  intros net run result Hmode Hgeo Hradius Hmodel.
  split; [apply search_InvalidRadius|].
  destruct (applyLocationSearch_geocoded net pg _ _ Hgeo) as (_ & Hout & _).
  fold run in Hout. rewrite Hmode, Hradius in Hout.
  cbn [SEARCH_URL net network json_number] in Hout. unfold endpoint in Hout.
  cbn [originOf modeOf user_lat user_lon nearest_only distance] in Hout.
  cbn [mbind option_bind] in Hout. fold result in Hout.
  split.
  - intros Hfail. rewrite Hfail in Hout. split; [done|]. unfold found. by rewrite Hout.
  - intros results Hresults. rewrite Hresults in Hout.
    split; [by eapply search_within|].
    destruct (filterMatches_total (parks pg) (facility_checked pg) results Hmodel)
      as [kept Hkept].
    rewrite Hkept in Hout. pose proof Hkept as [Hfilter _]%filterMatches_kept.
    rewrite <- Hfilter. rewrite Hout.
    destruct kept as [|first kept']; [done|].
    assert (forallb hasDistance (first :: kept') = true) as ->.
    { apply forallb_forall. intros m Hm. rewrite Hfilter in Hm.
      apply filter_In in Hm as [Hm _]. apply list_elem_of_In in Hm.
      apply search_ascending in Hresults as [_ Hall]. rewrite Forall_forall in Hall.
      by apply Hall. }
    done.
Qed.
End SpecEndpoint.

(** ** What the engines leave alone *)

Lemma applyLocationSearch_parks (net : Network) (pg : Page) :
  parks (page_after (applyLocationSearch net pg)) = parks pg.
Proof.
  unfold applyLocationSearch.
  repeat (first [ done
                | match goal with
                  | |- context [match ?x with _ => _ end] => destruct x
                  end ]; cbn [page_after parks clearSearchArtifacts with_searchCircle
                              with_userMarker with_currentExportData]).
Qed.

(** C6, as the scripts have it.  [applyRanking] keeps the [parks] array and
    every property of every record other than [displayRank]; it writes a
    [displayRank] on each record it ranks, in place, and leaves the others
    untouched.  [applyLocationSearch] leaves [parks] as it was. *)
Theorem engines_frame :
  (forall pg : Page,
     let pg' := fst (applyRanking pg) in
     let top := ranked (snd (applyRanking pg)) in
     length (parks pg') = length (parks pg)
     /\ forall (r : nat) (o : Obj), parks pg !! r = Some o ->
          exists o' : Obj,
            parks pg' !! r = Some o'
            /\ (forall k, k <> "displayRank" -> o' !! k = o !! k)
            /\ (r ∉ top -> o' = o)
            /\ (r ∈ top -> exists n, o' !! "displayRank" = Some (JNum (num_of_nat n))))
  /\ (forall (net : Network) (pg : Page),
        parks (page_after (applyLocationSearch net pg)) = parks pg).
Proof.
  split; [|apply applyLocationSearch_parks].
  intros pg pg' top.
  destruct (applyRanking_cases pg) as [[Hsame Hnone]|(top' & Hout & Hrun)].
  - unfold pg', top. rewrite Hsame, Hnone. split; [done|].
    intros r o Ho. exists o. repeat split; [done..|]. by intros ?%elem_of_nil.
  - apply applyRanking_inv in Hrun as (_ & _ & Hparks).
    unfold pg', top. rewrite Hparks, Hout. cbn [ranked].
    apply assignDisplayRank_frame.
Qed.

(** ** Ranking: the limit *)

(** The rest of [applyRanking] sees the limit text only through [parseInt]. *)
Lemma applyRanking_limit_only (pg : Page) (s1 s2 : string) :
  s1 <> EmptyString -> s2 <> EmptyString -> parseInt s1 = parseInt s2 ->
  snd (applyRanking (with_rank_number s1 pg)) = snd (applyRanking (with_rank_number s2 pg))
  /\ parks (fst (applyRanking (with_rank_number s1 pg)))
     = parks (fst (applyRanking (with_rank_number s2 pg))).
Proof.
  intros H1 H2 Hparse. unfold applyRanking.
  cbn [rank_type rank_number with_rank_number parks clearSearchArtifacts
       with_searchCircle with_userMarker].
  apply ToBoolean_string in H1 as ->. apply ToBoolean_string in H2 as ->.
  rewrite Hparse.
  destruct (negb (ToBoolean (JStr (rank_type pg)))); [done|].
  destruct (_ || _); [done|].
  destruct (topResultsOf _ _ _ _ _) as [top|]; [|done].
  by destruct (length top =? 0)%nat.
Qed.

(** C7, as the scripts have it.  With a ranking type chosen, the limit is
    refused exactly when its text is empty or [parseInt] reads from it no
    number or one below 1; otherwise the limit is the integer [parseInt]
    reads at the head of the text, whatever follows it. *)
Theorem rank_limit_validation (pg : Page) :
  rank_type pg <> EmptyString ->
  (snd (applyRanking pg) = ShowEnterRankNumModal <->
     rank_number pg = EmptyString
     \/ isNaN (parseInt (rank_number pg)) = true
     \/ num_ltb (parseInt (rank_number pg)) (Fin 1) = true)
  /\ (forall s,
        rank_number pg <> EmptyString -> s <> EmptyString ->
        parseInt s = parseInt (rank_number pg) ->
        snd (applyRanking (with_rank_number s pg)) = snd (applyRanking pg)
        /\ parks (fst (applyRanking (with_rank_number s pg))) = parks (fst (applyRanking pg))).
Proof.
  intros Htype. split.
  - unfold applyRanking. apply ToBoolean_string in Htype as ->.
    rewrite js_lt_numbers. cbn [negb].
    destruct (ToBoolean (JStr (rank_number pg))) eqn:Hnum.
    + apply ToBoolean_string in Hnum. cbn [negb orb].
      destruct (num_ltb _ _ || isNaN _) eqn:Hbad.
      * split; [|done]. intros _. apply orb_prop in Hbad. tauto.
      * apply orb_false_elim in Hbad as [Hlt Hnan]. rewrite Hlt, Hnan.
        destruct (topResultsOf _ _ _ _ _) as [top|].
        { destruct (length top =? 0)%nat; (split; [done|]); intros [?|[?|?]]; done. }
        split; [done|]. intros [?|[?|?]]; done.
    + cbn [negb orb]. split; [|done]. intros _. left.
      destruct (rank_number pg); [done|]. by cbn in Hnum.
  - intros s Hne Hs Hparse.
    destruct (applyRanking_limit_only pg s (rank_number pg) Hs Hne Hparse) as [H1 H2].
    assert (with_rank_number (rank_number pg) pg = pg) as E by by destruct pg.
    by rewrite E in H1, H2.
Qed.

(** ** The haversine distance *)

Section Haversine.
Import ProximityEngine.
Local Open Scope R_scope.

Lemma hav_opp (theta : R) : hav (- theta) = hav theta.
Proof.
  unfold hav. replace (- theta / 2) with (- (theta / 2)) by lra.
  rewrite sin_neg. unfold Rsqr. ring.
Qed.

Lemma hav_0 : hav 0 = 0.
Proof. unfold hav. replace (0 / 2) with 0 by lra. rewrite sin_0. unfold Rsqr. ring. Qed.

Lemma asin_nonneg (x : R) : 0 <= x -> 0 <= asin x <= PI / 2.
Proof.
  intros Hx. split; [|apply asin_bound].
  pose proof PI_RGT_0 as Hpi. unfold asin.
  destruct (Rle_dec x (-1)); [lra|]. destruct (Rle_dec 1 x); [lra|].
  assert (0 < sqrt (1 - x²)) as Hs.
  { apply sqrt_lt_R0. unfold Rsqr. nra. }
  destruct (Req_dec x 0) as [->|Hne].
  - unfold Rdiv. rewrite Rmult_0_l, atan_0. lra.
  - rewrite <- atan_0. left. apply atan_increasing.
    apply Rdiv_lt_0_compat; lra.
Qed.

(** C9.  The haversine distance of a point to itself is 0, the distance is
    symmetric, and it lies between 0 and half the circumference of the
    Earth. *)
Theorem distanceKm_metric :
  (forall p, distanceKm p p = 0)
  /\ (forall a b, distanceKm a b = distanceKm b a)
  /\ (forall a b, 0 <= distanceKm a b <= earthRadiusKm * PI).
Proof.
  split; [|split].
  - intros p. unfold distanceKm. cbv zeta.
    rewrite !Rminus_diag, hav_0, Rmult_0_r, Rplus_0_r, sqrt_0, asin_0. ring.
  - intros a b. unfold distanceKm. cbv zeta. do 3 f_equal. f_equal.
    + rewrite <- hav_opp. f_equal. ring.
    + rewrite <- (hav_opp (toRadians (lon b) - _)).
      rewrite (Rmult_comm (cos (toRadians (lat a)))). do 2 f_equal. ring.
  - intros a b. unfold distanceKm. cbv zeta.
    set (h := _ + _).
    destruct (asin_nonneg (sqrt h)) as [H0 H1]; [apply sqrt_pos|].
    unfold earthRadiusKm. split; nra.
Qed.
End Haversine.

Import RankingOrder Palette TieModal CsvExport NameSearch Markers.

(** ** Ranking: ties keep the order of the catalog *)

Section StableSort.
Context {A : Type} (cmp : A -> A -> number).
Context (P : A -> Prop) (le before : A -> A -> Prop).
Hypothesis after_le : forall a b, P a -> P b -> (sorts_after cmp a b = false <-> le a b).
Hypothesis le_total : forall a b, P a -> P b -> le a b \/ le b a.
Hypothesis le_trans : forall a b c, P a -> P b -> P c -> le a b -> le b c -> le a c.

Lemma sort_insert_stable (x : A) (l : list A) :
  P x -> Forall P l -> Forall (before x) l ->
  StronglySorted (fun a b => le a b /\ (le b a -> before a b)) l ->
  StronglySorted (fun a b => le a b /\ (le b a -> before a b)) (sort_insert cmp x l).
Proof.
  intros Hx Hl Hbefore Hsorted.
  induction Hsorted as [|y l' Hsorted IH Hy]; simpl.
  - repeat constructor.
  - apply Forall_cons in Hl as [HPy Hl']. apply Forall_cons in Hbefore as [Hxy Hbefore'].
    destruct (sorts_after cmp x y) eqn:E.
    + constructor; [by apply IH|].
      rewrite sort_insert_perm. constructor; [|done].
      assert (~ le x y) as Hnle.
      { intros Hle. apply after_le in Hle; [|done..]. congruence. }
      split; [|done]. by destruct (le_total x y).
    + apply after_le in E; [|done..].
      constructor; [by constructor|].
      constructor; [done|].
      rewrite Forall_forall in Hy, Hl', Hbefore' |- *.
      intros z Hz. split; [|intros _; by apply Hbefore'].
      apply (le_trans x y z); [done|done|by apply Hl'|done|by apply Hy].
Qed.

Lemma sort_stable (l : list A) :
  Forall P l -> StronglySorted before l ->
  StronglySorted (fun a b => le a b /\ (le b a -> before a b)) (sort cmp l).
Proof.
  intros Hl Hsorted. induction Hsorted as [|x l Hsorted IH Hx]; simpl; [constructor|].
  apply Forall_cons in Hl as [HPx Hl].
  apply sort_insert_stable; [done| | |by apply IH].
  - by rewrite sort_perm.
  - by rewrite sort_perm.
Qed.
End StableSort.

Lemma StronglySorted_seq (start len : nat) : StronglySorted lt (seq start len).
Proof.
  revert start. induction len as [|len IH]; intros start; simpl; constructor; [done|].
  apply Forall_forall. intros y Hy. apply list_elem_of_In, in_seq in Hy. lia.
Qed.

Lemma StronglySorted_lookup {A} (R : A -> A -> Prop) (l : list A) (i j : nat) (x y : A) :
  StronglySorted R l -> i < j -> l !! i = Some x -> l !! j = Some y -> R x y.
Proof.
  intros Hs Hij Hi Hj.
  rewrite <- (take_drop (S i) l) in Hs.
  apply (StronglySorted_app_1_elem_of _ _ _ _ _ Hs).
  - apply list_elem_of_lookup. exists i. by rewrite lookup_take_lt by lia.
  - apply list_elem_of_lookup. exists (j - S i). rewrite lookup_drop.
    by replace (S i + (j - S i)) with j by lia.
Qed.

Lemma sortedValid_stable (store : list Obj) (order : JsVal) (dataKey : string) :
  StronglySorted (rankedBefore store order dataKey) (sortedValid store order dataKey).
Proof.
  unfold sortedValid, rankedBefore.
  apply (sort_stable _ (fun r => hasScore store dataKey r = true)
           (fun a b => betterOrEqual order (score store dataKey a) (score store dataKey b) = true)
           lt).
  - intros a b Ha Hb.
    rewrite sorts_after_byScore by by apply hasScore_not_NaN.
    by destruct (betterOrEqual _ _ _).
  - intros a b Ha Hb. apply betterOrEqual_total; by apply hasScore_not_NaN.
  - intros a b c _ _ _. apply betterOrEqual_trans.
  - apply Forall_forall. intros r Hr. by apply validParks_spec in Hr as [_ ?].
  - apply StronglySorted_filter, StronglySorted_seq.
Qed.

Lemma topResultsOf_filter (store : list Obj) (order : JsVal) (dataKey : string)
    (num : number) (valid top : list nat) :
  topResultsOf store order dataKey num valid = Some top ->
  exists f, top = List.filter f valid.
Proof.
  unfold topResultsOf. destruct (js_le _ _).
  - intros [= <-]. exists (fun _ => true). induction valid; simpl; congruence.
  - destruct (array_index _); [|done]. destruct (valid !! _); [|done].
    intros [= <-]. eauto.
Qed.

(** X1.  The order of a ranked result.  Of two records of the result the
    earlier has a score equal to or better than the later one's, and when
    their scores are equal it is the one that comes first in the catalog: the
    sort is stable, and the cut keeps the order. *)
Theorem rank_order_stable (pg : Page) (i j p q : nat) :
  let top := ranked (snd (applyRanking pg)) in
  i < j -> top !! i = Some p -> top !! j = Some q ->
  rankedBefore (parks pg) (rankOrder (rank_type pg)) (rankDataKey (rank_type pg)) p q.
Proof.
  intros top Hij Hp Hq.
  assert (p ∈ top) as Hin by by eapply list_elem_of_lookup_2.
  apply applyRanking_ranked in Hin as (top' & Hout & _ & Htop).
  assert (top = top') as E by (unfold top; by rewrite Hout). rewrite E in Hp, Hq.
  apply topResultsOf_filter in Htop as [f ->].
  eapply StronglySorted_lookup; [|done..].
  apply StronglySorted_filter, sortedValid_stable.
Qed.

(** ** Ranking: what makes a result longer than the limit *)

Lemma num_compare_Eq_l (a b x : number) :
  num_compare a b = Some Eq -> num_compare a x = num_compare b x.
Proof.
  destruct a as [|s|p], b as [|t|q], x as [|u|r]; simpl; try done;
    try (by destruct s, t); try (by destruct s); try (by destruct t).
  intros [= E]. apply Qeq_alt in E. by rewrite E.
Qed.

Lemma num_compare_Eq_r (a b x : number) :
  num_compare a b = Some Eq -> num_compare x a = num_compare x b.
Proof.
  intros E. rewrite (num_compare_antisym a x), (num_compare_antisym b x).
  by rewrite (num_compare_Eq_l a b x).
Qed.

Lemma num_leb_antisym (a b : number) :
  num_leb a b = true -> num_leb b a = true -> num_compare a b = Some Eq.
Proof.
  unfold num_leb. rewrite (num_compare_antisym a b).
  destruct (num_compare a b) as [[]|]; simpl; done.
Qed.

Lemma betterOrEqual_antisym (order : JsVal) (a b : number) :
  betterOrEqual order a b = true -> betterOrEqual order b a = true ->
  num_compare a b = Some Eq.
Proof.
  unfold betterOrEqual. destruct (highest order); intros H1 H2.
  - by apply num_leb_antisym.
  - by apply num_leb_antisym.
Qed.

Lemma betterOrEqual_Eq_l (order : JsVal) (a b x : number) :
  num_compare a b = Some Eq -> betterOrEqual order a x = betterOrEqual order b x.
Proof.
  intros E. unfold betterOrEqual, num_leb.
  by rewrite (num_compare_Eq_l a b x E), (num_compare_Eq_r a b x E).
Qed.

Lemma betterOrEqual_Eq_r (order : JsVal) (a b x : number) :
  num_compare a b = Some Eq -> betterOrEqual order x a = betterOrEqual order x b.
Proof.
  intros E. unfold betterOrEqual, num_leb.
  by rewrite (num_compare_Eq_l a b x E), (num_compare_Eq_r a b x E).
Qed.

Lemma filter_all {A} (f : A -> bool) (l : list A) :
  Forall (fun x => f x = true) l -> List.filter f l = l.
Proof. induction 1 as [|x l Hx _ IH]; simpl; [done|]. by rewrite Hx, IH. Qed.

Lemma filter_none {A} (f : A -> bool) (l : list A) :
  Forall (fun x => f x = false) l -> List.filter f l = [].
Proof. induction 1 as [|x l Hx _ IH]; simpl; [done|]. by rewrite Hx, IH. Qed.

Lemma filter_sorted_prefix {A} (R : A -> A -> Prop) (f : A -> bool) (l : list A) :
  StronglySorted R l ->
  (forall a b, R a b -> f b = true -> f a = true) ->
  List.filter f l = take (length (List.filter f l)) l.
Proof.
  intros Hs Hf. induction Hs as [|x l Hs IH Hx]; simpl; [done|].
  destruct (f x) eqn:E; simpl; [by rewrite <- IH|].
  rewrite filter_none; [done|].
  eapply Forall_impl; [exact Hx|]. intros y Hxy. simpl in Hxy.
  destruct (f y) eqn:Ey; [|done]. by rewrite (Hf x y Hxy Ey) in E.
Qed.

Lemma length_filter_map {A B} (f : B -> bool) (g : A -> B) (l : list A) :
  length (List.filter f (map g l)) = length (List.filter (fun x => f (g x)) l).
Proof. induction l as [|x l IH]; simpl; [done|]. destruct (f (g x)); simpl; by rewrite IH. Qed.

Lemma top_sorted (store : list Obj) (order : JsVal) (dataKey : string) (num : number)
    (top : list nat) :
  topResultsOf store order dataKey num (sortedValid store order dataKey) = Some top ->
  StronglySorted
    (fun a b => betterOrEqual order (score store dataKey a) (score store dataKey b) = true) top.
Proof.
  intros [f ->]%topResultsOf_filter. apply StronglySorted_filter, sortedValid_sorted.
Qed.

(** X2.  A result longer than the limit.  On a catalog of numbers, for an
    integer limit of at least 1, the result is an initial part of the sorted
    valid records, and every record of it past the limit has the very score of
    the record at position limit: only ties make a result longer than the
    limit. *)
Theorem rank_exceeds_limit_by_ties (pg : Page) (limit : nat) :
  let store := parks pg in
  let order := rankOrder (rank_type pg) in
  let dataKey := rankDataKey (rank_type pg) in
  let sorted := sortedValid store order dataKey in
  let top := ranked (snd (applyRanking pg)) in
  rank_type pg <> EmptyString ->
  parseInt (rank_number pg) = num_of_nat limit ->
  1 <= limit ->
  numericCatalog store dataKey ->
  top = take (length top) sorted
  /\ forall i p c,
       limit <= i -> top !! i = Some p -> sorted !! (limit - 1) = Some c ->
       num_compare (score store dataKey p) (score store dataKey c) = Some Eq.
Proof.
  intros store order dataKey sorted top Htype Hnum Hlimit Hcat.
  assert (top = default [] (topResultsOf store order dataKey (num_of_nat limit) sorted))
    as Htop by by apply applyRanking_accepted.
  rewrite topResultsOf_limit in Htop by done.
  pose proof (sortedValid_sorted store order dataKey) as Hsorted. fold sorted in Hsorted.
  destruct (Nat.leb_spec (length sorted) limit) as [Hle|Hgt].
  - simpl in Htop. rewrite Htop. split; [by rewrite firstn_all|].
    intros i p c Hi Hp. apply lookup_lt_Some in Hp. lia.
  - destruct (lookup_lt_is_Some_2 sorted (limit - 1)) as [c Hc]; [lia|].
    rewrite Hc in Htop. cbn [mbind option_bind default] in Htop.
    assert (forall r, r ∈ sorted -> r ∈ validParks store dataKey) as Hvalid.
    { intros r Hr. unfold sorted in Hr. by rewrite sortedValid_perm in Hr. }
    assert (top = List.filter
                    (fun p => betterOrEqual order (score store dataKey p)
                                (score store dataKey c))
                    sorted) as Htop'.
    { rewrite Htop. apply filter_ext_in. intros p Hp.
      apply cut_compares_scores; [done| |].
      - by apply Hvalid, list_elem_of_In.
      - apply Hvalid. by eapply list_elem_of_lookup_2. }
    assert (top = take (length top) sorted) as Hprefix.
    { rewrite Htop' at 1. rewrite Htop'.
      apply (filter_sorted_prefix _ _ _ Hsorted).
      intros a b Hab Hbc. by eapply betterOrEqual_trans. }
    split; [done|].
    intros i p c' Hi Hp Hc'. assert (c' = c) as -> by congruence.
    apply (betterOrEqual_antisym order).
    + assert (p ∈ top) as Hin by by eapply list_elem_of_lookup_2.
      rewrite Htop' in Hin. by apply list_elem_of_In, filter_In in Hin as [_ ?].
    + rewrite Hprefix in Hp. apply lookup_take_Some in Hp as [Hp _].
      apply (StronglySorted_lookup _ sorted (limit - 1) i c p Hsorted); [lia|done|done].
Qed.

(** ** Ranking: what a displayRank counts *)

Lemma denseRanks_head (cr : nat) (prev prev' : JsVal) (vals : list JsVal) :
  denseRanks 0 cr prev vals = denseRanks 0 cr prev' vals.
Proof. by destruct vals. Qed.

Lemma denseRanks_length (vals : list JsVal) (index cr : nat) (prev : JsVal) :
  length (denseRanks index cr prev vals) = length vals.
Proof.
  revert index cr prev. induction vals as [|v vals IH]; intros; simpl; [done|].
  by rewrite IH.
Qed.

Lemma denseRanks_count (order : JsVal) (xs : list number) (prev : JsVal) (j : nat)
    (x : number) :
  Forall (fun x => isNaN x = false) xs ->
  StronglySorted (fun a b => betterOrEqual order a b = true) xs ->
  xs !! j = Some x ->
  denseRanks 0 1 prev (map JNum xs) !! j
  = Some (1 + length (List.filter (fun y => strictlyBetter order y x) xs)).
Proof.
  intros xs_numbers xs_sorted. revert x. induction j as [|j IH]; intros x Hx.
  - assert (denseRanks 0 1 prev (map JNum xs) !! 0 = Some 1) as ->.
    { destruct xs; [done|]. done. }
    f_equal. rewrite filter_none; [done|].
    apply Forall_forall. intros y Hy. unfold strictlyBetter.
    apply list_elem_of_lookup in Hy as [k Hk].
    destruct k as [|k].
    + assert (y = x) as -> by congruence. by destruct (betterOrEqual order x x).
    + assert (betterOrEqual order x y = true) as ->; [|by rewrite andb_false_r].
      apply (StronglySorted_lookup (fun a b => betterOrEqual order a b = true) xs 0 (S k) x y); [done|lia|done|done].
  - destruct (lookup_lt_is_Some_2 xs j) as [w Hw]; [apply lookup_lt_Some in Hx; lia|].
    specialize (IH w Hw).
    destruct (lookup_lt_is_Some_2 (denseRanks 0 1 prev (map JNum xs)) (S j)) as [b Hb].
    { rewrite denseRanks_length, length_map. by apply lookup_lt_Some in Hx. }
    destruct (denseRanks_step (map JNum xs) 0 1 prev j
                (1 + length (List.filter (fun y => strictlyBetter order y w) xs)) b
                (JNum w) (JNum x))
      as [_ Hstep]; [simpl; lia|exact IH|exact Hb| | |].
    { by rewrite list_lookup_fmap, Hw. }
    { by rewrite list_lookup_fmap, Hx. }
    rewrite Hb. f_equal. rewrite Hstep.
    assert (betterOrEqual order w x = true) as Hwx
      by (apply (StronglySorted_lookup (fun a b => betterOrEqual order a b = true) xs j (S j) w x); [done|lia|done|done]).
    simpl strict_equal.
    destruct (decide (num_compare x w = Some Eq)) as [Ecmp|Ecmp].
    { rewrite Ecmp. f_equal. f_equal. apply filter_ext. intros y. unfold strictlyBetter.
      by rewrite (betterOrEqual_Eq_l order x w y Ecmp), (betterOrEqual_Eq_r order x w y Ecmp). }
    assert (match num_compare x w with Some Eq => true | _ => false end = false) as ->
      by by destruct (num_compare x w) as [[]|].
    rewrite <- (take_drop (S j) xs) at 1. rewrite List.filter_app, filter_all, filter_none.
    + rewrite app_nil_r, length_take. apply lookup_lt_Some in Hx. lia.
    + apply Forall_forall. intros y Hy. apply list_elem_of_lookup in Hy as [k Hk].
      rewrite lookup_drop in Hk. unfold strictlyBetter.
      destruct k as [|k].
      { replace (S j + 0) with (S j) in Hk by lia. assert (y = x) as -> by congruence.
        by destruct (betterOrEqual order x x). }
      assert (betterOrEqual order x y = true) as ->; [|by rewrite andb_false_r].
      apply (StronglySorted_lookup (fun a b => betterOrEqual order a b = true) xs
               (S j) (S j + S k) x y); [done|lia|done|done].
    + apply Forall_forall. intros y Hy. apply list_elem_of_lookup in Hy as [k Hk].
      apply lookup_take_Some in Hk as [Hk Hlt]. unfold strictlyBetter.
      assert (betterOrEqual order y x = true) as ->
        by (apply (StronglySorted_lookup (fun a b => betterOrEqual order a b = true) xs
                     k (S j) y x); [done|lia|done|done]).
      simpl. destruct (betterOrEqual order x y) eqn:Exy; [|done].
      assert (betterOrEqual order y w = true) as Hyw.
      { destruct (decide (k = j)) as [->|Hne].
        - assert (y = w) as -> by congruence. apply betterOrEqual_refl.
          rewrite Forall_forall in xs_numbers. apply xs_numbers.
          by eapply list_elem_of_lookup_2.
        - apply (StronglySorted_lookup (fun a b => betterOrEqual order a b = true) xs
                   k j y w); [done|lia|done|done]. }
      exfalso. apply Ecmp.
      apply (betterOrEqual_antisym order); [|done]. by eapply betterOrEqual_trans.
Qed.

(** What a ranking run leaves in the records it ranked. *)
Lemma applyRanking_displayRanks (pg pg' : Page) (top : list nat) :
  let dataKey := rankDataKey (rank_type pg) in
  applyRanking pg = (pg', ShowTieModal top) ->
  dataKey <> "displayRank" ->
  (forall r k, k <> "displayRank" -> field (parks pg') r k = field (parks pg) r k)
  /\ forall prev j r, top !! j = Some r ->
       exists n,
         denseRanks 0 1 prev (map (fun r => field (parks pg) r dataKey) top) !! j = Some n
         /\ field (parks pg') r "displayRank" = JNum (num_of_nat n).
Proof.
  intros dataKey Hrun Hkey.
  apply applyRanking_inv in Hrun as (Htop & Hne & Hparks).
  change (parks pg' = assignDisplayRank dataKey top top 0 1 (parks pg)) in Hparks.
  apply topResults_wf in Htop as [Hnd Hvalid].
  assert (forall r, r ∈ top -> r < length (parks pg)) as Hbound.
  { intros r Hr. by apply Hvalid, validParks_spec in Hr as [? _]. }
  split.
  - intros r k Hk. unfold field, park.
    destruct (assignDisplayRank_frame dataKey top top 0 1 (parks pg)) as (Hlen & Hpres).
    destruct (parks pg !! r) as [o|] eqn:Ho.
    + destruct (Hpres r o Ho) as (o' & Ho' & Hsame & _).
      rewrite Hparks, Ho'. unfold get. simpl. by rewrite Hsame.
    + rewrite Hparks. apply lookup_ge_None in Ho.
      rewrite (proj2 (lookup_ge_None _ _)); [done|]. by rewrite Hlen.
  - intros prev j r Hj.
    pose proof (assignDisplayRank_ranks dataKey top Hkey Hnd top [] 0 1 (parks pg)
                  eq_refl eq_refl Hbound j r Hj) as (n & Hn & Hf).
    exists n. rewrite <- Hparks in Hf. split; [|done].
    rewrite <- Hn. f_equal. apply denseRanks_head.
Qed.

(** X3.  What a displayRank counts.  On a catalog of numbers the displayRank
    of a ranked record is one more than the number of ranked records whose
    score is strictly better: 1, 2, 2, 4 and so on. *)
Theorem rank_counts_strictly_better (pg pg' : Page) (top : list nat) (p : nat) :
  let store := parks pg in
  let order := rankOrder (rank_type pg) in
  let dataKey := rankDataKey (rank_type pg) in
  applyRanking pg = (pg', ShowTieModal top) ->
  dataKey <> "displayRank" ->
  numericCatalog store dataKey ->
  p ∈ top ->
  field (parks pg') p "displayRank"
  = JNum (num_of_nat
            (1 + length (List.filter
                           (fun q => strictlyBetter order (score store dataKey q)
                                       (score store dataKey p))
                           top))).
Proof.
  intros store order dataKey Hrun Hkey Hcat Hp.
  destruct (applyRanking_displayRanks pg pg' top Hrun Hkey) as [_ Hranks].
  apply applyRanking_inv in Hrun as (Htop & _ & _).
  pose proof (top_sorted _ _ _ _ _ Htop) as Hsorted.
  apply topResults_wf in Htop as [_ Hvalid].
  assert (map (fun r => field store r dataKey) top
          = map JNum (map (score store dataKey) top)) as Hvals.
  { rewrite map_map. apply map_ext_in. intros r Hr%list_elem_of_In.
    apply Hvalid, validParks_spec in Hr as [Hlt Hscore].
    apply lookup_lt_is_Some in Hlt as [o Ho].
    pose proof (Hcat o (list_elem_of_lookup_2 _ _ _ Ho)) as Hmodel.
    unfold hasScore in Hscore. unfold score.
    change (parks pg) with store in Hscore, Ho.
    change (rankDataKey (rank_type pg)) with dataKey in Hscore.
    rewrite (field_lookup _ _ _ dataKey Ho) in Hscore.
    rewrite (field_lookup _ _ _ dataKey Ho).
    by destruct (get o dataKey). }
  apply list_elem_of_lookup in Hp as [j Hj].
  destruct (Hranks JUndefined j p Hj) as (n & Hn & ->).
  fold store dataKey in Hn. rewrite Hvals in Hn.
  rewrite (denseRanks_count order _ JUndefined j (score store dataKey p)) in Hn.
  - injection Hn as <-. by rewrite length_filter_map.
  - apply Forall_forall. intros x Hx. apply list_elem_of_In, in_map_iff in Hx as (r & <- & Hr).
    apply list_elem_of_In, Hvalid, validParks_spec in Hr as [_ Hscore].
    by apply hasScore_not_NaN.
  - eapply StronglySorted_fmap; [|exact Hsorted]. by intros a b.
  - by rewrite list_lookup_fmap, Hj.
Qed.

(** ** Ranking: a second run *)

Section SameScores.
Context (s1 s2 : list Obj) (order : JsVal) (dataKey : string).
Hypothesis same_length : length s1 = length s2.
Hypothesis same_field : forall r, field s1 r dataKey = field s2 r dataKey.

Lemma validParks_same : validParks s1 dataKey = validParks s2 dataKey.
Proof.
  unfold validParks. rewrite same_length. apply filter_ext. intros r.
  unfold hasScore. by rewrite same_field.
Qed.

Lemma sort_ext {A} (f g : A -> A -> number) (l : list A) :
  (forall a b, f a b = g a b) -> sort f l = sort g l.
Proof.
  intros Hfg. induction l as [|x l IH]; simpl; [done|]. rewrite IH.
  generalize (sort g l). intros l'. induction l' as [|y l' IH']; simpl; [done|].
  unfold sorts_after, SortCompare. by rewrite Hfg, IH'.
Qed.

Lemma sortedValid_same : sortedValid s1 order dataKey = sortedValid s2 order dataKey.
Proof.
  unfold sortedValid. rewrite validParks_same. apply sort_ext.
  intros a b. unfold byScore. by rewrite !same_field.
Qed.

Lemma topResultsOf_same (num : number) (valid : list nat) :
  topResultsOf s1 order dataKey num valid = topResultsOf s2 order dataKey num valid.
Proof.
  unfold topResultsOf. destruct (js_le _ _); [done|].
  destruct (array_index _); [|done]. destruct (valid !! _); [|done].
  f_equal. apply filter_ext. intros p. by rewrite !same_field.
Qed.
End SameScores.

Lemma assignDisplayRank_again (pg pg' : Page) (top : list nat) :
  let dataKey := rankDataKey (rank_type pg) in
  applyRanking pg = (pg', ShowTieModal top) ->
  dataKey <> "displayRank" ->
  assignDisplayRank dataKey top top 0 1 (parks pg') = parks pg'.
Proof.
  intros dataKey Hrun Hkey.
  destruct (applyRanking_displayRanks pg pg' top Hrun Hkey) as [Hsame Hranks].
  pose proof Hrun as (Htop & _ & Hparks)%applyRanking_inv.
  change (parks pg' = assignDisplayRank dataKey top top 0 1 (parks pg)) in Hparks.
  apply topResults_wf in Htop as [Hnd Hvalid].
  destruct (assignDisplayRank_frame dataKey top top 0 1 (parks pg)) as (Hlen & Hpres).
  rewrite <- Hparks in Hlen, Hpres.
  assert (forall r, r ∈ top -> r < length (parks pg')) as Hbound.
  { intros r Hr. rewrite Hlen. by apply Hvalid, validParks_spec in Hr as [? _]. }
  destruct (assignDisplayRank_frame dataKey top top 0 1 (parks pg')) as (Hlen' & Hpres').
  apply list_eq. intros r.
  destruct (parks pg' !! r) as [o'|] eqn:Ho'.
  - destruct (Hpres' r o' Ho') as (o'' & Ho'' & Hkeys & Hout & Hin).
    rewrite Ho''. f_equal.
    destruct (decide (r ∈ top)) as [Hr|Hr]; [|by apply Hout].
    apply map_eq. intros k.
    destruct (decide (k = "displayRank")) as [->|Hk]; [|by apply Hkeys].
    destruct (Hin Hr) as [n2 Hn2].
    assert (is_Some (parks pg !! r)) as [o Ho].
    { apply lookup_lt_is_Some. rewrite <- Hlen. by eapply lookup_lt_Some. }
    destruct (Hpres r o Ho) as (o1 & Ho1 & _ & _ & Hin1).
    assert (o1 = o') as -> by congruence.
    destruct (Hin1 Hr) as [n1 Hn1].
    apply list_elem_of_lookup in Hr as [j Hj].
    destruct (Hranks JUndefined j r Hj) as (n & Hn & Hfield).
    pose proof (assignDisplayRank_ranks dataKey top Hkey Hnd top [] 0 1 (parks pg')
                  eq_refl eq_refl Hbound j r Hj) as (n' & Hn' & Hfield').
    assert (map (fun r => field (parks pg') r dataKey) top
            = map (fun r => field (parks pg) r dataKey) top) as Hvals
      by (apply map_ext; intros; by apply Hsame).
    rewrite Hvals, (denseRanks_head _ _ JUndefined) in Hn'.
    fold dataKey in Hn. assert (n' = n) as -> by congruence.
    unfold field, park in Hfield, Hfield'. rewrite Ho' in Hfield. rewrite Ho'' in Hfield'.
    unfold get in Hfield, Hfield'. simpl in Hfield, Hfield'.
    rewrite Hn1 in Hfield. rewrite Hn2 in Hfield'. simpl in Hfield, Hfield'.
    rewrite Hn1, Hn2. congruence.
  - apply lookup_ge_None. rewrite Hlen'. by apply lookup_ge_None.
Qed.

(** X4.  Ranking twice.  Run on the page it has left, [applyRanking] gives
    the same outcome and leaves the page as it is: the displayRank it wrote
    changes nothing of the ranking, as long as the ranked metric is not
    displayRank itself. *)
Theorem rank_again_changes_nothing (pg : Page) :
  rankDataKey (rank_type pg) <> "displayRank" ->
  applyRanking (fst (applyRanking pg)) = applyRanking pg.
Proof.
  intros Hkey.
  destruct (applyRanking pg) as [pg' out] eqn:Hrun. simpl.
  destruct out as [| | | |top].
  5: {
    pose proof (assignDisplayRank_again pg pg' top Hrun Hkey) as Hfix.
    destruct (applyRanking_displayRanks pg pg' top Hrun Hkey) as [Hsame _].
    pose proof Hrun as (Htop & Hne & Hparks)%applyRanking_inv.
    revert Hrun. unfold applyRanking.
    destruct (negb (ToBoolean (JStr (rank_type pg)))) eqn:E1; [done|].
    destruct (_ || _) eqn:E2; [done|].
    cbn [parks clearSearchArtifacts with_searchCircle with_userMarker with_currentExportData].
    rewrite Htop.
    destruct (length top =? 0)%nat eqn:E3; [done|].
    intros [= <-].
    cbn [parks rank_type rank_number with_parks clearSearchArtifacts with_searchCircle
         with_userMarker with_currentExportData].
    rewrite E1, E2.
    set (final := assignDisplayRank _ top top 0 1 (parks pg)) in *.
    assert (length final = length (parks pg)) as Hlen
      by apply assignDisplayRank_frame.
    rewrite (sortedValid_same final (parks pg)); [|done|by intros; apply Hsame].
    rewrite (topResultsOf_same final (parks pg)); [|by intros; apply Hsame].
    rewrite Htop, E3.
    cbn [parks with_parks] in Hfix. rewrite Hfix. done. }
  all: revert Hrun; unfold applyRanking;
    destruct (negb (ToBoolean (JStr (rank_type pg)))) eqn:E1;
    [intros [= <-]; by rewrite ?E1|];
    destruct (_ || _) eqn:E2;
    [intros [= <-];
     cbn [rank_type rank_number with_currentExportData]; by rewrite ?E1, ?E2|];
    cbn [parks clearSearchArtifacts with_searchCircle with_userMarker with_currentExportData];
    destruct (topResultsOf _ _ _ _ _) as [top|] eqn:E3;
    [destruct (length top =? 0)%nat eqn:E4; [|done]|];
    intros [= <-];
    cbn [parks rank_type rank_number with_parks clearSearchArtifacts with_searchCircle
         with_userMarker with_currentExportData];
    rewrite ?E1, ?E2, ?E3, ?E4; done.
Qed.

(** ** The colours of the ranks *)

Lemma array_index_Qeq (q : Q) (z : Z) :
  (q == inject_Z z)%Q -> (0 <= z)%Z -> array_index (Fin q) = Some (Z.to_nat z).
Proof.
  intros Hq Hz. unfold array_index.
  assert ((Qnum q / Zpos (Qden q))%Z = z) as ->.
  { unfold Qeq in Hq. simpl in Hq. rewrite Z.mul_1_r in Hq. rewrite Hq.
    by apply Z.div_mul. }
  assert (Qeq_bool q (inject_Z z) = true) as -> by by apply Qeq_bool_iff.
  by assert ((0 <=? z)%Z = true) as -> by by apply Z.leb_le.
Qed.

Lemma num_rem_nonneg (a b : Z) :
  (0 <= a)%Z -> (0 < b)%Z ->
  exists q, num_rem (Fin (inject_Z a - 1 + 1)) (num_of_Z b) = Fin q
            /\ (q == inject_Z (a mod b))%Q.
Proof.
  intros Ha Hb. unfold num_rem, num_of_Z.
  assert (Qzero (inject_Z b) = false) as ->.
  { unfold Qzero. change 0%Q with (inject_Z 0). rewrite Qcompare_inject_Z.
    by destruct (Z.compare_spec b 0); try lia. }
  eexists. split; [done|].
  assert ((inject_Z a - 1 + 1 == inject_Z a)%Q) as E by ring.
  assert (truncate ((inject_Z a - 1 + 1) / inject_Z b) = (a / b)%Z) as ->.
  { unfold truncate.
    assert (((inject_Z a - 1 + 1) / inject_Z b == inject_Z a / inject_Z b)%Q) as E'
      by by rewrite E.
    assert (Qnegative ((inject_Z a - 1 + 1) / inject_Z b) = false) as ->.
    { unfold Qnegative. rewrite E'.
      destruct (Qcompare_cases (inject_Z a / inject_Z b) 0) as [[_ H]|[[-> _]|[-> _]]];
        [|done|done].
      exfalso. apply (Qlt_not_le _ _ H). apply Qle_shift_div_l.
      - change 0%Q with (inject_Z 0). rewrite <- Zlt_Qlt. done.
      - rewrite Qmult_0_l. change 0%Q with (inject_Z 0). by rewrite <- Zle_Qle. }
    rewrite E'. by rewrite <- Zdiv_Qdiv. }
  rewrite E. rewrite (Z.mod_eq a b) by lia.
  unfold Qeq. simpl. lia.
Qed.

Lemma element_Qeq (a : list string) (q : Q) (z : Z) :
  (q == inject_Z z)%Q -> (0 <= z)%Z ->
  element a (Fin q) = match a !! Z.to_nat z with Some s => JStr s | None => JUndefined end.
Proof. intros Hq Hz. unfold element. by rewrite (array_index_Qeq q z). Qed.

(** Both scripts read the palette at [(displayRank - 1) mod 20]. *)
Lemma colorKey_index (n : nat) :
  1 <= n ->
  let i := (n - 1) mod length rankColorMap in
  colorKey (JNum (num_of_nat n)) = match rankColorMap !! i with Some s => JStr s | None => JUndefined end
  /\ colorKey_ui (JNum (num_of_nat n)) = match rankColorMap !! i with Some s => JStr s | None => JUndefined end.
Proof.
  intros Hn i.
  assert (Z.to_nat ((Z.of_nat n - 1) mod 20) = i) as Hi.
  { unfold i. change (length rankColorMap) with 20.
    rewrite <- (Nat2Z.id ((n - 1) mod 20)). f_equal.
    rewrite Nat2Z.inj_mod, Nat2Z.inj_sub by lia. done. }
  assert (js_sub (JNum (num_of_nat n)) (JNum (Fin 1))
          = Fin (inject_Z (Z.of_nat n - 1) - 1 + 1)) as Hsub.
  { unfold js_sub, num_of_nat, num_of_Z. simpl. f_equal.
    unfold Qminus, Qplus, Qopp, inject_Z. simpl. f_equal. lia. }
  destruct (num_rem_nonneg (Z.of_nat n - 1) 20) as (q & Hrem & Hq); [lia|lia|].
  assert (element rankColorMap (num_rem (js_sub (JNum (num_of_nat n)) (JNum (Fin 1)))
                                  (num_of_nat (length rankColorMap)))
          = match rankColorMap !! i with Some s => JStr s | None => JUndefined end) as Hui.
  { rewrite Hsub. change (num_of_nat (length rankColorMap)) with (num_of_Z 20).
    rewrite Hrem, (element_Qeq _ q _ Hq), Hi; [done|].
    apply Z.mod_pos_bound. lia. }
  split; [|exact Hui].
  unfold colorKey. cbv zeta.
  destruct (js_ge _ _) eqn:Hge; [exact Hui|].
  rewrite Hsub in Hge |- *. rewrite js_ge_numbers in Hge.
  assert ((Z.of_nat n - 1 < 20)%Z) as Hlt.
  { change (num_of_nat (length rankColorMap)) with (num_of_Z 20) in Hge.
    unfold num_leb, num_of_Z in Hge. cbn [num_compare] in Hge.
    assert ((inject_Z (Z.of_nat n - 1) - 1 + 1 == inject_Z (Z.of_nat n - 1))%Q) as E by ring.
    rewrite E, Qcompare_inject_Z in Hge.
    destruct (Z.compare_spec 20 (Z.of_nat n - 1)); [done|done|lia]. }
  rewrite (element_Qeq _ _ (Z.of_nat n - 1)); [|ring|lia].
  rewrite <- Hi. by rewrite Z.mod_small by lia.
Qed.

Lemma palette_complete (i : nat) :
  i < length rankColorMap ->
  exists c hex url,
    rankColorMap !! i = Some c /\ rankHexMap !! c = Some hex /\ icons !! c = Some url.
Proof.
  intros Hi. change (length rankColorMap) with 20 in Hi.
  do 20 (destruct i as [|i]; [vm_compute; by do 3 eexists|]). lia.
Qed.

Lemma palette_distinct (i j : nat) (c d : string) :
  rankColorMap !! i = Some c -> rankColorMap !! j = Some d ->
  rankHexMap !! c = rankHexMap !! d -> i = j.
Proof.
  intros Hi Hj.
  assert (i < 20) as Hilt by (apply lookup_lt_Some in Hi; exact Hi).
  assert (j < 20) as Hjlt by (apply lookup_lt_Some in Hj; exact Hj).
  assert (forallb (fun i => forallb (fun j =>
            implb
              (bool_decide ((rankColorMap !! i ≫= fun c => rankHexMap !! c)
                            = (rankColorMap !! j ≫= fun c => rankHexMap !! c)))
              (bool_decide (i = j))) (seq 0 20)) (seq 0 20) = true) as Hall
    by (vm_compute; reflexivity).
  rewrite forallb_forall in Hall.
  specialize (Hall i). rewrite forallb_forall in Hall.
  intros Heq.
  assert (bool_decide ((rankColorMap !! i ≫= fun c => rankHexMap !! c)
                       = (rankColorMap !! j ≫= fun c => rankHexMap !! c)) = true) as Hb.
  { apply bool_decide_eq_true. by rewrite Hi, Hj. }
  specialize (Hall ltac:(apply in_seq; lia) j ltac:(apply in_seq; lia)).
  rewrite Hb in Hall. simpl in Hall. by apply bool_decide_eq_true in Hall.
Qed.

Lemma hexColor_lookup (c hex : string) :
  rankHexMap !! c = Some hex -> hexColor (JStr c) = JStr hex.
Proof. intros H. unfold hexColor, property. cbn [ToString]. rewrite H. reflexivity. Qed.

Lemma hexColor_colorKey (m : nat) :
  1 <= m ->
  exists d hex,
    rankColorMap !! ((m - 1) mod 20) = Some d
    /\ rankHexMap !! d = Some hex
    /\ colorKey (JNum (num_of_nat m)) = JStr d
    /\ colorKey_ui (JNum (num_of_nat m)) = JStr d
    /\ hexColor (colorKey (JNum (num_of_nat m))) = JStr hex.
Proof.
  intros Hm.
  destruct (colorKey_index m Hm) as [Hk Hui]. cbv zeta in Hk, Hui.
  change (length rankColorMap) with 20 in Hk, Hui.
  destruct (palette_complete ((m - 1) mod 20)) as (d & hex & _ & Hd & Hhex & _).
  { change (length rankColorMap) with 20. apply Nat.mod_upper_bound. lia. }
  rewrite Hd in Hk, Hui. exists d, hex.
  split; [exact Hd|]. split; [exact Hhex|]. split; [exact Hk|]. split; [exact Hui|].
  rewrite Hk. by apply hexColor_lookup.
Qed.

(** X5.  The colour of a rank.  For a displayRank of at least 1 the
    [showTieModal] of ranking.js, that of ui.js and the marker timer read the
    same entry of the palette, the one at (rank - 1) mod 20; that colour has a
    hex value and a marker icon; and another rank gets the same hex colour
    exactly when the two differ by a multiple of 20. *)
Theorem rank_colour_defined (n : nat) :
  1 <= n ->
  exists c hex url,
    rankColorMap !! ((n - 1) mod 20) = Some c
    /\ colorKey (JNum (num_of_nat n)) = JStr c
    /\ colorKey_ui (JNum (num_of_nat n)) = JStr c
    /\ hexColor (JStr c) = JStr hex
    /\ icons !! c = Some url
    /\ forall m, 1 <= m ->
         (hexColor (colorKey (JNum (num_of_nat m))) = JStr hex
          <-> (m - 1) mod 20 = (n - 1) mod 20).
Proof.
  intros Hn.
  destruct (hexColor_colorKey n Hn) as (c & hex & Hc & Hhex & Hk & Hui & _).
  destruct (palette_complete ((n - 1) mod 20)) as (c' & _ & url & Hc' & _ & Hurl).
  { change (length rankColorMap) with 20. apply Nat.mod_upper_bound. lia. }
  assert (c' = c) as -> by congruence.
  exists c, hex, url.
  split; [exact Hc|]. split; [exact Hk|]. split; [exact Hui|].
  split; [by apply hexColor_lookup|]. split; [exact Hurl|].
  intros m Hm.
  destruct (hexColor_colorKey m Hm) as (d & hex' & Hd & Hhex' & _ & _ & Hhc).
  rewrite Hhc. split.
  - intros [= ->]. apply (palette_distinct _ _ d c Hd Hc). congruence.
  - intros E. rewrite E in Hd. congruence.
Qed.

(** ** The tie note of the ranking modal *)

Lemma strict_equal_nat (n m : nat) :
  strict_equal (JNum (num_of_nat n)) (JNum (num_of_nat m)) = true <-> n = m.
Proof.
  unfold strict_equal, num_of_nat, num_of_Z. cbn [num_compare].
  rewrite Qcompare_inject_Z.
  destruct (Z.compare_spec (Z.of_nat n) (Z.of_nat m)); split; try done; lia.
Qed.

(** Two neighbours of a ranked result carry the same [displayRank] exactly
    when their metric values are strictly equal. *)
Lemma applyRanking_neighbours (pg pg' : Page) (top : list nat) (i p q : nat) :
  let dataKey := rankDataKey (rank_type pg) in
  applyRanking pg = (pg', ShowTieModal top) ->
  dataKey <> "displayRank" ->
  top !! i = Some p -> top !! S i = Some q ->
  strict_equal (field (parks pg') q "displayRank") (field (parks pg') p "displayRank")
  = strict_equal (field (parks pg) q dataKey) (field (parks pg) p dataKey).
Proof.
  intros dataKey Hrun Hkey Hp Hq.
  destruct (applyRanking_displayRanks pg pg' top Hrun Hkey) as [_ Hranks].
  destruct (Hranks JUndefined i p Hp) as (rp & Hrp & ->).
  destruct (Hranks JUndefined (S i) q Hq) as (rq & Hrq & ->).
  fold dataKey in Hrp, Hrq.
  destruct (denseRanks_step _ 0 1 JUndefined i rp rq
              (field (parks pg) p dataKey) (field (parks pg) q dataKey) ltac:(simpl; lia)
              Hrp Hrq)
    as [Hle Heq].
  { by rewrite list_lookup_fmap, Hp. }
  { by rewrite list_lookup_fmap, Hq. }
  destruct (strict_equal (field (parks pg) q dataKey) (field (parks pg) p dataKey)).
  - by apply strict_equal_nat.
  - apply not_true_is_false. rewrite strict_equal_nat. lia.
Qed.

Lemma hasTies_ui_spec (store : list Obj) (results : list nat) :
  hasTies_ui store results = true <->
  exists i p q,
    results !! i = Some p /\ results !! S i = Some q
    /\ strict_equal (field store q "displayRank") (field store p "displayRank") = true.
Proof.
  induction results as [|p [|q rest] IH].
  - split; [done|]. by intros (i & p & q & ? & _).
  - split; [done|]. intros (i & p' & q & _ & Hq & _). by destruct i.
  - change (hasTies_ui store (p :: q :: rest))
      with (if strict_equal (field store q "displayRank") (field store p "displayRank")
            then true else hasTies_ui store (q :: rest)).
    destruct (strict_equal _ _) eqn:E.
    + split; [|done]. intros _. by exists 0, p, q.
    + rewrite IH. split.
      * intros (i & p' & q' & Hp & Hq & H). by exists (S i), p', q'.
      * intros (i & p' & q' & Hp & Hq & H). destruct i as [|i].
        { simpl in Hp, Hq. congruence. }
        by exists i, p', q'.
Qed.

Lemma hasTies_ui_ranked (pg pg' : Page) (top : list nat) :
  applyRanking pg = (pg', ShowTieModal top) ->
  rankDataKey (rank_type pg) <> "displayRank" ->
  hasTies_ui (parks pg') top = true <->
  exists i p q,
    top !! i = Some p /\ top !! S i = Some q
    /\ strict_equal (field (parks pg) q (rankDataKey (rank_type pg)))
         (field (parks pg) p (rankDataKey (rank_type pg))) = true.
Proof.
  intros Hrun Hkey. rewrite hasTies_ui_spec.
  split; intros (i & p & q & Hp & Hq & H); exists i, p, q; (split; [done|]); (split; [done|]);
    pose proof (applyRanking_neighbours pg pg' top i p q Hrun Hkey Hp Hq) as E;
    cbv zeta in E; congruence.
Qed.

(** *** The set of the scores *)

Lemma foldl_setAdd_length (s l : list JsVal) :
  length (foldl setAdd s l) <= length s + length l.
Proof.
  revert s. induction l as [|v l IH]; intros s; simpl; [lia|].
  specialize (IH (setAdd s v)). unfold setAdd in *.
  destruct (existsb _ s); [lia|]. rewrite length_app in IH. simpl in IH. lia.
Qed.

Lemma foldl_setAdd_full (s l : list JsVal) :
  length (foldl setAdd s l) = length s + length l <->
  Forall (fun v => existsb (sameValueZero v) s = false) l
  /\ StronglySorted (fun v w => sameValueZero w v = false) l.
Proof.
  revert s. induction l as [|v l IH]; intros s; simpl.
  - split; [intros _; split; constructor|lia].
  - pose proof (foldl_setAdd_length (setAdd s v) l) as Hle.
    specialize (IH (setAdd s v)). unfold setAdd in *.
    rewrite Forall_cons, StronglySorted_cons.
    destruct (existsb (sameValueZero v) s) eqn:E.
    + split; [lia|]. by intros [[? _] _].
    + rewrite length_app in IH. simpl in IH.
      replace (length s + S (length l)) with (length s + 1 + length l) by lia.
      rewrite IH. rewrite !Forall_forall.
      split.
      * intros [Hall Hs]. repeat split; [| |done].
        -- intros w Hw. specialize (Hall w Hw). rewrite existsb_app in Hall.
           by apply orb_false_elim in Hall as [? _].
        -- intros w Hw. specialize (Hall w Hw). rewrite existsb_app in Hall.
           apply orb_false_elim in Hall as [_ Hall]. simpl in Hall.
           by rewrite orb_false_r in Hall.
      * intros [[_ Hall] [Hv Hs]]. split; [|done].
        intros w Hw. rewrite existsb_app, (Hall w Hw). simpl.
        by rewrite (Hv w Hw).
Qed.

Lemma hasTies_spec (store : list Obj) (data : list nat) (key : string) :
  hasTies store data key = false <->
  StronglySorted (fun v w => sameValueZero w v = false)
    (map (fun p => field store p key) data).
Proof.
  unfold hasTies, newSet. rewrite negb_false_iff, Nat.eqb_eq.
  rewrite (foldl_setAdd_full [] _). simpl. split; [by intros [_ ?]|].
  intros Hs. split; [|done]. by apply Forall_forall.
Qed.

(** Among numbers in order, all are different as soon as neighbours are. *)
Lemma sorted_distinct (order : JsVal) (xs : list number) :
  Forall (fun x => isNaN x = false) xs ->
  StronglySorted (fun a b => betterOrEqual order a b = true) xs ->
  (forall i a b, xs !! i = Some a -> xs !! S i = Some b ->
     strict_equal (JNum b) (JNum a) = false) ->
  StronglySorted (fun v w => sameValueZero w v = false) (map JNum xs).
Proof.
  intros Hnum Hsorted. induction Hsorted as [|x xs Hsorted IH Hx]; intros Hadj; simpl.
  - constructor.
  - apply Forall_cons in Hnum as [Hxn Hnum]. constructor.
    + apply IH; [done|]. intros i a b Ha Hb. by apply (Hadj (S i)).
    + destruct xs as [|y xs]; [constructor|].
      assert (num_compare y x <> Some Eq) as Hyx.
      { specialize (Hadj 0 x y eq_refl eq_refl). simpl in Hadj.
        by destruct (num_compare y x) as [[]|]. }
      apply Forall_forall. intros v Hv.
      apply list_elem_of_In, in_map_iff in Hv as (w & <- & Hw%list_elem_of_In).
      assert (num_compare w x <> Some Eq) as Hwx.
      { intros E.
        apply elem_of_cons in Hw as [Hw|Hw]; [apply Hyx; congruence|].
        apply Hyx. rewrite Forall_forall in Hx.
        pose proof (Hx y ltac:(left)) as Hxy.
        apply (betterOrEqual_antisym order); [|done].
        apply StronglySorted_cons in Hsorted as [Hy _]. rewrite Forall_forall in Hy.
        rewrite <- (betterOrEqual_Eq_r order w x y E). by apply Hy. }
      assert (isNaN w = false) as Hwn.
      { rewrite Forall_forall in Hnum. by apply Hnum. }
      assert (strict_equal (JNum w) (JNum x) = false) as Hse.
      { unfold strict_equal. by destruct (num_compare w x) as [[]|]. }
      unfold sameValueZero. by destruct w.
Qed.

(** X6.  The tie note.  After a ranking the loop of ui.js finds a tie
    exactly when two neighbours of the result have strictly equal metric
    values; on a catalog of numbers the test of ranking.js, which counts the
    different scores with a [Set], gives the same answer. *)
Theorem tie_note (pg pg' : Page) (top : list nat) :
  let dataKey := rankDataKey (rank_type pg) in
  applyRanking pg = (pg', ShowTieModal top) ->
  dataKey <> "displayRank" ->
  (hasTies_ui (parks pg') top = true <->
   exists i p q,
     top !! i = Some p /\ top !! S i = Some q
     /\ strict_equal (field (parks pg) q dataKey) (field (parks pg) p dataKey) = true)
  /\ (numericCatalog (parks pg) dataKey ->
      hasTies (parks pg') top dataKey = hasTies_ui (parks pg') top).
Proof.
  intros dataKey Hrun Hkey. split; [by apply hasTies_ui_ranked|]. intros Hcat.
  destruct (applyRanking_displayRanks pg pg' top Hrun Hkey) as [Hsame _].
  pose proof Hrun as (Htop & _ & _)%applyRanking_inv.
  pose proof (top_sorted _ _ _ _ _ Htop) as Hsorted.
  apply topResults_wf in Htop as [_ Hvalid].
  assert (forall r, r ∈ top ->
            field (parks pg) r dataKey = JNum (score (parks pg) dataKey r)) as Hnumber.
  { intros r Hr.
    apply Hvalid, validParks_spec in Hr as [Hlt Hscore].
    apply lookup_lt_is_Some in Hlt as [o Ho].
    pose proof (Hcat o (list_elem_of_lookup_2 _ _ _ Ho)) as Hmodel.
    unfold hasScore in Hscore. unfold score.
    change (rankDataKey (rank_type pg)) with dataKey in Hscore.
    rewrite (field_lookup _ _ _ dataKey Ho) in Hscore.
    rewrite (field_lookup _ _ _ dataKey Ho).
    by destruct (get o dataKey). }
  assert (map (fun r => field (parks pg') r dataKey) top
          = map JNum (map (score (parks pg) dataKey) top)) as Hvals.
  { rewrite map_map. apply map_ext_in. intros r Hr%list_elem_of_In.
    rewrite Hsame by done. by apply Hnumber. }
  assert (Forall (fun x => isNaN x = false) (map (score (parks pg) dataKey) top)) as Hnum.
  { apply Forall_forall. intros x Hx. apply list_elem_of_In, in_map_iff in Hx as (r & <- & Hr).
    apply list_elem_of_In, Hvalid, validParks_spec in Hr as [_ Hscore].
    by apply hasScore_not_NaN. }
  assert (StronglySorted
            (fun a b => betterOrEqual (rankOrder (rank_type pg)) a b = true)
            (map (score (parks pg) dataKey) top)) as Hsorted'.
  { eapply StronglySorted_fmap; [|exact Hsorted]. by intros a b. }
  destruct (hasTies_ui (parks pg') top) eqn:Eui.
  - apply not_false_iff_true. intros Hno. apply hasTies_spec in Hno.
    apply (hasTies_ui_ranked pg pg' top Hrun Hkey) in Eui as (i & p & q & Hp & Hq & Heq).
    rewrite Hvals in Hno.
    assert (sameValueZero (JNum (score (parks pg) dataKey q))
              (JNum (score (parks pg) dataKey p)) = false) as Hdiff.
    { apply (StronglySorted_lookup _ _ i (S i) _ _ Hno); [lia| |].
      - by rewrite !list_lookup_fmap, Hp.
      - by rewrite !list_lookup_fmap, Hq. }
    fold dataKey in Heq.
    rewrite (Hnumber p), (Hnumber q) in Heq by by eapply list_elem_of_lookup_2.
    unfold sameValueZero in Hdiff.
    destruct (score (parks pg) dataKey q), (score (parks pg) dataKey p); congruence.
  - apply hasTies_spec. rewrite Hvals.
    apply (sorted_distinct (rankOrder (rank_type pg))); [done|done|].
    intros i a b Ha Hb.
    apply list_lookup_fmap_Some in Ha as (p & -> & Hp).
    apply list_lookup_fmap_Some in Hb as (q & -> & Hq).
    apply not_true_is_false. intros Heq.
    assert (hasTies_ui (parks pg') top = true); [|congruence].
    apply (hasTies_ui_ranked pg pg' top Hrun Hkey). exists i, p, q.
    split; [done|]. split; [done|]. fold dataKey.
    by rewrite (Hnumber p), (Hnumber q) by by eapply list_elem_of_lookup_2.
Qed.

(** ** The CSV export *)

Lemma readQuotedBody_doubleQuotes (name rest : string) :
  match rest with String c _ => c <> quote | EmptyString => True end ->
  readQuotedBody (doubleQuotes name ++ String quote rest) = Some (name, rest).
Proof.
  intros Hrest. induction name as [|c name IH].
  - simpl. destruct rest as [|c rest]; [done|].
    by apply Ascii.eqb_neq in Hrest as ->.
  - cbn [doubleQuotes]. destruct (Ascii.eqb c quote) eqn:E.
    + apply Ascii.eqb_eq in E as ->.
      change (readQuotedBody (String quote (String quote (doubleQuotes name)) ++ String quote rest))
        with (match readQuotedBody (doubleQuotes name ++ String quote rest) with
              | Some (text, rest) => Some (String quote text, rest)
              | None => None
              end).
      by rewrite IH.
    + change (readQuotedBody (String c (doubleQuotes name) ++ String quote rest))
        with (if Ascii.eqb c quote
              then match (doubleQuotes name ++ String quote rest)%string with
                   | String c' s'' =>
                       if Ascii.eqb c' quote then
                         match readQuotedBody s'' with
                         | Some (text, rest) => Some (String quote text, rest)
                         | None => None
                         end
                       else Some (EmptyString, (doubleQuotes name ++ String quote rest)%string)
                   | EmptyString => Some (EmptyString, EmptyString)
                   end
              else match readQuotedBody (doubleQuotes name ++ String quote rest) with
                   | Some (text, rest) => Some (String c text, rest)
                   | None => None
                   end).
      by rewrite E, IH.
Qed.

Lemma string_app_assoc (a b c : string) : ((a ++ b) ++ c = a ++ (b ++ c))%string.
Proof.
  induction a as [|x a IH]; [done|].
  change (String x ((a ++ b) ++ c) = String x (a ++ (b ++ c)))%string. by f_equal.
Qed.

(** X7.  The name in the CSV.  The second cell of a row is the name between
    quotes, every quote in it doubled: a reader of CSV gets the name back,
    whatever its characters, and stops right behind the cell. *)
Theorem csv_name_reads_back (p : Obj) (name rest : string) (cells : list JsVal) :
  get p "name" = JStr name ->
  row p = Some cells ->
  match rest with String c _ => c <> quote | EmptyString => True end ->
  exists cell,
    cells !! 1 = Some (JStr cell)
    /\ readQuotedField (cell ++ rest) = Some (name, rest).
Proof.
  intros Hname Hrow Hrest. unfold row in Hrow. rewrite Hname in Hrow.
  unfold orEmpty in Hrow.
  destruct (ToBoolean (JStr name)) eqn:Htruthy.
  - injection Hrow as <-. eexists. split; [done|].
    unfold quoted.
    change (readQuotedField (String quote (doubleQuotes name ++ String quote EmptyString) ++ rest))
      with (readQuotedBody ((doubleQuotes name ++ String quote EmptyString) ++ rest)).
    rewrite string_app_assoc. by apply readQuotedBody_doubleQuotes.
  - injection Hrow as <-. eexists. split; [done|].
    assert (name = EmptyString) as ->.
    { simpl in Htruthy. apply negb_false_iff in Htruthy. by apply String.eqb_eq in Htruthy. }
    exact (readQuotedBody_doubleQuotes EmptyString rest Hrest).
Qed.

(** *** What the export offers after a ranking and after a search *)

Lemma findPark_Some (store : list Obj) (item fullPark : Obj) :
  findPark store item = Some fullPark ->
  exists j, store !! j = Some fullPark
            /\ ToString (get fullPark "site_id") = ToString (get item "site_id").
Proof.
  intros Hfind. apply find_some in Hfind as [Hin Heq].
  apply list_elem_of_In, list_elem_of_lookup in Hin as [j Hj].
  exists j. split; [done|]. by apply String.eqb_eq.
Qed.

Lemma findPark_self (store : list Obj) (r : nat) (o : Obj) :
  distinctSiteIds store -> store !! r = Some o -> findPark store o = Some o.
Proof.
  intros Hids Hr. destruct (findPark store o) as [o'|] eqn:Hfind.
  - destruct (findPark_Some _ _ _ Hfind) as (j & Hj & Heq).
    assert (j = r) as -> by by eapply Hids. congruence.
  - unfold findPark in Hfind.
    pose proof (find_none _ _ Hfind o) as Hnone. simpl in Hnone.
    rewrite String.eqb_refl in Hnone.
    assert (true = false); [|done]. apply Hnone.
    apply list_elem_of_In. by eapply list_elem_of_lookup_2.
Qed.

Lemma row_agree (o o' : Obj) :
  (forall k, k <> "displayRank" -> o' !! k = o !! k) -> row o' = row o.
Proof.
  intros Hsame.
  assert (forall k, k <> "displayRank" -> get o' k = get o k) as Hget
    by (intros k Hk; unfold get; by rewrite Hsame).
  unfold row. by rewrite !Hget.
Qed.

Lemma mapM_map_ext {A B C} (f : B -> option C) (g h : A -> B) (l : list A) :
  (forall x, x ∈ l -> f (g x) = f (h x)) -> mapM f (map g l) = mapM f (map h l).
Proof.
  intros Hfg. induction l as [|x l IH]; [done|]. simpl.
  rewrite (Hfg x) by left. rewrite IH; [done|].
  intros y Hy. apply Hfg. by right.
Qed.

Lemma exportData_ranked (pg : Page) :
  rank_type pg <> EmptyString ->
  currentExportData (fst (applyRanking pg)) = ExportParks (ranked (snd (applyRanking pg))).
Proof.
  intros Htype. pose proof (applyRanking_completes pg) as Hc. revert Hc.
  unfold applyRanking.
  assert (negb (ToBoolean (JStr (rank_type pg))) = false) as ->.
  { apply negb_false_iff. by apply ToBoolean_string. }
  destruct (_ || _); [done|].
  destruct (topResultsOf _ _ _ _ _) as [top|] eqn:E; [|done].
  destruct (length top =? 0)%nat eqn:E'; [|done].
  simpl. apply Nat.eqb_eq in E'. by destruct top.
Qed.

(** X8.  The export after a ranking.  With a rank type chosen and no two
    records printing the same site_id, [exportParksToCSV] after [applyRanking]
    shows the no-data modal when nothing was ranked (a refused limit
    included), and otherwise writes one row per ranked record, in the order
    of the ranking, with the cells the record had before it was ranked. *)
Theorem export_after_ranking (pg : Page) :
  let pg' := fst (applyRanking pg) in
  let top := ranked (snd (applyRanking pg)) in
  rank_type pg <> EmptyString ->
  distinctSiteIds (parks pg) ->
  exportParksToCSV pg'
  = match top with
    | [] => ShowNoExportDataModal
    | _ :: _ =>
        match mapM row (map (park (parks pg)) top) with
        | Some rows => Download (csvContent rows)
        | None => ExportThrows
        end
    end.
Proof.
  intros pg' top Htype Hids.
  pose proof (exportData_ranked pg Htype) as Hexport. fold pg' top in Hexport.
  unfold exportParksToCSV, fullData, exportData. rewrite Hexport.
  destruct top as [|p top'] eqn:Etop; [done|]. rewrite <- Etop.
  assert ((length (map (park (parks pg')) top) =? 0)%nat = false) as ->
    by by rewrite Etop.
  destruct (applyRanking_cases pg) as [[_ Hnone]|(top1 & Hout & Hrun)].
  { fold top in Hnone. congruence. }
  assert (top1 = top) as -> by (unfold top; by rewrite Hout).
  fold pg' in Hrun.
  pose proof Hrun as (Htop & _ & Hparks)%applyRanking_inv.
  apply topResults_wf in Htop as [_ Hvalid].
  destruct (assignDisplayRank_frame (rankDataKey (rank_type pg)) top top 0 1 (parks pg))
    as (Hlen & Hpres). cbv zeta in Hlen, Hpres. rewrite <- Hparks in Hlen, Hpres.
  assert (distinctSiteIds (parks pg')) as Hids'.
  { intros i j o o' Hi Hj Heq.
    assert (is_Some (parks pg !! i)) as [oi Hoi]
      by (apply lookup_lt_is_Some; rewrite <- Hlen; by eapply lookup_lt_Some).
    assert (is_Some (parks pg !! j)) as [oj Hoj]
      by (apply lookup_lt_is_Some; rewrite <- Hlen; by eapply lookup_lt_Some).
    destruct (Hpres i oi Hoi) as (o1 & Ho1 & Hk1 & _).
    destruct (Hpres j oj Hoj) as (o2 & Ho2 & Hk2 & _).
    assert (o1 = o) as -> by congruence. assert (o2 = o') as -> by congruence.
    apply (Hids i j oi oj Hoi Hoj). unfold get in *.
    by rewrite <- Hk1, <- Hk2. }
  rewrite map_map.
  assert (mapM row (map (fun x => default (park (parks pg') x)
                                     (findPark (parks pg') (park (parks pg') x))) top)
          = mapM row (map (park (parks pg)) top)) as ->; [|done].
  apply mapM_map_ext. intros r Hr.
  apply Hvalid, validParks_spec in Hr as [Hlt _].
  apply lookup_lt_is_Some in Hlt as [o Ho].
  destruct (Hpres r o Ho) as (o' & Ho' & Hk & _).
  unfold park. rewrite Ho, Ho'. simpl.
  rewrite (findPark_self _ r o' Hids' Ho'). simpl. by apply row_agree.
Qed.

(** ** Nearby search: what is exported, what is found and what is asked *)

(** The run of [applyLocationSearch] whose answer passed the filter. *)
Lemma applyLocationSearch_kept (net : Network) (pg : Page) (body : SearchBody)
    (resultParks kept : list Obj) :
  let run := applyLocationSearch net pg in
  let validMatches :=
    match kept with
    | first :: _ => if nearestMode pg then [first] else kept
    | [] => kept
    end in
  posted run = Some body ->
  SEARCH_URL net body = Some resultParks ->
  filterMatches (parks pg) (facility_checked pg) resultParks = Some kept ->
  currentExportData (page_after run) = ExportMatches validMatches
  /\ (outcome run = ToastFound validMatches
      \/ outcome run = ShowNoResultsModal /\ validMatches = []
      \/ outcome run = ToastErrorSearching /\ validMatches <> []).
Proof.
  intros run validMatches. unfold run, applyLocationSearch.
  destruct (negb (ToBoolean (JStr (trim (postcode_input pg))))); [done|].
  destruct (negb (postcodeRegex_test _)); [done|].
  destruct (length (facility_checked pg) =? 0)%nat; [done|].
  destruct (nominatim net _) as [[|hit others]|]; [done| |done].
  destruct (isNaN _ || isNaN _); [done|].
  cbn [parks nearestMode clearSearchArtifacts with_searchCircle with_userMarker
       with_currentExportData].
  match goal with |- context [SEARCH_URL net ?b] => set (body0 := b) end.
  destruct (SEARCH_URL net body0) as [resultParks0|] eqn:Hreply0;
    [|cbn [posted]; intros [= <-] H2; congruence].
  destruct (filterMatches _ _ resultParks0) as [kept0|] eqn:Hkept0;
    [|cbn [posted]; intros [= <-] H2 H3; congruence].
  set (validMatches0 := match kept0 with [] => _ | _ => _ end).
  assert (posted_same : forall body', Some body0 = Some body' ->
            SEARCH_URL net body' = Some resultParks ->
            filterMatches (parks pg) (facility_checked pg) resultParks = Some kept ->
            validMatches0 = validMatches).
  { intros body' [= <-] H2 H3. rewrite Hreply0 in H2. injection H2 as <-.
    rewrite Hkept0 in H3. by injection H3 as <-. }
  destruct (length validMatches0 =? 0)%nat eqn:Hlen.
  { cbn [outcome posted page_after currentExportData with_currentExportData].
    intros H1 H2 H3. rewrite <- (posted_same _ H1 H2 H3).
    split; [done|]. right; left. split; [done|].
    apply Nat.eqb_eq in Hlen. by destruct validMatches0. }
  assert (validMatches0 <> []) as Hne.
  { apply Nat.eqb_neq in Hlen. by destruct validMatches0. }
  destruct (negb (forallb hasDistance validMatches0)).
  { cbn [outcome posted page_after currentExportData with_currentExportData].
    intros H1 H2 H3. rewrite <- (posted_same _ H1 H2 H3).
    split; [done|]. by right; right. }
  destruct (nearestMode pg) eqn:Hmode.
  { cbn [outcome posted page_after currentExportData with_currentExportData].
    intros H1 H2 H3. rewrite <- (posted_same _ H1 H2 H3).
    split; [done|]. by left. }
  destruct (isNaN _).
  { cbn [outcome posted page_after currentExportData with_currentExportData].
    intros H1 H2 H3. rewrite <- (posted_same _ H1 H2 H3).
    split; [done|]. by right; right. }
  cbn [outcome posted page_after currentExportData with_currentExportData with_searchCircle].
  intros H1 H2 H3. rewrite <- (posted_same _ H1 H2 H3).
  split; [done|]. by left.
Qed.

Lemma filterMatches_findPark (store : list Obj) (sel : list string) (resultParks kept : list Obj)
    (m : Obj) :
  filterMatches store sel resultParks = Some kept -> m ∈ kept ->
  exists fullPark, findPark store m = Some fullPark /\ fullPark ∈ store.
Proof.
  intros Hkept Hm. apply filterMatches_kept in Hkept as [-> _].
  apply list_elem_of_In, filter_In in Hm as [_ Hm]. apply bool_decide_eq_true in Hm.
  apply strictMatch_offers in Hm as (fullPark & ? & ? & _). eauto.
Qed.

(** X9.  The export after a nearby search.  Once the endpoint has answered
    and the facility filter has kept its matches, the export data are these
    matches -- the first alone in nearest mode -- whatever the search shows
    next: the parks found, the no-results modal or the toast of an error.  The
    export has one row per match, in the order of the matches; the cells are
    those of the catalog record the match resolves to by its site_id, not
    those of the endpoint's answer.  With no match it is the no-data modal. *)
Theorem export_after_search (net : Network) (pg : Page) (body : SearchBody)
    (resultParks kept : list Obj) :
  let run := applyLocationSearch net pg in
  let validMatches :=
    match kept with
    | first :: _ => if nearestMode pg then [first] else kept
    | [] => kept
    end in
  posted run = Some body ->
  SEARCH_URL net body = Some resultParks ->
  filterMatches (parks pg) (facility_checked pg) resultParks = Some kept ->
  exportData (page_after run) = validMatches
  /\ (outcome run = ToastFound validMatches
      \/ outcome run = ShowNoResultsModal /\ validMatches = []
      \/ outcome run = ToastErrorSearching /\ validMatches <> [])
  /\ exists fullParks,
       Forall2 (fun m fullPark => findPark (parks pg) m = Some fullPark /\ fullPark ∈ parks pg)
         validMatches fullParks
       /\ exportParksToCSV (page_after run)
          = match fullParks with
            | [] => ShowNoExportDataModal
            | _ :: _ =>
                match mapM row fullParks with
                | Some rows => Download (csvContent rows)
                | None => ExportThrows
                end
            end.
Proof.
  intros run validMatches Hbody Hreply Hkept.
  destruct (applyLocationSearch_kept net pg body resultParks kept Hbody Hreply Hkept)
    as [Hexport Hout].
  fold run validMatches in Hexport, Hout.
  assert (forall m, m ∈ validMatches ->
            exists fullPark, findPark (parks pg) m = Some fullPark /\ fullPark ∈ parks pg)
    as Hresolve.
  { intros m Hm. apply (filterMatches_findPark _ _ _ _ _ Hkept).
    unfold validMatches in Hm. destruct kept as [|first kept']; [done|].
    destruct (nearestMode pg); [|done].
    apply list_elem_of_singleton in Hm as ->. left. }
  assert (parks (page_after run) = parks pg) as Hparks
    by apply applyLocationSearch_parks.
  split; [unfold exportData; by rewrite Hexport|]. split; [done|].
  unfold exportParksToCSV, fullData, exportData. rewrite Hexport, Hparks.
  exists (map (fun item => default item (findPark (parks pg) item)) validMatches).
  split.
  - clear Hexport Hout. induction validMatches as [|m ms IH]; simpl; [constructor|].
    constructor.
    + destruct (Hresolve m) as (fullPark & -> & ?); [left|]. done.
    + apply IH. intros m' Hm'. apply Hresolve. by right.
  - by destruct validMatches.
Qed.

Section Completeness.
Context (store : list Obj) (selectedFacilities : list string).

Lemma someAvailable_false (reqNorm : string) (avails : list JsVal) (avail : string) :
  someAvailable reqNorm avails = Some false ->
  JStr avail ∈ avails -> trim (toLowerCase avail) <> reqNorm.
Proof.
  induction avails as [|a avails IH]; simpl; [by intros _ ?%elem_of_nil|].
  destruct a as [| | | |s|]; try done.
  destruct (String.eqb _ _) eqn:E; [done|].
  intros Hrest [[= ->]|Hin]%elem_of_cons.
  - by apply String.eqb_neq in E.
  - by apply IH.
Qed.

Lemma everyRequired_false (fullPark : Obj) (reqs : list string) :
  everyRequired fullPark reqs = Some false ->
  exists req, req ∈ reqs /\ ~ offers fullPark req.
Proof.
  induction reqs as [|req reqs IH]; simpl; [done|].
  destruct (hasFacility fullPark req) as [[]|] eqn:E; [|intros _|done].
  - intros (req' & ? & ?)%IH. exists req'. split; [by right|done].
  - exists req. split; [left|]. intros (avails & avail & Harr & Hin & Hnorm).
    unfold hasFacility in E. rewrite Harr in E.
    by apply (someAvailable_false _ _ avail E Hin).
Qed.

Lemma strictMatch_complete (m fullPark : Obj) :
  selectedFacilities <> [] ->
  is_Some (strictMatch store selectedFacilities m) ->
  findPark store m = Some fullPark ->
  (forall req, req ∈ selectedFacilities -> offers fullPark req) ->
  strictMatch store selectedFacilities m = Some true.
Proof.
  intros Hsel [b Hb] Hfind Hoffers. rewrite Hb. unfold strictMatch in Hb.
  rewrite Hfind in Hb.
  assert (exists req, req ∈ selectedFacilities) as [req Hreq].
  { destruct selectedFacilities as [|req reqs]; [done|]. exists req. left. }
  destruct (Hoffers req Hreq) as (avails & _ & Harr & _).
  rewrite Harr in Hb. simpl negb in Hb. cbn iota in Hb.
  destruct b; [done|].
  apply everyRequired_false in Hb as (req' & Hin & Hno).
  exfalso. by apply Hno, Hoffers.
Qed.
End Completeness.

(** X10.  The matches in distance mode.  They are exactly the candidates of
    the endpoint that pass the facility filter, in the endpoint's order: no
    candidate whose catalog record offers every selected facility is left
    out, and candidates in ascending order of distance are listed in
    ascending order. *)
Theorem search_distance_complete (net : Network) (pg : Page) (ms : list Obj) :
  let run := applyLocationSearch net pg in
  nearestMode pg = false ->
  outcome run = ToastFound ms ->
  ms = List.filter
         (fun m => bool_decide (strictMatch (parks pg) (facility_checked pg) m = Some true))
         (candidates net run)
  /\ (forall m fullPark,
        m ∈ candidates net run ->
        findPark (parks pg) m = Some fullPark ->
        (forall req, req ∈ facility_checked pg -> offers fullPark req) ->
        m ∈ ms)
  /\ (ascendingByDistance (candidates net run) -> ascendingByDistance ms).
Proof.
  intros run Hmode Hout.
  assert (facility_checked pg <> []) as Hsel.
  { revert Hout. unfold run, applyLocationSearch.
    destruct (negb (ToBoolean (JStr (trim (postcode_input pg))))); [done|].
    destruct (negb (postcodeRegex_test _)); [done|].
    destruct (facility_checked pg); [done|done]. }
  apply applyLocationSearch_found in Hout
    as (body & resultParks & kept & Hbody & Hreply & Hkept & Hms).
  fold run in Hbody. rewrite Hmode in Hms.
  assert (ms = kept) as -> by by destruct kept.
  unfold candidates. rewrite Hbody, Hreply. simpl.
  apply filterMatches_kept in Hkept as [Hkept Hsome]. split; [done|]. split.
  - intros m fullPark Hm Hfind Hoffers. rewrite Hkept.
    apply list_elem_of_In, filter_In. split; [by apply list_elem_of_In|].
    apply bool_decide_eq_true. apply (strictMatch_complete _ _ m fullPark); try done.
    rewrite Forall_forall in Hsome. by apply Hsome.
  - intros [Hnum Hasc]. rewrite Hkept. split.
    + apply Forall_forall. intros m Hm. rewrite Forall_forall in Hnum. apply Hnum.
      apply list_elem_of_In, filter_In in Hm as [Hm _]. by apply list_elem_of_In.
    + by apply StronglySorted_filter.
Qed.

(** ** The search by name *)

Lemma prefix_spec (val s : string) :
  String.prefix val s = true <-> exists post, s = (val ++ post)%string.
Proof.
  revert s. induction val as [|c val IH]; intros s.
  - assert (String.prefix EmptyString s = true) as -> by by destruct s.
    split; [intros _; by exists s|done].
  - destruct s as [|d s]; [split; [done|by intros [? ?]]|].
    simpl. destruct (ascii_dec c d) as [->|Hne].
    + rewrite IH. split; intros [post E]; exists post.
      * simpl. by rewrite E.
      * simpl in E. by injection E.
    + split; [done|]. intros [post E]. simpl in E. by injection E.
Qed.

Lemma includes_spec (s val : string) :
  includes s val = true <-> exists pre post, s = (pre ++ val ++ post)%string.
Proof.
  induction s as [|c s IH].
  - change (includes EmptyString val) with (String.prefix val EmptyString || false).
    rewrite orb_false_r, prefix_spec. split.
    + intros [post E]. by exists EmptyString, post.
    + intros (pre & post & E). destruct pre; [by exists post|done].
  - change (includes (String c s) val) with (String.prefix val (String c s) || includes s val).
    rewrite orb_true_iff, prefix_spec, IH. split.
    + intros [[post E]|(pre & post & E)].
      * by exists EmptyString, post.
      * exists (String c pre), post. simpl. by rewrite E.
    + intros (pre & post & E). destruct pre as [|d pre].
      * left. by exists post.
      * right. injection E as -> ->. by exists pre, post.
Qed.

(** Whether the record at [r] is one the search box lists for [val]. *)
Lemma matchingParks_filter (val : string) (store : list Obj) (index : nat) (found : list nat) :
  matchingParks val store index = Some found ->
  found = List.filter
            (fun r => match field store (r - index) "name" with
                      | JStr name => includes (toLowerCase name) val
                      | _ => false
                      end)
            (seq index (length store))
  /\ forall o, o ∈ store -> exists name, get o "name" = JStr name.
Proof.
  revert index found. induction store as [|p rest IH]; intros index found; simpl.
  - intros [= <-]. split; [done|]. by intros o ?%elem_of_nil.
  - destruct (get p "name") as [| | | |name|] eqn:Hname; try done.
    destruct (matchingParks val rest (S index)) as [found'|] eqn:Hrest; [|done].
    intros [= <-]. destruct (IH _ _ Hrest) as [-> Hnames]. split.
    + replace (index - index) with 0 by lia.
      change (field (p :: rest) 0 "name") with (get p "name"). rewrite Hname.
      assert (List.filter
                (fun r => match field rest (r - S index) "name" with
                          | JStr name => includes (toLowerCase name) val
                          | _ => false
                          end) (seq (S index) (length rest))
              = List.filter
                  (fun r => match field (p :: rest) (r - index) "name" with
                            | JStr name => includes (toLowerCase name) val
                            | _ => false
                            end) (seq (S index) (length rest))) as ->; [|done].
      apply filter_ext_in. intros r Hr%in_seq.
      replace (r - index) with (S (r - S index)) by lia. done.
    + intros o [->|Ho]%elem_of_cons; [eauto|by apply Hnames].
Qed.

Lemma toLowerCase_empty (s : string) : toLowerCase s = EmptyString <-> s = EmptyString.
Proof. by destruct s. Qed.

(** X13.  The suggestions of the search box.  For a text that is not empty
    they are at most six, in the order of the catalog, each a record whose
    lower-cased name contains the lower-cased text; a record with such a name
    is missing only when six records before it are listed.  For the empty
    text there is none. *)
Theorem suggestions_listed (value : string) (store : list Obj) (shown : list nat) :
  let lists r :=
    exists name pre post,
      field store r "name" = JStr name
      /\ toLowerCase name = (pre ++ toLowerCase value ++ post)%string in
  suggest value store = Some shown ->
  length shown <= 6
  /\ StronglySorted lt shown
  /\ (forall r, r ∈ shown -> r < length store /\ value <> EmptyString /\ lists r)
  /\ (forall r, r < length store -> value <> EmptyString -> lists r ->
        r ∈ shown \/ (length shown = 6 /\ forall r', r' ∈ shown -> r' < r)).
Proof.
  intros lists. unfold suggest. cbv zeta.
  destruct (negb (ToBoolean (JStr (toLowerCase value)))) eqn:Hval.
  { intros [= <-]. split; [simpl; lia|]. split; [constructor|].
    split; [by intros r ?%elem_of_nil|].
    intros r _ Hne _. apply negb_true_iff in Hval.
    assert (ToBoolean (JStr (toLowerCase value)) = true); [|congruence].
    apply ToBoolean_string. by rewrite toLowerCase_empty. }
  destruct (matchingParks (toLowerCase value) store 0) as [found|] eqn:Hfound; [|done].
  intros [= <-].
  apply matchingParks_filter in Hfound as [Hfound _].
  assert (value <> EmptyString) as Hne.
  { apply negb_false_iff, ToBoolean_string in Hval. by rewrite toLowerCase_empty in Hval. }
  assert (forall r, r ∈ found <-> r < length store /\ lists r) as Hmem.
  { intros r. rewrite Hfound, list_elem_of_In, filter_In, in_seq.
    replace (r - 0) with r by lia. unfold lists. split.
    - intros [Hr Hinc]. split; [lia|].
      destruct (field store r "name") as [| | | |name|]; try done.
      apply includes_spec in Hinc as (pre & post & E). by exists name, pre, post.
    - intros [Hr (name & pre & post & -> & E)]. split; [lia|].
      apply includes_spec. by exists pre, post. }
  assert (StronglySorted lt found) as Hsorted.
  { rewrite Hfound. apply StronglySorted_filter, StronglySorted_seq. }
  split; [rewrite length_take; lia|].
  split.
  { rewrite <- (take_drop 6 found) in Hsorted. by apply StronglySorted_app_1_l in Hsorted. }
  split.
  { intros r Hr. assert (r ∈ found) as Hin.
    { apply list_elem_of_lookup in Hr as [i Hi].
      apply lookup_take_Some in Hi as [Hi _]. by eapply list_elem_of_lookup_2. }
    apply Hmem in Hin as [? ?]. done. }
  intros r Hr _ Hlists.
  assert (r ∈ found) as Hin by by apply Hmem.
  apply list_elem_of_lookup in Hin as [i Hi].
  destruct (decide (i < 6)) as [Hlt|Hge].
  - left. apply list_elem_of_lookup. exists i. by rewrite lookup_take_lt.
  - right. split.
    + rewrite length_take. apply lookup_lt_Some in Hi. lia.
    + intros r' Hr'. apply list_elem_of_lookup in Hr' as [j Hj].
      apply lookup_take_Some in Hj as [Hj Hj6].
      apply (StronglySorted_lookup lt found j i r' r Hsorted); [lia|done|done].
Qed.

Import Gallery.

(** ** The image gallery of a popup *)

Lemma newGallery_shows (n : nat) : 1 <= n -> shows (newGallery n) 0.
Proof.
  intros Hn. destruct n as [|m]; [lia|]. unfold shows, newGallery. cbn [images counter].
  assert (length (true :: replicate m false) = S m) as -> by (simpl; by rewrite length_replicate).
  split; [lia|]. split; [done|].
  intros text. destruct (1 <? S m)%nat; congruence.
Qed.

Lemma setActive_Some (index : Z) (active : bool) (imgs : list bool) :
  (0 <= index < Z.of_nat (length imgs))%Z ->
  setActive index active imgs = Some (<[Z.to_nat index := active]> imgs).
Proof.
  intros [H0 Hn]. unfold setActive.
  apply Z.leb_le in H0 as ->. by apply Z.ltb_lt in Hn as ->.
Qed.

Lemma setActive_nil (index : Z) (active : bool) : setActive index active [] = None.
Proof.
  unfold setActive. change (Z.of_nat (length [])) with 0%Z.
  destruct (Z.leb_spec 0 index), (Z.ltb_spec index 0); try done. lia.
Qed.

(** One click on a button of a gallery that shows an image. *)
Lemma changeImage_step (parkId : string) (d : Z) (st : GalleryState) (gallery : GalleryDom) :
  let n := Z.of_nat (length (images gallery)) in
  let index := default 0%Z (currentImageIndex st !! parkId) in
  galleries st !! parkId = Some gallery ->
  shows gallery index ->
  d = 1%Z \/ d = (-1)%Z ->
  exists gallery',
    changeImage parkId d st
    = Some {| currentImageIndex := <[parkId := ((index + d) mod n)%Z]> (currentImageIndex st);
              galleries := <[parkId := gallery']> (galleries st) |}
    /\ length (images gallery') = length (images gallery)
    /\ shows gallery' ((index + d) mod n).
Proof.
  intros n index Hg (Hrange & Himgs & Hcounter) Hd.
  fold n in Hrange, Hcounter.
  set (index' := ((index + d) mod n)%Z).
  assert ((0 <= index' < n)%Z) as Hrange' by (apply Z.mod_pos_bound; lia).
  assert ((if (n <=? (if (index + d <? 0)%Z then n - 1 else index + d))%Z then 0%Z
           else if (index + d <? 0)%Z then (n - 1)%Z else (index + d)%Z) = index') as Hwrap.
  { unfold index'. destruct (Z.ltb_spec (index + d) 0) as [Hneg|Hpos].
    - assert ((n <=? n - 1)%Z = false) as -> by (apply Z.leb_gt; lia).
      assert (index + d = -1)%Z as -> by lia.
      rewrite <- (Z_mod_plus_full (-1) 1 n). rewrite Z.mod_small; lia.
    - destruct (Z.leb_spec n (index + d)) as [Hge|Hlt].
      + assert (index + d = n)%Z as -> by lia. by rewrite Z_mod_same_full.
      + rewrite Z.mod_small; lia. }
  exists {| images := <[Z.to_nat index' := true]> (replicate (length (images gallery)) false);
            counter := (fun _ => counterText index' n) <$> counter gallery |}.
  split; [|split].
  - unfold changeImage. rewrite Hg. fold n index.
    assert ((n =? 0)%Z = false) as -> by (apply Z.eqb_neq; lia).
    rewrite setActive_Some by done.
    assert (<[Z.to_nat index := false]> (images gallery)
            = replicate (length (images gallery)) false) as ->.
    { rewrite Himgs at 1. rewrite list_insert_insert_eq.
      apply list_insert_id. apply lookup_replicate. split; [done|]. lia. }
    cbv zeta. rewrite Hwrap.
    rewrite setActive_Some by (rewrite length_replicate; done).
    done.
  - cbn [images]. by rewrite length_insert, length_replicate.
  - unfold shows. cbn [images counter].
    rewrite length_insert, length_replicate. fold n.
    split; [done|]. split; [done|].
    intros text. destruct (counter gallery); simpl; congruence.
Qed.

(** X14.  Clicks through a gallery.  On a gallery that shows the image at
    the stored index (as the gallery of a new popup does, at index 0), any
    run of clicks on its two buttons raises nothing and ends on the image at
    (index + clicks forward - clicks back) mod n: that image alone is active,
    the counter reads its number, and no other gallery is touched. *)
Theorem gallery_clicks (parkId : string) (directions : list Z) (st : GalleryState)
    (gallery : GalleryDom) :
  let n := Z.of_nat (length (images gallery)) in
  let index := default 0%Z (currentImageIndex st !! parkId) in
  galleries st !! parkId = Some gallery ->
  shows gallery index ->
  Forall (fun d => d = 1%Z \/ d = (-1)%Z) directions ->
  exists st' gallery',
    clicks parkId directions st = Some st'
    /\ galleries st' !! parkId = Some gallery'
    /\ length (images gallery') = length (images gallery)
    /\ default 0%Z (currentImageIndex st' !! parkId) = ((index + moved directions) mod n)%Z
    /\ shows gallery' ((index + moved directions) mod n)
    /\ forall other, other <> parkId ->
         galleries st' !! other = galleries st !! other
         /\ currentImageIndex st' !! other = currentImageIndex st !! other.
Proof.
  intros n index Hg Hshows Hdirs. subst n index.
  revert st gallery Hg Hshows.
  induction Hdirs as [|d directions Hd Hdirs IH]; intros st gallery Hg Hshows.
  - exists st, gallery. simpl. rewrite Z.add_0_r.
    assert (default 0%Z (currentImageIndex st !! parkId)
              mod Z.of_nat (length (images gallery))
            = default 0%Z (currentImageIndex st !! parkId))%Z as ->
      by (apply Z.mod_small, Hshows).
    done.
  - destruct (changeImage_step parkId d st gallery Hg Hshows Hd)
      as (gallery1 & Hstep & Hlen1 & Hshows1).
    cbv zeta in Hstep, Hshows1.
    set (index := default 0%Z (currentImageIndex st !! parkId)) in *.
    set (n := Z.of_nat (length (images gallery))) in *.
    set (st1 := {| currentImageIndex := <[parkId := ((index + d) mod n)%Z]> (currentImageIndex st);
                   galleries := <[parkId := gallery1]> (galleries st) |}) in *.
    destruct (IH st1 gallery1) as (st' & gallery' & Hclicks & Hg' & Hlen' & Hindex' & Hshows' & Hframe).
    { unfold st1. cbn [galleries]. by rewrite lookup_insert_eq. }
    { unfold st1. cbn [currentImageIndex]. rewrite lookup_insert_eq. exact Hshows1. }
    assert (default 0%Z (currentImageIndex st1 !! parkId) = ((index + d) mod n)%Z) as Hi1.
    { unfold st1. cbn [currentImageIndex]. by rewrite lookup_insert_eq. }
    rewrite Hi1, Hlen1 in Hindex', Hshows'. fold n in Hindex', Hshows'.
    assert (((index + d) mod n + moved directions) mod n = (index + moved (d :: directions)) mod n)%Z
      as Hsum.
    { simpl. rewrite Zplus_mod_idemp_l. f_equal. lia. }
    rewrite Hsum in Hindex', Hshows'.
    exists st', gallery'. simpl clicks. rewrite Hstep.
    split; [done|]. split; [done|]. split; [congruence|]. split; [done|]. split; [done|].
    intros other Hother. destruct (Hframe other Hother) as [-> ->].
    unfold st1. cbn [galleries currentImageIndex].
    by rewrite !lookup_insert_ne.
Qed.

(** X15.  The two copies of [changeImage].  The copy in simd_map.js does
    what the one in popup.js does, but for a gallery without images, where
    popup.js returns and simd_map.js raises a TypeError. *)
Theorem changeImage_copies (parkId : string) (direction : Z) (st : GalleryState) :
  changeImage_simd parkId direction st
  = match galleries st !! parkId with
    | Some {| images := [] |} => None
    | _ => changeImage parkId direction st
    end.
Proof.
  unfold changeImage_simd, changeImage.
  destruct (galleries st !! parkId) as [[imgs text]|]; [|done].
  cbn [images counter].
  assert (match currentImageIndex st !! parkId with
          | Some i => if (i =? 0)%Z then 0%Z else i
          | None => 0%Z
          end = default 0%Z (currentImageIndex st !! parkId)) as ->.
  { destruct (currentImageIndex st !! parkId) as [i|]; [|done]. simpl.
    destruct (Z.eqb_spec i 0); by subst. }
  destruct imgs as [|img imgs].
  - by rewrite setActive_nil.
  - set (n := Z.of_nat (length (img :: imgs))).
    assert ((n =? 0)%Z = false) as -> by (apply Z.eqb_neq; unfold n; simpl; lia).
    destruct (setActive _ false _) as [imgs'|]; [|done]. cbv zeta.
    assert (forall i : Z,
              (if (i <? 0)%Z then (n - 1)%Z else if (n <=? i)%Z then 0%Z else i)
              = (if (n <=? (if (i <? 0)%Z then n - 1 else i))%Z then 0%Z
                 else if (i <? 0)%Z then (n - 1)%Z else i)) as Hwrap.
    { intros i. destruct (Z.ltb_spec i 0); [|done].
      by assert ((n <=? n - 1)%Z = false) as -> by (apply Z.leb_gt; lia). }
    by rewrite Hwrap.
Qed.

(** ** The markers of the parks *)

Lemma reset_reset (m : Marker) : reset (reset m) = reset m.
Proof. done. Qed.

Lemma resetMarkers_Some (store : list Obj) (ms : MarkerTable) :
  (forall p, p ∈ store -> is_Some (nameKey p)) ->
  is_Some (resetMarkers store ms).
Proof.
  revert ms. induction store as [|p rest IH]; intros ms Hnames; simpl; [done|].
  destruct (Hnames p) as [key ->]; [left|].
  apply IH. intros q Hq. apply Hnames. by right.
Qed.

Lemma resetMarkers_lookup (store : list Obj) (ms ms' : MarkerTable) (key : string) :
  resetMarkers store ms = Some ms' ->
  (Some key ∈ map nameKey store -> ms' !! key = reset <$> ms !! key)
  /\ (Some key ∉ map nameKey store -> ms' !! key = ms !! key).
Proof.
  revert ms. induction store as [|p rest IH]; intros ms; simpl.
  - intros [= <-]. split; [by intros ?%elem_of_nil|done].
  - destruct (nameKey p) as [k|] eqn:Hk; [|done]. intros Hrest.
    destruct (IH _ Hrest) as [Hin Hout].
    destruct (decide (key = k)) as [->|Hne].
    + split; [intros _|intros Hno; exfalso; apply Hno; left].
      destruct (decide (Some k ∈ map nameKey rest)) as [Hk'|Hk'].
      * rewrite (Hin Hk'), lookup_alter_eq. by destruct (ms !! k).
      * by rewrite (Hout Hk'), lookup_alter_eq.
    + split.
      * intros [[= ->]|Hk']%elem_of_cons; [done|].
        by rewrite (Hin Hk'), lookup_alter_ne.
      * intros [_ Hk']%not_elem_of_cons. by rewrite (Hout Hk'), lookup_alter_ne.
Qed.

Lemma decorateRanked_Some (store : list Obj) (dataKey : string) (todo : list nat) (idx : nat)
    (ms : MarkerTable) :
  (forall r, r ∈ todo -> is_Some (nameKey (park store r))) ->
  is_Some (decorateRanked store dataKey todo idx ms).
Proof.
  revert idx ms. induction todo as [|r rest IH]; intros idx ms Hnames; simpl; [done|].
  destruct (Hnames r) as [key ->]; [left|].
  apply IH. intros q Hq. apply Hnames. by right.
Qed.

Lemma decorateRanked_other (store : list Obj) (dataKey : string) (todo : list nat) (idx : nat)
    (ms ms' : MarkerTable) (key : string) :
  decorateRanked store dataKey todo idx ms = Some ms' ->
  Some key ∉ map (fun r => nameKey (park store r)) todo ->
  ms' !! key = ms !! key.
Proof.
  revert idx ms. induction todo as [|r rest IH]; intros idx ms; simpl.
  - by intros [= <-].
  - destruct (nameKey (park store r)) as [k|] eqn:Hk; [|done].
    intros Hrest Hout. apply not_elem_of_cons in Hout as [Hne Hout].
    rewrite (IH _ _ Hrest Hout). apply lookup_alter_ne. congruence.
Qed.

Lemma decorateRanked_lookup (store : list Obj) (dataKey : string) (todo : list nat) (idx : nat)
    (ms ms' : MarkerTable) (j r : nat) (key : string) :
  decorateRanked store dataKey todo idx ms = Some ms' ->
  NoDup (map (fun r => nameKey (park store r)) todo) ->
  todo !! j = Some r ->
  nameKey (park store r) = Some key ->
  ms' !! key = rankedMarker (park store r) dataKey (idx + j) <$> ms !! key.
Proof.
  revert idx ms j. induction todo as [|r0 rest IH]; intros idx ms j; simpl; [done|].
  destruct (nameKey (park store r0)) as [k|] eqn:Hk; [|done].
  intros Hrest [Hout Hnd]%NoDup_cons Hj Hkey.
  destruct j as [|j].
  - injection Hj as ->. assert (k = key) as -> by congruence.
    rewrite (decorateRanked_other _ _ _ _ _ _ key Hrest) by done.
    rewrite lookup_alter_eq. by rewrite Nat.add_0_r.
  - simpl in Hj. rewrite (IH _ _ j Hrest Hnd Hj Hkey).
    rewrite lookup_alter_ne.
    + by replace (S idx + j) with (idx + S j) by lia.
    + intros ->. apply Hout. rewrite <- Hkey.
      apply list_elem_of_In, in_map_iff. exists r. split; [done|].
      apply list_elem_of_In. by eapply list_elem_of_lookup_2.
Qed.

Lemma denseRanks_positive (vals : list JsVal) (index cr : nat) (prev : JsVal) (j n : nat) :
  1 <= cr -> denseRanks index cr prev vals !! j = Some n -> 1 <= n.
Proof.
  revert index cr prev j. induction vals as [|v vals IH]; intros index cr prev j Hcr; simpl;
    [done|].
  destruct j as [|j]; simpl.
  - intros [= <-]. destruct (_ && _); lia.
  - apply IH. destruct (_ && _); lia.
Qed.

Lemma nameKey_agree (o o' : Obj) :
  (forall k, k <> "displayRank" -> o' !! k = o !! k) -> nameKey o' = nameKey o.
Proof. intros Hsame. unfold nameKey, get. by rewrite Hsame. Qed.

Lemma NoDup_keys (store : list Obj) (ms : MarkerTable) (l : list nat) :
  loaded store ms -> NoDup l -> (forall r, r ∈ l -> r < length store) ->
  NoDup (map (fun r => nameKey (park store r)) l).
Proof.
  intros [_ Hdistinct] Hnd Hbound.
  apply NoDup_fmap_2_strong; [|done].
  intros i j Hi Hj Heq.
  destruct (lookup_lt_is_Some_2 store i (Hbound i Hi)) as [p Hp].
  destruct (lookup_lt_is_Some_2 store j (Hbound j Hj)) as [q Hq].
  apply (Hdistinct i j p q Hp Hq). unfold park in Heq. by rewrite Hp, Hq in Heq.
Qed.

(** *** The markers main.js makes *)

Lemma markerEntry_Some (p : Obj) (key : string) (m : Marker) :
  markerEntry p = Some (key, m) <->
  acceptsLatLng (get p "lat") (get p "lon") = true
  /\ imagesRaise (get p "images") = false
  /\ nameKey p = Some key
  /\ m = newMarker p.
Proof.
  unfold markerEntry.
  destruct (acceptsLatLng _ _); simpl; [|by split; [|intros (? & _)]].
  destruct (imagesRaise _); simpl; [by split; [|intros (_ & ? & _)]|].
  destruct (nameKey p) as [k|]; [|by split; [|intros (_ & _ & ? & _)]].
  split.
  - by intros [= <- <-].
  - by intros (_ & _ & [= <-] & ->).
Qed.

Lemma markerEntry_None (p : Obj) :
  markerEntry p = None <->
  acceptsLatLng (get p "lat") (get p "lon") = false
  \/ imagesRaise (get p "images") = true
  \/ nameKey p = None.
Proof.
  unfold markerEntry.
  destruct (acceptsLatLng _ _); simpl; [|by split; [left|]].
  destruct (imagesRaise _); simpl; [by split; [right; left|]|].
  destruct (nameKey p) as [k|]; [|by split; [right; right|]].
  split; [done|]. by intros [?|[?|?]].
Qed.

Lemma initMarkers_None (store : list Obj) (ms : MarkerTable) :
  initMarkers store ms = None <-> exists p, p ∈ store /\ markerEntry p = None.
Proof.
  revert ms. induction store as [|p rest IH]; intros ms; simpl.
  - split; [done|]. by intros (p & ?%elem_of_nil & _).
  - destruct (markerEntry p) as [[key m]|] eqn:Hentry.
    + rewrite IH. split.
      * intros (q & Hq & Hnone). exists q. split; [by right|done].
      * intros (q & [->|Hq]%elem_of_cons & Hnone); [congruence|]. by exists q.
    + split; [|done]. intros _. exists p. split; [left|done].
Qed.

Lemma initMarkers_lookup (store : list Obj) (ms ms' : MarkerTable) (key : string) :
  initMarkers store ms = Some ms' ->
  (Some key ∉ map nameKey store -> ms' !! key = ms !! key)
  /\ (forall r p, store !! r = Some p -> nameKey p = Some key ->
        (forall r' p', store !! r' = Some p' -> nameKey p' = Some key -> r' = r) ->
        ms' !! key = Some (newMarker p)).
Proof.
  revert ms. induction store as [|p0 rest IH]; intros ms; simpl.
  - intros [= <-]. split; [done|]. by intros r p ?.
  - destruct (markerEntry p0) as [[k m]|] eqn:Hentry; [|done].
    apply markerEntry_Some in Hentry as (_ & _ & Hk & ->). intros Hrest.
    destruct (IH _ Hrest) as [Hout Hin]. split.
    + intros [Hne Hno]%not_elem_of_cons. rewrite (Hout Hno). apply lookup_insert_ne. congruence.
    + intros r p Hr Hkey Hunique. destruct r as [|r].
      * injection Hr as ->. assert (k = key) as -> by congruence.
        rewrite Hout; [by rewrite lookup_insert_eq|].
        intros Hdup. apply list_elem_of_In, in_map_iff in Hdup as (q & Hq & Hqin).
        apply list_elem_of_In, list_elem_of_lookup in Hqin as [j Hj].
        by specialize (Hunique (S j) q Hj Hq).
      * apply (Hin r p Hr Hkey). intros r' p' Hr' Hkey'.
        specialize (Hunique (S r') p' Hr' Hkey'). lia.
Qed.

(** X16.  The markers main.js makes.  When no two parks share a lower-cased
    name, the loop of main.js either raises -- on a park whose position
    Leaflet does not take, whose images are a text or whose name is not a
    text -- or leaves the page loaded: no park is of these, and every park
    has its own marker under its lower-cased name, black, on the map, without
    tooltip, its popup without a badge. *)
Theorem markers_made (store : list Obj) :
  (forall i j p q, store !! i = Some p -> store !! j = Some q ->
     nameKey p = nameKey q -> i = j) ->
  match initMarkers store ∅ with
  | Some ms =>
      (forall p, p ∈ store ->
         acceptsLatLng (get p "lat") (get p "lon") = true
         /\ imagesRaise (get p "images") = false)
      /\ loaded store ms
      /\ forall r p, store !! r = Some p -> markerOf store ms r = Some (newMarker p)
  | None =>
      exists p, p ∈ store
        /\ (acceptsLatLng (get p "lat") (get p "lon") = false
            \/ imagesRaise (get p "images") = true
            \/ nameKey p = None)
  end.
Proof.
  intros Hdistinct. destruct (initMarkers store ∅) as [ms|] eqn:Hinit.
  2:{ apply initMarkers_None in Hinit as (p & Hp & Hnone).
      exists p. split; [done|]. by apply markerEntry_None. }
  assert (forall p, p ∈ store -> exists key, markerEntry p = Some (key, newMarker p))
    as Hentries.
  { intros p Hp. destruct (markerEntry p) as [[key m]|] eqn:Hentry.
    - pose proof Hentry as (_ & _ & _ & ->)%markerEntry_Some. by exists key.
    - assert (initMarkers store ∅ = None); [|congruence].
      apply initMarkers_None. by exists p. }
  assert (forall p, p ∈ store -> is_Some (nameKey p)) as Hnames.
  { intros p Hp. destruct (Hentries p Hp) as [key Hentry].
    apply markerEntry_Some in Hentry as (_ & _ & -> & _). done. }
  assert (forall r p, store !! r = Some p -> markerOf store ms r = Some (newMarker p))
    as Hmarkers.
  { intros r p Hr. unfold markerOf, park. rewrite Hr. simpl.
    destruct (Hnames p) as [key Hkey]; [by eapply list_elem_of_lookup_2|]. rewrite Hkey.
    apply (proj2 (initMarkers_lookup store ∅ ms key Hinit) r p Hr Hkey).
    intros r' p' Hr' Hkey'. apply (Hdistinct r' r p' p Hr' Hr). congruence. }
  split; [|split; [split|]]; [|..|done|done].
  - intros p Hp. destruct (Hentries p Hp) as [key Hentry].
    by apply markerEntry_Some in Hentry as (? & ? & _).
  - intros p [r Hr]%list_elem_of_lookup.
    destruct (Hnames p) as [key Hkey]; [by eapply list_elem_of_lookup_2|].
    exists key. split; [done|]. specialize (Hmarkers r p Hr).
    unfold markerOf, park in Hmarkers. rewrite Hr in Hmarkers. simpl in Hmarkers.
    rewrite Hkey in Hmarkers. by rewrite Hmarkers.
Qed.

Lemma loaded_key (store : list Obj) (ms : MarkerTable) (r : nat) :
  loaded store ms -> r < length store ->
  exists key m0,
    nameKey (park store r) = Some key /\ ms !! key = Some m0
    /\ Some key ∈ map nameKey store.
Proof.
  intros [Hnames _] Hr. apply lookup_lt_is_Some in Hr as [p Hp].
  destruct (Hnames p) as (key & Hkey & [m0 Hm0]); [by eapply list_elem_of_lookup_2|].
  exists key, m0. unfold park. rewrite Hp. simpl. split; [done|]. split; [done|].
  rewrite <- Hkey. apply list_elem_of_In, in_map. apply list_elem_of_In.
  by eapply list_elem_of_lookup_2.
Qed.

Lemma property_icons (c url : string) : icons !! c = Some url -> property icons (JStr c) = JStr url.
Proof. intros H. unfold property. cbn [ToString]. by rewrite H. Qed.

(** X17.  The markers of a ranking.  On a loaded page, once the timers of
    [applyRanking] have run, the marker of the record at position idx of the
    result has the icon of the colour of its displayRank, the z-index offset
    10000 - idx, the tooltip [#rank] in the class of that colour and a popup
    with the rank badge; the marker of every other park is as [resetMarkers]
    leaves it: black, without tooltip, its popup as it was. *)
Theorem ranked_markers (pg pg' : Page) (top : list nat) (ms : MarkerTable) :
  let dataKey := rankDataKey (rank_type pg) in
  applyRanking pg = (pg', ShowTieModal top) ->
  dataKey <> "displayRank" ->
  loaded (parks pg) ms ->
  exists ms',
    resetMarkers (parks pg) ms ≫= decorateRanked (parks pg') dataKey top 0 = Some ms'
    /\ (forall idx r, top !! idx = Some r ->
          exists m n c hex url,
            markerOf (parks pg') ms' r = Some m
            /\ field (parks pg') r "displayRank" = JNum (num_of_nat n)
            /\ rankColorMap !! ((n - 1) mod 20) = Some c
            /\ rankHexMap !! c = Some hex
            /\ icons !! c = Some url
            /\ icon m = JStr url
            /\ zIndexOffset m = (10000 - Z.of_nat idx)%Z
            /\ tooltip m = Some {| text := "#" ++ NumberToString (num_of_nat n);
                                   className := "rank-tooltip rank-tooltip-" ++ c |}
            /\ popup m = (park (parks pg') r,
                          RankBadge (JStr hex) (isLightColor (JStr c)) (JNum (num_of_nat n))
                            (field (parks pg) r dataKey))
            /\ onMap m = true)
    /\ (forall r m0, r < length (parks pg) -> r ∉ top ->
          markerOf (parks pg) ms r = Some m0 ->
          markerOf (parks pg') ms' r = Some (reset m0)).
Proof.
  intros dataKey Hrun Hkey Hloaded.
  destruct (applyRanking_displayRanks pg pg' top Hrun Hkey) as [Hsame Hranks].
  pose proof Hrun as (Htop & _ & Hparks)%applyRanking_inv.
  change (parks pg' = assignDisplayRank dataKey top top 0 1 (parks pg)) in Hparks.
  apply topResults_wf in Htop as [Hnd Hvalid].
  assert (forall r, r ∈ top -> r < length (parks pg)) as Hbound.
  { intros r Hr. by apply Hvalid, validParks_spec in Hr as [? _]. }
  destruct (assignDisplayRank_frame dataKey top top 0 1 (parks pg)) as (Hlen & Hpres).
  cbv zeta in Hlen, Hpres. rewrite <- Hparks in Hlen, Hpres.
  assert (forall r, nameKey (park (parks pg') r) = nameKey (park (parks pg) r)) as Hname.
  { intros r. unfold park. destruct (parks pg !! r) as [o|] eqn:Ho.
    - destruct (Hpres r o Ho) as (o' & -> & Hk & _). simpl. by apply nameKey_agree.
    - apply lookup_ge_None in Ho. rewrite <- Hlen in Ho. apply lookup_ge_None in Ho.
      by rewrite Ho. }
  destruct (resetMarkers_Some (parks pg) ms) as [ms1 Hreset].
  { intros p Hp. destruct Hloaded as [Hnames _]. destruct (Hnames p Hp) as (key & -> & _).
    done. }
  destruct (decorateRanked_Some (parks pg') dataKey top 0 ms1) as [ms' Hdecorate].
  { intros r Hr. rewrite Hname.
    destruct (loaded_key _ _ r Hloaded (Hbound r Hr)) as (key & _ & -> & _). done. }
  assert (NoDup (map (fun r => nameKey (park (parks pg') r)) top)) as Hkeys.
  { assert (map (fun r => nameKey (park (parks pg') r)) top
            = map (fun r => nameKey (park (parks pg) r)) top) as ->
      by (apply map_ext; intros; apply Hname).
    by apply (NoDup_keys _ ms). }
  exists ms'. rewrite Hreset. split; [exact Hdecorate|]. split.
  - intros idx r Hidx.
    assert (r ∈ top) as Hr by by eapply list_elem_of_lookup_2.
    destruct (loaded_key _ _ r Hloaded (Hbound r Hr)) as (key & m0 & Hk & Hm0 & Hin).
    destruct (Hranks JUndefined idx r Hidx) as (n & Hn & Hrank).
    assert (1 <= n) as Hn1 by (by eapply denseRanks_positive).
    destruct (hexColor_colorKey n Hn1) as (c & hex & Hc & Hhex & Hck & _ & Hhc).
    destruct (palette_complete ((n - 1) mod 20)) as (c' & _ & url & Hc' & _ & Hurl).
    { change (length rankColorMap) with 20. apply Nat.mod_upper_bound. lia. }
    assert (c' = c) as -> by congruence.
    exists (rankedMarker (park (parks pg') r) dataKey idx (reset m0)), n, c, hex, url.
    assert (get (park (parks pg') r) "displayRank" = JNum (num_of_nat n)) as Hget
      by exact Hrank.
    split.
    { unfold markerOf. rewrite Hname, Hk.
      rewrite (decorateRanked_lookup _ _ _ _ _ _ idx r key Hdecorate Hkeys Hidx)
        by by rewrite Hname.
      rewrite (proj1 (resetMarkers_lookup _ _ _ key Hreset) Hin).
      by rewrite Hm0. }
    split; [exact Hrank|]. split; [exact Hc|]. split; [exact Hhex|]. split; [exact Hurl|].
    unfold rankedMarker. cbv zeta. rewrite Hget, Hck. cbn [icon zIndexOffset tooltip popup onMap].
    split; [by apply property_icons|]. split; [reflexivity|]. split; [reflexivity|].
    split; [|reflexivity].
    rewrite (hexColor_lookup c hex Hhex).
    change (get (park (parks pg') r) dataKey) with (field (parks pg') r dataKey).
    by rewrite Hsame.
  - intros r m0 Hr Hout Hm0. unfold markerOf in *. rewrite Hname.
    destruct (nameKey (park (parks pg) r)) as [key|] eqn:Hk; [|done].
    rewrite (decorateRanked_other _ _ _ _ _ _ key Hdecorate).
    + rewrite (proj1 (resetMarkers_lookup _ _ _ key Hreset)); [by rewrite Hm0|].
      rewrite <- Hk. apply lookup_lt_is_Some in Hr as [p Hp]. unfold park. rewrite Hp. simpl.
      apply list_elem_of_In, in_map, list_elem_of_In. by eapply list_elem_of_lookup_2.
    + intros Hin. apply list_elem_of_In, in_map_iff in Hin as (r' & Heq & Hr'%list_elem_of_In).
      rewrite Hname in Heq. apply Hout.
      assert (r' = r) as <-; [|done].
      destruct Hloaded as [_ Hdistinct].
      destruct (lookup_lt_is_Some_2 _ _ (Hbound r' Hr')) as [p' Hp'].
      apply lookup_lt_is_Some in Hr as [p Hp].
      apply (Hdistinct r' r p' p Hp' Hp).
      unfold park in Heq, Hk. rewrite Hp' in Heq. rewrite Hp in Hk. simpl in *. congruence.
Qed.

(** *** The markers of a nearby search *)

Lemma applyLocationSearch_distances (net : Network) (pg : Page) (ms : list Obj) :
  outcome (applyLocationSearch net pg) = ToastFound ms -> forallb hasDistance ms = true.
Proof.
  unfold applyLocationSearch.
  destruct (negb (ToBoolean (JStr (trim (postcode_input pg))))); [done|].
  destruct (negb (postcodeRegex_test _)); [done|].
  destruct (length (facility_checked pg) =? 0)%nat; [done|].
  destruct (nominatim net _) as [[|hit others]|]; [done| |done].
  destruct (isNaN _ || isNaN _); [done|].
  cbn [parks nearestMode clearSearchArtifacts with_searchCircle with_userMarker
       with_currentExportData].
  destruct (SEARCH_URL net _) as [resultParks|]; [|done].
  destruct (filterMatches _ _ _) as [kept|]; [|done].
  set (validMatches := match kept with [] => _ | _ => _ end).
  destruct (length validMatches =? 0)%nat; [done|].
  destruct (forallb hasDistance validMatches) eqn:Hd; [|done]. simpl negb. cbn iota.
  destruct (nearestMode pg).
  - cbn [outcome]. by intros [= <-].
  - destruct (isNaN _); [done|]. cbn [outcome]. by intros [= <-].
Qed.

Section DecorateFound.
Context (store : list Obj) (selectedFacilities : list string).

Lemma decorateFound_Some (validMatches : list Obj) (ms : MarkerTable) :
  forallb hasDistance validMatches = true ->
  (forall p, p ∈ store -> is_Some (nameKey p)) ->
  is_Some (decorateFound store selectedFacilities validMatches ms).
Proof.
  intros Hd Hnames. revert ms. induction validMatches as [|m rest IH]; intros ms; simpl; [done|].
  simpl in Hd. apply andb_true_iff in Hd as [Hm Hd].
  destruct (findPark store m) as [fullPark|] eqn:Hfind; [|by apply IH].
  destruct (Hnames fullPark) as [key ->].
  { apply find_some in Hfind as [? _]. by apply list_elem_of_In. }
  destruct (ms !! key); [|by apply IH]. rewrite Hm. by apply IH.
Qed.

Lemma decorateFound_other (validMatches : list Obj) (ms ms' : MarkerTable) (key : string) :
  decorateFound store selectedFacilities validMatches ms = Some ms' ->
  existsb (resolves store key) validMatches = false ->
  ms' !! key = ms !! key.
Proof.
  revert ms. induction validMatches as [|m rest IH]; intros ms; simpl.
  - by intros [= <-].
  - intros Hrun [Hm Hrest]%orb_false_elim. unfold resolves in Hm.
    destruct (findPark store m) as [fullPark|]; [|by apply IH].
    destruct (nameKey fullPark) as [k|]; [|done].
    destruct (ms !! k) eqn:Hk; [|by apply IH].
    destruct (hasDistance m); [|done].
    rewrite (IH _ Hrun Hrest). apply lookup_insert_ne.
    intros ->. by rewrite bool_decide_eq_true_2 in Hm.
Qed.

Lemma decorateFound_lookup (validMatches : list Obj) (ms ms' : MarkerTable) (key : string)
    (m0 : Marker) :
  decorateFound store selectedFacilities validMatches ms = Some ms' ->
  existsb (resolves store key) validMatches = true ->
  ms !! key = Some m0 ->
  exists match_ fullPark,
    match_ ∈ validMatches
    /\ findPark store match_ = Some fullPark
    /\ nameKey fullPark = Some key
    /\ ms' !! key
       = Some {| icon := property icons (JStr "green");
                 zIndexOffset := 500;
                 tooltip := tooltip m0;
                 popup := (fullPark,
                           DistanceBadge (get match_ "distance") selectedFacilities);
                 onMap := onMap m0 |}.
Proof.
  revert ms m0. induction validMatches as [|m rest IH]; intros ms m0; simpl; [done|].
  intros Hrun Hex Hm0.
  destruct (existsb (resolves store key) rest) eqn:Hrest.
  - assert (forall ms1 m1, decorateFound store selectedFacilities rest ms1 = Some ms' ->
              ms1 !! key = Some m1 -> tooltip m1 = tooltip m0 -> onMap m1 = onMap m0 ->
              exists match_ fullPark,
                match_ ∈ m :: rest
                /\ findPark store match_ = Some fullPark
                /\ nameKey fullPark = Some key
                /\ ms' !! key
                   = Some {| icon := property icons (JStr "green");
                             zIndexOffset := 500;
                             tooltip := tooltip m0;
                             popup := (fullPark,
                                       DistanceBadge (get match_ "distance")
                                         selectedFacilities);
                             onMap := onMap m0 |}) as Hnext.
    { intros ms1 m1 Hrun1 Hm1 Ht Ho.
      destruct (IH ms1 m1 Hrun1 eq_refl Hm1) as (m' & fp & Hin & Hfind & Hkey & Hms').
      exists m', fp. rewrite Hms', Ht, Ho. split; [by right|done]. }
    destruct (findPark store m) as [fullPark|]; [|by eapply Hnext].
    destruct (nameKey fullPark) as [k|]; [|done].
    destruct (ms !! k) as [mk|] eqn:Hk; [|by eapply Hnext].
    destruct (hasDistance m); [|done].
    destruct (decide (k = key)) as [->|Hne].
    + eapply (Hnext _ _ Hrun); [by rewrite lookup_insert_eq| |].
      * assert (mk = m0) as -> by congruence. done.
      * assert (mk = m0) as -> by congruence. done.
    + eapply (Hnext _ m0 Hrun); [by rewrite lookup_insert_ne|done|done].
  - rewrite orb_false_r in Hex. unfold resolves in Hex.
    destruct (findPark store m) as [fullPark|] eqn:Hfind; [|done].
    apply bool_decide_eq_true in Hex. rewrite Hex in Hrun. rewrite Hm0 in Hrun.
    destruct (hasDistance m); [|done].
    exists m, fullPark. split; [left|]. split; [done|]. split; [done|].
    rewrite (decorateFound_other _ _ _ key Hrun Hrest). by rewrite lookup_insert_eq.
Qed.
End DecorateFound.

(** X18.  The markers of a nearby search.  On a loaded page, after a search
    that found parks, the marker of the park of each match is green, with
    z-index offset 500, without tooltip, and its popup carries the distance
    of a match of that park and the selected facilities; the marker of every
    park without a match is as [resetMarkers] leaves it. *)
Theorem found_markers (net : Network) (pg : Page) (found : list Obj) (ms : MarkerTable) :
  let store := parks pg in
  let selected := facility_checked pg in
  outcome (applyLocationSearch net pg) = ToastFound found ->
  loaded store ms ->
  exists ms',
    resetMarkers store ms ≫= decorateFound store selected found = Some ms'
    /\ (forall match_, match_ ∈ found ->
          exists r fullPark m,
            findPark store match_ = Some fullPark
            /\ store !! r = Some fullPark
            /\ markerOf store ms' r = Some m
            /\ icon m = JStr (iconUrl "green")
            /\ zIndexOffset m = 500%Z
            /\ tooltip m = None
            /\ onMap m = true
            /\ exists shown,
                 shown ∈ found
                 /\ findPark store shown = Some fullPark
                 /\ popup m = (fullPark, DistanceBadge (get shown "distance") selected))
    /\ (forall r m0, r < length store ->
          (forall match_, match_ ∈ found -> findPark store match_ <> store !! r) ->
          markerOf store ms r = Some m0 ->
          markerOf store ms' r = Some (reset m0)).
Proof.
  intros store selected Hout Hloaded.
  pose proof (applyLocationSearch_distances net pg found Hout) as Hdist.
  assert (forall p, p ∈ store -> is_Some (nameKey p)) as Hnames.
  { intros p Hp. destruct Hloaded as [Hn _]. by destruct (Hn p Hp) as (key & -> & _). }
  destruct (resetMarkers_Some store ms Hnames) as [ms1 Hreset].
  destruct (decorateFound_Some store selected found ms1 Hdist Hnames) as [ms' Hdecorate].
  exists ms'. rewrite Hreset. split; [exact Hdecorate|]. split.
  - intros m Hm.
    assert (exists fullPark, findPark store m = Some fullPark /\ fullPark ∈ store)
      as (fullPark & Hfind & Hin).
    { apply applyLocationSearch_found in Hout
        as (body & resultParks & kept & _ & _ & Hkept & Hms).
      apply (filterMatches_findPark _ _ _ _ _ Hkept).
      rewrite Hms in Hm. destruct kept as [|first kept']; [done|].
      destruct (nearestMode pg); [|done].
      apply list_elem_of_singleton in Hm as ->. left. }
    apply list_elem_of_lookup in Hin as [r Hr].
    destruct (loaded_key store ms r Hloaded) as (key & m0 & Hkey & Hm0 & Hinkeys);
      [by eapply lookup_lt_Some|].
    assert (nameKey fullPark = Some key) as Hkey'.
    { unfold park in Hkey. by rewrite Hr in Hkey. }
    assert (ms1 !! key = Some (reset m0)) as Hm1.
    { rewrite (proj1 (resetMarkers_lookup _ _ _ key Hreset) Hinkeys). by rewrite Hm0. }
    destruct (decorateFound_lookup store selected found ms1 ms' key (reset m0) Hdecorate)
      as (shown & fullPark' & Hshown & Hfind' & Hkey'' & Hms'); [|done|].
    { apply existsb_exists. exists m. split; [by apply list_elem_of_In|].
      unfold resolves. rewrite Hfind. by apply bool_decide_eq_true. }
    assert (fullPark' = fullPark) as ->.
    { assert (fullPark' ∈ store) as [r' Hr']%list_elem_of_lookup.
      { apply find_some in Hfind' as [? _]. by apply list_elem_of_In. }
      destruct Hloaded as [_ Hdistinct].
      assert (r' = r) as -> by (apply (Hdistinct r' r fullPark' fullPark); congruence).
      congruence. }
    exists r, fullPark. eexists. split; [done|]. split; [done|].
    split; [unfold markerOf; rewrite Hkey; exact Hms'|].
    cbn [icon zIndexOffset tooltip popup onMap reset].
    split; [by apply property_icons|]. split; [done|]. split; [done|]. split; [done|].
    by exists shown.
  - intros r m0 Hr Hnone Hm0. unfold markerOf in *.
    destruct (nameKey (park store r)) as [key|] eqn:Hkey; [|done].
    rewrite (decorateFound_other store selected found ms1 ms' key Hdecorate).
    + rewrite (proj1 (resetMarkers_lookup _ _ _ key Hreset)); [by rewrite Hm0|].
      rewrite <- Hkey. apply lookup_lt_is_Some in Hr as [p Hp]. unfold park. rewrite Hp. simpl.
      apply list_elem_of_In, in_map, list_elem_of_In. by eapply list_elem_of_lookup_2.
    + apply not_true_is_false. intros (m & Hm & Hres)%existsb_exists.
      unfold resolves in Hres.
      destruct (findPark store m) as [fullPark|] eqn:Hfind; [|done].
      apply bool_decide_eq_true in Hres.
      apply (Hnone m); [by apply list_elem_of_In|]. rewrite Hfind.
      assert (fullPark ∈ store) as [r' Hr']%list_elem_of_lookup.
      { apply find_some in Hfind as [? _]. by apply list_elem_of_In. }
      apply lookup_lt_is_Some in Hr as [p Hp].
      destruct Hloaded as [_ Hdistinct].
      assert (r' = r) as ->; [|congruence].
      apply (Hdistinct r' r fullPark p Hr' Hp).
      unfold park in Hkey. rewrite Hp in Hkey. simpl in Hkey. congruence.
Qed.

(** *** The marker of a park picked by name *)

(** X19.  The marker of a park picked by name.  On a loaded page, after the
    click on a suggestion, the popup of the park's marker is written anew
    without badge; its icon is the black one [resetMarkers] set, as [icons]
    is no property of [window]; every other marker is as [resetMarkers]
    leaves it, its popup as it was.  The export data are that one park, the
    user marker and the search circle are gone, and the catalog is as it
    was. *)
Theorem selected_marker (pg : Page) (p : nat) (ms : MarkerTable) :
  let store := parks pg in
  loaded store ms ->
  p < length store ->
  (exists ms',
     selectMarker store p ms = Some ms'
     /\ (exists m0,
           markerOf store ms p = Some m0
           /\ markerOf store ms' p
              = Some {| icon := JStr (iconUrl "black");
                        zIndexOffset := 0;
                        tooltip := None;
                        popup := (park store p, NoBadge);
                        onMap := true |})
     /\ (forall r m0, r < length store -> r <> p ->
           markerOf store ms r = Some m0 ->
           markerOf store ms' r = Some (reset m0)))
  /\ CsvExport.exportData (NameSearch.selectSuggestion p pg) = [park store p]
  /\ userMarker (NameSearch.selectSuggestion p pg) = None
  /\ searchCircle (NameSearch.selectSuggestion p pg) = None
  /\ parks (NameSearch.selectSuggestion p pg) = store.
Proof.
  intros store Hloaded Hp. split; [|done].
  assert (forall p, p ∈ store -> is_Some (nameKey p)) as Hnames.
  { intros q Hq. destruct Hloaded as [Hn _]. by destruct (Hn q Hq) as (key & -> & _). }
  destruct (resetMarkers_Some store ms Hnames) as [ms1 Hreset].
  destruct (loaded_key store ms p Hloaded Hp) as (key & m0 & Hkey & Hm0 & Hin).
  unfold selectMarker. rewrite Hreset, Hkey. eexists. split; [done|]. split.
  - exists m0. unfold markerOf. rewrite Hkey. split; [done|].
    rewrite lookup_alter_eq, (proj1 (resetMarkers_lookup _ _ _ key Hreset) Hin), Hm0.
    simpl. unfold selectedMarker. cbn [icon zIndexOffset tooltip popup onMap reset].
    by rewrite (property_icons "black" (iconUrl "black")).
  - intros r m1 Hr Hne Hm1. unfold markerOf in *.
    destruct (loaded_key store ms r Hloaded Hr) as (key' & m1' & Hkey' & Hm1' & Hin').
    rewrite Hkey' in Hm1 |- *. rewrite lookup_alter_ne.
    + rewrite (proj1 (resetMarkers_lookup _ _ _ key' Hreset) Hin'). by rewrite Hm1.
    + intros <-. apply Hne.
      apply lookup_lt_is_Some in Hr as [o Ho]. apply lookup_lt_is_Some in Hp as [o' Ho'].
      destruct Hloaded as [_ Hdistinct]. apply (Hdistinct r p o o' Ho Ho').
      unfold park in Hkey, Hkey'. rewrite Ho in Hkey'. rewrite Ho' in Hkey. simpl in *.
      congruence.
Qed.


(** ** The address of a static file *)

Section StaticUrlFacts.
Import StaticUrl.

Lemma list_pair_ind {A} (P : list A -> Prop) :
  P [] -> (forall a, P [a]) -> (forall a b l, P l -> P (b :: l) -> P (a :: b :: l)) ->
  forall l, P l.
Proof.
  intros Hnil Hone Hstep l.
  assert (P l /\ forall a, P (a :: l)) as [H _]; [|done].
  induction l as [|b l [IH1 IH2]]; [by split|].
  split; [apply IH2|]. intros a. by apply Hstep.
Qed.

Lemma hexDigit_unreserved (n : N) : (n < 16)%N -> isUnreserved (hexDigit n) = true.
Proof.
  intros Hn. assert (n ∈ (N.of_nat <$> seq 0 16)) as Hin.
  { apply list_elem_of_fmap. exists (N.to_nat n). split; [lia|].
    apply list_elem_of_In, in_seq. lia. }
  simpl in Hin. repeat (apply elem_of_cons in Hin as [->|Hin]; [reflexivity|]).
  by apply elem_of_nil in Hin.
Qed.

Lemma percent_escaped (byte : N) : forallb escaped (percent byte) = true.
Proof.
  unfold percent. cbn [forallb]. unfold escaped at 2 3.
  rewrite !hexDigit_unreserved by (apply N.mod_lt; lia). done.
Qed.

Lemma escape_escaped (codePoint : N) :
  forallb escaped (escape codePoint) = true
  /\ exists rest, escape codePoint = 37%N :: rest.
Proof.
  unfold escape, utf8.
  destruct (_ <? 128)%N; [|destruct (_ <? 2048)%N; [|destruct (_ <? 65536)%N]];
    cbn [map concat]; rewrite ?forallb_app, ?percent_escaped; split; try done;
    by eexists.
Qed.

Lemma unreserved_plain (c : N) :
  isUnreserved c = true -> isTrailSurrogate c = false /\ isLeadSurrogate c = false.
Proof.
  unfold isUnreserved, isTrailSurrogate, isLeadSurrogate. intros H.
  rewrite !orb_true_iff, !andb_true_iff, !N.leb_le, !N.eqb_eq in H.
  rewrite !andb_false_iff, !N.leb_gt. lia.
Qed.

Lemma unreserved_not_slash (c : N) : isUnreserved c = true -> (c =? 47)%N = false.
Proof.
  unfold isUnreserved. intros H.
  rewrite !orb_true_iff, !andb_true_iff, !N.leb_le, !N.eqb_eq in H.
  apply N.eqb_neq. lia.
Qed.

(** [encodeURIComponent] raises exactly on a text that is not well formed;
    what it answers for a text that is not empty starts with a character
    that is no slash. *)
Lemma encodeURIComponent_spec (t : Text) :
  match encodeURIComponent t with
  | Some encoded =>
      isWellFormed t = true
      /\ forallb escaped encoded = true
      /\ (t <> [] -> encoded <> [] /\ startsWithSlash encoded = false)
  | None => isWellFormed t = false
  end.
Proof.
  induction t as [|c|c d t IH1 IH2] using list_pair_ind.
  - done.
  - simpl. destruct (isUnreserved c) eqn:Hc.
    + destruct (unreserved_plain c Hc) as [-> ->]. simpl.
      split; [done|]. unfold escaped. rewrite Hc. split; [done|]. intros _.
      split; [done|]. by apply unreserved_not_slash.
    + destruct (isTrailSurrogate c); [done|]. destruct (isLeadSurrogate c); [done|].
      simpl. destruct (escape_escaped c) as [Hesc [rest Hrest]].
      rewrite app_nil_r. split; [done|]. split; [done|]. intros _. by rewrite Hrest.
  - cbn [encodeURIComponent isWellFormed].
    destruct (isUnreserved c) eqn:Hc.
    + destruct (unreserved_plain c Hc) as [-> ->].
      cbn [encodeURIComponent isWellFormed] in IH2.
      destruct (if isUnreserved d then _ else _) as [encoded|]; simpl; [|done].
      destruct IH2 as (Hwf & Hesc & _). split; [done|].
      unfold escaped at 1. rewrite Hc. split; [done|]. intros _.
      split; [done|]. by apply unreserved_not_slash.
    + destruct (isTrailSurrogate c); [done|]. destruct (isLeadSurrogate c).
      * destruct (isTrailSurrogate d); [|done]. simpl.
        destruct (encodeURIComponent t) as [encoded|]; simpl; [|done].
        destruct IH1 as (Hwf & Hesc & _). split; [done|].
        destruct (escape_escaped (65536 + (c - 55296) * 1024 + (d - 56320))%N)
          as [Hesc' [rest Hrest]].
        rewrite forallb_app, Hesc', Hesc. split; [done|]. intros _. by rewrite Hrest.
      * cbn [encodeURIComponent isWellFormed] in IH2.
        destruct (if isUnreserved d then _ else _) as [encoded|]; simpl; [|done].
        destruct IH2 as (Hwf & Hesc & _). split; [done|].
        destruct (escape_escaped c) as [Hesc' [rest Hrest]].
        rewrite forallb_app, Hesc', Hesc. split; [done|]. intros _. by rewrite Hrest.
Qed.

(** *** Well-formed texts *)

Lemma isWellFormed_plain_cons (c : N) (t : Text) :
  plain c = true -> isWellFormed (c :: t) = isWellFormed t.
Proof.
  unfold plain. intros [Hl Ht]%andb_true_iff. simpl.
  apply negb_true_iff in Hl, Ht. by rewrite Hl, Ht.
Qed.

Lemma isWellFormed_plain_app (x t : Text) :
  forallb plain x = true -> isWellFormed (x ++ t) = isWellFormed t.
Proof.
  induction x as [|c x IH]; [done|]. cbn [forallb]. intros [Hc Hx]%andb_true_iff.
  rewrite <- app_comm_cons, isWellFormed_plain_cons by done. by apply IH.
Qed.

Lemma isWellFormed_app (pre : Text) (a : N) (rest : Text) :
  isTrailSurrogate a = false ->
  isWellFormed (pre ++ a :: rest) = isWellFormed pre && isWellFormed (a :: rest).
Proof.
  intros Ha. induction pre as [|c|c d pre IH1 IH2] using list_pair_ind.
  - done.
  - cbn [app isWellFormed]. rewrite Ha.
    destruct (isTrailSurrogate c); [done|]. by destruct (isLeadSurrogate c).
  - cbn [app isWellFormed]. cbn [app isWellFormed] in IH2.
    destruct (isTrailSurrogate c); [done|]. destruct (isLeadSurrogate c).
    + destruct (isTrailSurrogate d); [|done]. simpl. exact IH1.
    + exact IH2.
Qed.

(** A plain text between two texts leaves them apart. *)
Lemma isWellFormed_between (pre x post : Text) :
  x <> [] -> forallb plain x = true ->
  isWellFormed (pre ++ x ++ post) = isWellFormed pre && isWellFormed post.
Proof.
  intros Hne Hx. destruct x as [|a x]; [done|].
  pose proof Hx as [Ha _]%andb_true_iff. unfold plain in Ha.
  apply andb_true_iff in Ha as [_ Ha%negb_true_iff].
  rewrite <- app_comm_cons, isWellFormed_app by done.
  rewrite app_comm_cons. by rewrite isWellFormed_plain_app.
Qed.

Lemma units_plain (s : string) : forallb plain (units s) = true.
Proof.
  unfold units. induction s as [|c s IH]; [done|]. cbn [list_ascii_of_string map forallb].
  rewrite IH, andb_true_r. unfold plain, isLeadSurrogate, isTrailSurrogate, unit_code.
  pose proof (N_ascii_bounded c).
  rewrite andb_true_iff, !negb_true_iff, !andb_false_iff, !N.leb_gt. lia.
Qed.

Lemma units_isWellFormed (s : string) : isWellFormed (units s) = true.
Proof.
  rewrite <- (app_nil_r (units s)). by rewrite isWellFormed_plain_app by apply units_plain.
Qed.

(** *** The methods of a text *)

Lemma startsWith_app (pattern t : Text) :
  startsWith pattern t = true -> t = pattern ++ drop (List.length pattern) t.
Proof.
  revert t. induction pattern as [|a pattern IH]; intros t; [done|].
  destruct t as [|b t]; [done|]. simpl.
  intros [->%N.eqb_eq H]%andb_true_iff. f_equal. by apply IH.
Qed.

Lemma replaceText_cases (pattern by_ t : Text) :
  replaceText pattern by_ t = t
  \/ exists pre post, t = pre ++ pattern ++ post
                      /\ replaceText pattern by_ t = pre ++ by_ ++ post.
Proof.
  induction t as [|c t IH].
  - cbn [replaceText]. destruct (startsWith pattern []) eqn:E; [|by left].
    right. exists [], (drop (List.length pattern) []). split; [|done].
    by apply startsWith_app.
  - cbn [replaceText]. destruct (startsWith pattern (c :: t)) eqn:E.
    + right. exists [], (drop (List.length pattern) (c :: t)). split; [|done].
      by apply startsWith_app.
    + destruct IH as [->|(pre & post & -> & ->)]; [by left|].
      right. by exists (c :: pre), post.
Qed.

Lemma replaceText_isWellFormed (pattern by_ t : Text) :
  pattern <> [] -> forallb plain pattern = true ->
  by_ <> [] -> forallb plain by_ = true ->
  isWellFormed (replaceText pattern by_ t) = isWellFormed t.
Proof.
  intros Hp Hpp Hb Hbp.
  destruct (replaceText_cases pattern by_ t) as [->|(pre & post & -> & ->)]; [done|].
  by rewrite !isWellFormed_between.
Qed.

Lemma replaceText_start (pattern by_ t : Text) :
  by_ <> [] -> startsWithSlash by_ = false ->
  startsWithSlash t = false -> startsWithSlash (replaceText pattern by_ t) = false.
Proof.
  intros Hne Hb Ht. destruct t as [|c t]; cbn [replaceText].
  - destruct (startsWith pattern []); [|done]. by destruct by_.
  - destruct (startsWith pattern (c :: t)); [by destruct by_|done].
Qed.

Lemma stripLeadingSlashes_start (t : Text) : startsWithSlash (stripLeadingSlashes t) = false.
Proof.
  induction t as [|c t IH]; [done|]. simpl.
  destruct (c =? 47)%N eqn:E; [done|]. simpl. exact E.
Qed.

Lemma stripLeadingSlashes_isWellFormed (t : Text) :
  isWellFormed (stripLeadingSlashes t) = isWellFormed t.
Proof.
  induction t as [|c t IH]; [done|]. cbn [stripLeadingSlashes].
  destruct (c =? 47)%N eqn:E; [|done]. apply N.eqb_eq in E as ->.
  by rewrite IH, isWellFormed_plain_cons.
Qed.

Lemma cleanPath_start (relativePath : Value) :
  startsWithSlash (cleanPath relativePath) = false.
Proof.
  unfold cleanPath. cbv zeta.
  destruct (includesText _ _).
  { apply replaceText_start; try done. apply stripLeadingSlashes_start. }
  destruct (includesText _ _).
  { apply replaceText_start; try done. apply stripLeadingSlashes_start. }
  apply stripLeadingSlashes_start.
Qed.

Lemma cleanPath_isWellFormed (relativePath : Value) :
  isWellFormed (cleanPath relativePath) = isWellFormed (pathText relativePath).
Proof.
  unfold cleanPath. cbv zeta.
  destruct (includesText _ _).
  { rewrite replaceText_isWellFormed; try done; try apply units_plain.
    apply stripLeadingSlashes_isWellFormed. }
  destruct (includesText _ _).
  { rewrite replaceText_isWellFormed; try done; try apply units_plain.
    apply stripLeadingSlashes_isWellFormed. }
  apply stripLeadingSlashes_isWellFormed.
Qed.

Lemma splitText_head (sep : N) (t : Text) :
  exists segment segments,
    splitText sep t = segment :: segments
    /\ (t <> [] -> startsWith [sep] t = false -> segment <> []).
Proof.
  induction t as [|c t (segment & segments & IH & _)]; [by exists [], []|].
  cbn [splitText]. destruct (c =? sep)%N eqn:E.
  - exists [], (splitText sep t). split; [done|]. intros _ H.
    cbn [startsWith] in H. rewrite N.eqb_sym, E in H. done.
  - rewrite IH. by exists (c :: segment), segments.
Qed.

Lemma joinText_cons (sep : N) (segment s : Text) (segments : list Text) :
  joinText sep (segment :: s :: segments) = segment ++ sep :: joinText sep (s :: segments).
Proof. done. Qed.

Lemma joinText_splitText (sep : N) (t : Text) : joinText sep (splitText sep t) = t.
Proof.
  induction t as [|c t IH]; [done|]. cbn [splitText].
  destruct (splitText_head sep t) as (segment & segments & Hsplit & _).
  rewrite Hsplit in IH |- *.
  destruct (c =? sep)%N eqn:E.
  - apply N.eqb_eq in E as ->. by rewrite joinText_cons, IH.
  - destruct segments as [|s segments].
    + cbn [joinText] in IH |- *. by rewrite IH.
    + rewrite joinText_cons in IH |- *. rewrite <- app_comm_cons. by rewrite IH.
Qed.

Lemma joinText_isWellFormed (segments : list Text) :
  isWellFormed (joinText 47 segments) = forallb isWellFormed segments.
Proof.
  induction segments as [|segment segments IH]; [done|].
  destruct segments as [|s segments].
  - cbn [joinText forallb]. by rewrite andb_true_r.
  - rewrite joinText_cons. rewrite isWellFormed_app by done.
    rewrite isWellFormed_plain_cons by done. rewrite IH. done.
Qed.

Lemma joinText_safe (segments : list Text) :
  Forall (fun segment => forallb escaped segment = true) segments ->
  forallb urlSafe (joinText 47 segments) = true.
Proof.
  assert (forall t, forallb escaped t = true -> forallb urlSafe t = true) as Hsafe.
  { intros t. rewrite !forallb_forall. intros H c Hc. specialize (H c Hc).
    unfold urlSafe. unfold escaped in H. by rewrite H. }
  induction 1 as [|segment segments Hs _ IH]; [done|].
  destruct segments as [|s segments]; [by apply Hsafe|].
  rewrite joinText_cons, forallb_app. cbn [forallb]. by rewrite (Hsafe _ Hs), IH.
Qed.

Lemma mapM_encodeURIComponent (segments : list Text) :
  match mapM encodeURIComponent segments with
  | Some encoded =>
      forallb isWellFormed segments = true
      /\ Forall (fun e => forallb escaped e = true) encoded
      /\ (forall segment rest, segments = segment :: rest ->
            exists e encoded',
              encoded = e :: encoded'
              /\ (segment = [] -> rest = [] -> e = [] /\ encoded' = [])
              /\ (segment <> [] -> e <> [] /\ startsWithSlash e = false))
  | None => forallb isWellFormed segments = false
  end.
Proof.
  induction segments as [|segment segments IH]; [done|]. cbn [mapM forallb].
  pose proof (encodeURIComponent_spec segment) as Hspec.
  destruct (encodeURIComponent segment) as [e|] eqn:He; simpl; [|by rewrite Hspec].
  destruct Hspec as (-> & Hesc & Hhead).
  destruct (mapM encodeURIComponent segments) as [encoded|] eqn:Hrest; simpl; [|done].
  destruct IH as (-> & Hall & _). split; [done|]. split; [by constructor|].
  intros segment' rest [= <- <-]. exists e, encoded. split; [done|]. split; [|done].
  intros -> ->. simpl in He, Hrest. by injection He as <-; injection Hrest as <-.
Qed.

(** X20.  The address of a static file.  [buildStaticUrl] raises a URIError
    exactly when the text of the relative path is not well formed, a
    surrogate in it standing outside a pair; a path from a JSON document, in
    code units below 256, is well formed.  Otherwise it answers the base
    followed by a path in which every character is a letter, a digit, one of
    [- _ . ! ~ * ' ( )], [%] or [/] -- so no quote, space or angle bracket --
    and which does not start with a slash. *)
Theorem static_url_safe (STATIC_BASE relativePath : Value) :
  match buildStaticUrl STATIC_BASE relativePath with
  | Some url =>
      isWellFormed (pathText relativePath) = true
      /\ exists encoded,
           url = toText (getStaticBase STATIC_BASE) ++ encoded
           /\ forallb urlSafe encoded = true
           /\ startsWithSlash encoded = false
  | None => isWellFormed (pathText relativePath) = false
  end
  /\ forall v, relativePath = Json v -> isWellFormed (pathText relativePath) = true.
Proof.
  split.
  2:{ intros v ->. unfold pathText. destruct (truthy (Json v)); apply units_isWellFormed. }
  assert (isWellFormed (pathText relativePath)
          = forallb isWellFormed (splitText 47 (cleanPath relativePath))) as ->.
  { by rewrite <- cleanPath_isWellFormed, <- joinText_isWellFormed, joinText_splitText. }
  unfold buildStaticUrl, encodedPath.
  pose proof (cleanPath_start relativePath) as Hstart.
  destruct (splitText_head 47 (cleanPath relativePath))
    as (segment & segments & Hsplit & Hhead).
  pose proof (mapM_encodeURIComponent (splitText 47 (cleanPath relativePath))) as Hmap.
  destruct (mapM encodeURIComponent (splitText 47 (cleanPath relativePath)))
    as [encoded|]; simpl; [|done].
  destruct Hmap as (Hwf & Hesc & Hfirst). split; [done|].
  exists (joinText 47 encoded). split; [done|]. split; [by apply joinText_safe|].
  destruct (Hfirst segment segments Hsplit) as (e & encoded' & -> & Hempty & Hne).
  destruct (cleanPath relativePath) as [|c clean] eqn:Hclean.
  - simpl in Hsplit. injection Hsplit as <- <-. by destruct Hempty as [-> ->].
  - destruct Hne as [Hne He].
    { apply Hhead; [done|]. cbn [startsWithSlash] in Hstart. cbn [startsWith].
      by rewrite N.eqb_sym, Hstart. }
    destruct e as [|d e]; [done|]. by destruct encoded'.
Qed.

(** The folder of St Margaret's Park, and a surrogate outside a pair. *)
Example static_url_of_folder :
  buildStaticUrl (Json JUndefined) (Json (JStr "/images/St Margaret's Park/a b.jpg"))
  = Some (units "/static/images/St%20Margarets%20Park/a%20b.jpg").
Proof. vm_compute. reflexivity. Qed.

Example static_url_raises :
  buildStaticUrl (Json JUndefined) (Wide [97; 55357]%N) = None.
Proof. vm_compute. reflexivity. Qed.

End StaticUrlFacts.

(** ** The theorems at the small catalog *)

Lemma demo_numericCatalog : numericCatalog Demo.catalog "quality".
Proof.
  intros o Ho. unfold Demo.catalog in Ho.
  repeat (apply elem_of_cons in Ho as [->|Ho]; [vm_compute; exact I|]).
  by apply elem_of_nil in Ho.
Defined.

Lemma demo_geocoded (distance : string) (checked : list string) (nearest : bool) :
  checked <> [] ->
  geocoded Demo.endpoint (Demo.searchPage distance checked nearest)
    (fst Demo.origin) (snd Demo.origin).
Proof.
  intros Hne. repeat split; try done.
  eexists _, []. split; [reflexivity|]. split; vm_compute; reflexivity.
Defined.


Lemma rank_dense_ranks_witness :
  let pg := Demo.rankingPage "quality_highest" "2" in
  let pg' := fst (applyRanking pg) in
  (applyRanking pg = (pg', ShowTieModal [4; 0; 1])
   /\ rankDataKey (rank_type pg) <> "displayRank")
  /\ exists rp rq : nat,
       field (parks pg') 0 "displayRank" = JNum (num_of_nat rp)
       /\ field (parks pg') 1 "displayRank" = JNum (num_of_nat rq)
       /\ (rq = rp <->
           strict_equal (field (parks pg') 1 (rankDataKey (rank_type pg)))
             (field (parks pg') 0 (rankDataKey (rank_type pg))) = true).
Proof.
  intros pg pg'.
  assert (applyRanking pg = (pg', ShowTieModal [4; 0; 1])) as H1.
  { apply injective_projections; [reflexivity|vm_compute; reflexivity]. }
  assert (rankDataKey (rank_type pg) <> "displayRank") as H2 by (vm_compute; discriminate).
  split; [done|].
  destruct (rank_dense_ranks pg pg' [4; 0; 1] H1 H2) as [_ Hstep].
  destruct (Hstep 1 0 1 eq_refl eq_refl) as (rp & rq & Hp & Hq & Hiff & _).
  exists rp, rq. split; [exact Hp|]. split; [exact Hq|exact Hiff].
Defined.

Lemma rank_excludes_non_numeric_witness :
  let pg := Demo.rankingPage "quality_highest" "2" in
  4 ∈ ranked (snd (applyRanking pg))
  /\ exists o,
       parks pg !! 4 = Some o
       /\ get o (rankDataKey (rank_type pg)) <> JNull
       /\ get o (rankDataKey (rank_type pg)) <> JUndefined
       /\ isNaN (ToNumber (get o (rankDataKey (rank_type pg)))) = false
       /\ (numericOrUnknown (get o (rankDataKey (rank_type pg))) ->
           exists x, get o (rankDataKey (rank_type pg)) = JNum x /\ isNaN x = false).
Proof.
  intros pg.
  assert (4 ∈ ranked (snd (applyRanking pg))) as H.
  { replace (ranked (snd (applyRanking pg))) with [4; 0; 1] by (vm_compute; reflexivity).
    apply list_elem_of_here. }
  split; [done|]. exact (rank_excludes_non_numeric pg 4 H).
Defined.

Lemma search_strict_facility_match_witness :
  let pg := Demo.searchPage EmptyString ["toilets "; "PARKING"] false in
  let m := Demo.matchOf 0 in
  m ∈ found (applyLocationSearch Demo.endpoint pg)
  /\ exists fullPark,
       findPark (parks pg) m = Some fullPark
       /\ fullPark ∈ parks pg
       /\ forall req, req ∈ facility_checked pg -> offers fullPark req.
Proof.
  intros pg m.
  assert (m ∈ found (applyLocationSearch Demo.endpoint pg)) as H.
  { replace (found (applyLocationSearch Demo.endpoint pg)) with [m]
      by (vm_compute; reflexivity).
    apply list_elem_of_here. }
  split; [done|]. exact (search_strict_facility_match Demo.endpoint pg m H).
Defined.

Lemma demo_facilitiesCatalog : facilitiesCatalog Demo.catalog.
Proof.
  intros o Ho. unfold Demo.catalog in Ho.
  apply elem_of_cons in Ho as [->|Ho]; [exists ["Toilets"; " Parking "]; vm_compute; reflexivity|].
  apply elem_of_cons in Ho as [->|Ho]; [exists ["Cafe"]; vm_compute; reflexivity|].
  apply elem_of_cons in Ho as [->|Ho]; [exists ["toilets"; "Cafe"]; vm_compute; reflexivity|].
  apply elem_of_cons in Ho as [->|Ho]; [exists []; vm_compute; reflexivity|].
  apply elem_of_cons in Ho as [->|Ho]; [exists ["Playground"]; vm_compute; reflexivity|].
  by apply elem_of_nil in Ho.
Defined.

(** Nearest mode, a cafe asked for: B and C have one, C is the nearer. *)
Lemma search_nearest_single_witness :
  let pg := Demo.searchPage EmptyString ["cafe"] true in
  let run := applyLocationSearch Demo.endpoint pg in
  nearestMode pg = true
  /\ found run = [Demo.matchOf 2]
  /\ length (found run) <= 1
  /\ strictMatch (parks pg) (facility_checked pg) (Demo.matchOf 1) = Some true
  /\ num_leb (matchDistance (Demo.matchOf 2)) (matchDistance (Demo.matchOf 1)) = true.
Proof.
  intros pg run.
  assert (nearestMode pg = true) as Hmode by reflexivity.
  assert (found run = [Demo.matchOf 2]) as Hfound by (vm_compute; reflexivity).
  assert (candidates Demo.endpoint run = map Demo.matchOf [0; 2; 1; 4; 3]) as Hcand
    by (vm_compute; reflexivity).
  assert (strictMatch (parks pg) (facility_checked pg) (Demo.matchOf 1) = Some true) as Hpass
    by (vm_compute; reflexivity).
  pose proof (search_nearest_single Demo.geocoder Demo.distanceOf Demo.catalog pg Hmode)
    as H.
  cbv zeta in H.
  change (ProximitySearch.network Demo.geocoder Demo.distanceOf Demo.catalog)
    with Demo.endpoint in H.
  fold run in H. destruct H as (Hlen & Hmin & _).
  destruct (Hmin (Demo.matchOf 2)) as (_ & _ & Hnear & _).
  { rewrite Hfound. apply list_elem_of_here. }
  split; [exact Hmode|]. split; [exact Hfound|]. split; [exact Hlen|].
  split; [exact Hpass|].
  apply Hnear; [|exact Hpass].
  rewrite Hcand. simpl. do 2 apply list_elem_of_further. apply list_elem_of_here.
Defined.

(** Ranking writes on the records: E had no displayRank and has one after. *)
Lemma rank_mutates_records :
  let pg := Demo.rankingPage "quality_highest" "2" in
  let pg' := fst (applyRanking pg) in
  field (parks pg) 4 "displayRank" = JUndefined
  /\ field (parks pg') 4 "displayRank" = JNum (num_of_nat 1)
  /\ parks pg' !! 4 <> parks pg !! 4.
Proof.
  intros pg pg'.
  assert (field (parks pg) 4 "displayRank" = JUndefined) as Hbefore
    by (vm_compute; reflexivity).
  assert (field (parks pg') 4 "displayRank" = JNum (num_of_nat 1)) as Hafter
    by (vm_compute; reflexivity).
  split; [exact Hbefore|]. split; [exact Hafter|].
  intros E. unfold field, park in Hbefore, Hafter. rewrite E, Hbefore in Hafter.
  discriminate Hafter.
Qed.

Lemma engines_frame_witness :
  let pg := Demo.rankingPage "quality_highest" "2" in
  length (parks (fst (applyRanking pg))) = length (parks pg)
  /\ parks (page_after
              (applyLocationSearch Demo.endpoint (Demo.searchPage "2" ["cafe"] false)))
     = Demo.catalog.
Proof.
  intros pg. split.
  - exact (proj1 (proj1 engines_frame pg)).
  - exact (proj2 engines_frame Demo.endpoint (Demo.searchPage "2" ["cafe"] false)).
Defined.

(** The limit text 3.7 is no integer, and it ranks as limit 3. *)
Lemma rank_accepts_fraction :
  let pg := Demo.rankingPage "quality_highest" "3.7" in
  InvalidLimit_spec (ToNumber (JStr (rank_number pg)))
  /\ snd (applyRanking pg) = ShowTieModal [4; 0; 1].
Proof.
  intros pg. split.
  - right. vm_compute. reflexivity.
  - vm_compute. reflexivity.
Qed.

Lemma rank_limit_validation_witness :
  let pg := Demo.rankingPage "quality_highest" "3.7" in
  rank_type pg <> EmptyString
  /\ snd (applyRanking (with_rank_number "3" pg)) = snd (applyRanking pg).
Proof.
  intros pg.
  assert (rank_type pg <> EmptyString) as H by discriminate.
  split; [exact H|].
  refine (proj1 (proj2 (rank_limit_validation pg H) "3" _ _ _)).
  - discriminate.
  - discriminate.
  - vm_compute. reflexivity.
Defined.

(** A radius of 0: the endpoint fails, and the search ends in the toast of an
    error. *)
Lemma search_invalid_radius_witness :
  let pg := Demo.searchPage "0" ["toilets"] false in
  let run := applyLocationSearch Demo.endpoint pg in
  (nearestMode pg = false
   /\ geocoded Demo.endpoint pg (fst Demo.origin) (snd Demo.origin)
   /\ searchRadius pg = Fin 0
   /\ facilitiesCatalog (parks pg))
  /\ outcome run = ToastErrorSearching
  /\ found run = [].
Proof.
  intros pg run.
  assert (nearestMode pg = false) as H1 by reflexivity.
  assert (geocoded Demo.endpoint pg (fst Demo.origin) (snd Demo.origin)) as H2
    by (apply demo_geocoded; discriminate).
  assert (searchRadius pg = Fin 0) as H3 by (vm_compute; reflexivity).
  assert (facilitiesCatalog (parks pg)) as H4 by exact demo_facilitiesCatalog.
  split; [exact (conj H1 (conj H2 (conj H3 H4)))|].
  pose proof (search_invalid_radius Demo.geocoder Demo.distanceOf Demo.catalog pg
                (111889 # 2000) (-7973 # 2500) 0 H1 H2 H3 H4) as H.
  cbv zeta in H.
  change (ProximitySearch.network Demo.geocoder Demo.distanceOf Demo.catalog)
    with Demo.endpoint in H.
  fold run in H. destruct H as (Hiff & Hfail & _).
  apply Hfail, Hiff. discriminate.
Defined.

(** A radius of 2: the parks with toilets within it, the nearest first. *)
Example search_within_two :
  outcome (applyLocationSearch Demo.endpoint (Demo.searchPage "2" ["toilets"] false))
  = ToastFound [Demo.matchOf 0; Demo.matchOf 2].
Proof. vm_compute. reflexivity. Qed.

Lemma search_default_radius_witness :
  let pg := Demo.searchPage EmptyString ["toilets"] false in
  let run := applyLocationSearch Demo.endpoint pg in
  (distance_input pg = EmptyString
   /\ nearestMode pg = false
   /\ geocoded Demo.endpoint pg (fst Demo.origin) (snd Demo.origin))
  /\ searchRadius pg = Fin 5
  /\ outcome run = ToastFound [Demo.matchOf 0; Demo.matchOf 2]
  /\ searchCircle (page_after run)
     = Some {| center := (fst Demo.origin, snd Demo.origin); radius := Fin 5000 |}.
Proof.
  intros pg run.
  assert (distance_input pg = EmptyString) as H1 by reflexivity.
  assert (nearestMode pg = false) as H2 by reflexivity.
  assert (geocoded Demo.endpoint pg (fst Demo.origin) (snd Demo.origin)) as H3
    by (apply demo_geocoded; discriminate).
  split; [exact (conj H1 (conj H2 H3))|].
  destruct (search_default_radius Demo.endpoint pg _ _ H1 H2 H3)
    as (Hradius & body & _ & _ & Hcircle & _).
  assert (outcome run
          = ToastFound [Demo.matchOf 0; Demo.matchOf 2])
    as Hout by (vm_compute; reflexivity).
  split; [exact Hradius|]. split; [exact Hout|]. exact (Hcircle _ Hout).
Defined.

(** Why C1 asks for a catalog of numbers.  Metric values that are texts are
    sorted as numbers but cut with [>=] on texts: of the qualities "10", "9"
    and "8" none is below "10" as a text, and limit 1 returns all three. *)
Example cut_of_texts :
  let text q := <["quality" := JStr q]> (∅ : Obj) in
  let pg := with_parks [text "10"; text "9"; text "8"]
              (Demo.rankingPage "quality_highest" "1") in
  snd (applyRanking pg) = ShowTieModal [0; 1; 2].
Proof. vm_compute. reflexivity. Qed.

(** The scenarios of the spec. *)
Example scenario_tie_at_cutoff :
  let pg := Demo.rankingPage "quality_highest" "1" in
  let pg3 := with_parks (take 3 Demo.catalog) pg in
  snd (applyRanking pg3) = ShowTieModal [0; 1]
  /\ field (parks (fst (applyRanking pg3))) 0 "displayRank" = JNum (num_of_nat 1)
  /\ field (parks (fst (applyRanking pg3))) 1 "displayRank" = JNum (num_of_nat 1).
Proof. vm_compute. repeat split. Qed.

Example scenario_case_insensitive :
  found (applyLocationSearch Demo.endpoint (Demo.searchPage "1" ["toilets"] true))
  = [Demo.matchOf 0].
Proof. vm_compute. reflexivity. Qed.

Example scenario_no_playground_nearby :
  outcome (applyLocationSearch Demo.endpoint (Demo.searchPage "1" ["Playground"] false))
  = ShowNoResultsModal.
Proof. vm_compute. reflexivity. Qed.

(** ** The further theorems at the small catalog *)

Lemma distinct_of_NoDup {X} (f : Obj -> X) (store : list Obj) :
  NoDup (map f store) ->
  forall i j p q, store !! i = Some p -> store !! j = Some q -> f p = f q -> i = j.
Proof.
  intros Hnd i j p q Hi Hj Heq.
  apply (NoDup_lookup _ i j (f p) Hnd).
  - by rewrite list_lookup_fmap, Hi.
  - rewrite list_lookup_fmap, Hj. simpl. by rewrite Heq.
Defined.

Lemma demo_distinctSiteIds : distinctSiteIds Demo.catalog.
Proof.
  intros i j o o'. apply (distinct_of_NoDup (fun o => ToString (get o "site_id"))).
  match goal with
  | |- ?G => exact (@bool_decide_unpack G _ ltac:(vm_compute; exact I))
  end.
Defined.

Lemma demo_loaded : loaded Demo.catalog Demo.markers.
Proof.
  split.
  - intros p Hp. unfold Demo.catalog in Hp.
    repeat (apply elem_of_cons in Hp as [->|Hp];
            [eexists; split; [vm_compute; reflexivity|vm_compute; eauto]|]).
    by apply elem_of_nil in Hp.
  - apply distinct_of_NoDup.
    match goal with
    | |- ?G => exact (@bool_decide_unpack G _ ltac:(vm_compute; exact I))
    end.
Defined.

Lemma rank_order_stable_witness :
  let pg := Demo.rankingPage "quality_highest" "2" in
  (1 < 2
   /\ ranked (snd (applyRanking pg)) !! 1 = Some 0
   /\ ranked (snd (applyRanking pg)) !! 2 = Some 1)
  /\ rankedBefore (parks pg) (rankOrder (rank_type pg)) (rankDataKey (rank_type pg)) 0 1.
Proof.
  intros pg.
  assert (1 < 2) as H1 by lia.
  assert (ranked (snd (applyRanking pg)) !! 1 = Some 0) as H2 by (vm_compute; reflexivity).
  assert (ranked (snd (applyRanking pg)) !! 2 = Some 1) as H3 by (vm_compute; reflexivity).
  split; [exact (conj H1 (conj H2 H3))|].
  exact (rank_order_stable pg 1 2 0 1 H1 H2 H3).
Defined.

Lemma rank_exceeds_limit_by_ties_witness :
  let pg := Demo.rankingPage "quality_highest" "2" in
  (rank_type pg <> EmptyString
   /\ parseInt (rank_number pg) = num_of_nat 2
   /\ 1 <= 2
   /\ numericCatalog (parks pg) (rankDataKey (rank_type pg)))
  /\ ranked (snd (applyRanking pg)) = [4; 0; 1]
  /\ num_compare (score (parks pg) (rankDataKey (rank_type pg)) 1)
       (score (parks pg) (rankDataKey (rank_type pg)) 0) = Some Eq.
Proof.
  intros pg.
  assert (rank_type pg <> EmptyString) as H1 by done.
  assert (parseInt (rank_number pg) = num_of_nat 2) as H2 by reflexivity.
  assert (1 <= 2) as H3 by lia.
  assert (numericCatalog (parks pg) (rankDataKey (rank_type pg))) as H4
    by exact demo_numericCatalog.
  split; [exact (conj H1 (conj H2 (conj H3 H4)))|].
  split; [vm_compute; reflexivity|].
  destruct (rank_exceeds_limit_by_ties pg 2 H1 H2 H3 H4) as [_ Hties].
  apply (Hties 2 1 0); [lia|vm_compute; reflexivity|vm_compute; reflexivity].
Defined.

Lemma rank_counts_strictly_better_witness :
  let pg := Demo.rankingPage "quality_highest" "2" in
  let pg' := fst (applyRanking pg) in
  (applyRanking pg = (pg', ShowTieModal [4; 0; 1])
   /\ rankDataKey (rank_type pg) <> "displayRank"
   /\ numericCatalog (parks pg) (rankDataKey (rank_type pg))
   /\ 1 ∈ [4; 0; 1])
  /\ field (parks pg') 1 "displayRank" = JNum (num_of_nat 2).
Proof.
  intros pg pg'.
  assert (applyRanking pg = (pg', ShowTieModal [4; 0; 1])) as H1.
  { apply injective_projections; [reflexivity|vm_compute; reflexivity]. }
  assert (rankDataKey (rank_type pg) <> "displayRank") as H2 by (vm_compute; discriminate).
  assert (numericCatalog (parks pg) (rankDataKey (rank_type pg))) as H3
    by exact demo_numericCatalog.
  assert (1 ∈ [4; 0; 1]) as H4 by (do 2 apply list_elem_of_further; apply list_elem_of_here).
  split; [exact (conj H1 (conj H2 (conj H3 H4)))|].
  etrans; [exact (rank_counts_strictly_better pg pg' [4; 0; 1] 1 H1 H2 H3 H4)|].
  vm_compute. reflexivity.
Defined.

Lemma rank_again_changes_nothing_witness :
  let pg := Demo.rankingPage "quality_highest" "2" in
  rankDataKey (rank_type pg) <> "displayRank"
  /\ applyRanking (fst (applyRanking pg)) = applyRanking pg.
Proof.
  intros pg.
  assert (rankDataKey (rank_type pg) <> "displayRank") as H by (vm_compute; discriminate).
  exact (conj H (rank_again_changes_nothing pg H)).
Defined.

Lemma rank_colour_defined_witness :
  1 <= 21 /\ colorKey (JNum (num_of_nat 21)) = JStr "gold".
Proof.
  assert (1 <= 21) as H by lia. split; [exact H|].
  destruct (rank_colour_defined 21 H) as (c & hex & url & Hc & Hkey & _).
  vm_compute in Hc. injection Hc as <-. exact Hkey.
Defined.

Lemma tie_note_witness :
  let pg := Demo.rankingPage "quality_highest" "2" in
  let pg' := fst (applyRanking pg) in
  (applyRanking pg = (pg', ShowTieModal [4; 0; 1])
   /\ rankDataKey (rank_type pg) <> "displayRank")
  /\ hasTies_ui (parks pg') [4; 0; 1] = true.
Proof.
  intros pg pg'.
  assert (applyRanking pg = (pg', ShowTieModal [4; 0; 1])) as H1.
  { apply injective_projections; [reflexivity|vm_compute; reflexivity]. }
  assert (rankDataKey (rank_type pg) <> "displayRank") as H2 by (vm_compute; discriminate).
  split; [exact (conj H1 H2)|].
  apply (proj2 (proj1 (tie_note pg pg' [4; 0; 1] H1 H2))).
  exists 1, 0, 1. split; [reflexivity|]. split; [reflexivity|]. vm_compute. reflexivity.
Defined.

Lemma csv_name_reads_back_witness :
  let p : Obj := <["name" := JStr Demo.nickname]> ∅ in
  let cells := default [] (row p) in
  (get p "name" = JStr Demo.nickname /\ row p = Some cells)
  /\ exists cell,
       cells !! 1 = Some (JStr cell)
       /\ readQuotedField (cell ++ ",EH1") = Some (Demo.nickname, ",EH1").
Proof.
  intros p cells.
  assert (get p "name" = JStr Demo.nickname) as H1 by (vm_compute; reflexivity).
  assert (row p = Some cells) as H2 by (vm_compute; reflexivity).
  split; [exact (conj H1 H2)|].
  apply (csv_name_reads_back p Demo.nickname ",EH1" cells H1 H2).
  vm_compute. discriminate.
Defined.

Lemma export_after_ranking_witness :
  let pg := Demo.rankingPage "quality_highest" "2" in
  (rank_type pg <> EmptyString /\ distinctSiteIds (parks pg))
  /\ ranked (snd (applyRanking pg)) = [4; 0; 1]
  /\ exists rows,
       mapM row (map (park (parks pg)) [4; 0; 1]) = Some rows
       /\ exportParksToCSV (fst (applyRanking pg)) = Download (csvContent rows).
Proof.
  intros pg.
  assert (rank_type pg <> EmptyString) as H1 by done.
  assert (distinctSiteIds (parks pg)) as H2 by exact demo_distinctSiteIds.
  assert (ranked (snd (applyRanking pg)) = [4; 0; 1]) as Htop by (vm_compute; reflexivity).
  split; [exact (conj H1 H2)|]. split; [exact Htop|].
  pose proof (export_after_ranking pg H1 H2) as H. cbv zeta in H. rewrite Htop in H.
  assert (is_Some (mapM row (map (park (parks pg)) [4; 0; 1]))) as [rows Hrows]
    by (vm_compute; eexists; reflexivity).
  exists rows. split; [exact Hrows|]. rewrite H. by rewrite Hrows.
Defined.

Lemma export_after_search_witness :
  let pg := Demo.searchPage EmptyString ["toilets"] false in
  let run := applyLocationSearch Demo.endpoint pg in
  let body :=
    {| facilities := ["toilets"];
       user_lat := JNum (fst Demo.origin);
       user_lon := JNum (snd Demo.origin);
       distance := JNum (Fin 5);
       nearest_only := false |} in
  let kept := [Demo.matchOf 0; Demo.matchOf 2] in
  (posted run = Some body
   /\ SEARCH_URL Demo.endpoint body = Some (map Demo.matchOf [0; 2; 1])
   /\ filterMatches (parks pg) (facility_checked pg) (map Demo.matchOf [0; 2; 1]) = Some kept)
  /\ exportData (page_after run) = kept
  /\ outcome run = ToastFound kept
  /\ exists rows,
       mapM row [park Demo.catalog 0; park Demo.catalog 2] = Some rows
       /\ exportParksToCSV (page_after run) = Download (csvContent rows).
Proof.
  intros pg run body kept.
  assert (posted run = Some body) as H1 by (vm_compute; reflexivity).
  assert (SEARCH_URL Demo.endpoint body = Some (map Demo.matchOf [0; 2; 1])) as H2
    by (vm_compute; reflexivity).
  assert (filterMatches (parks pg) (facility_checked pg) (map Demo.matchOf [0; 2; 1])
          = Some kept) as H3 by (vm_compute; reflexivity).
  assert (outcome run = ToastFound kept) as Hfound by (vm_compute; reflexivity).
  split; [exact (conj H1 (conj H2 H3))|].
  destruct (export_after_search Demo.endpoint pg body _ kept H1 H2 H3)
    as (Hdata & _ & fullParks & Hresolve & Hexport).
  fold run in Hdata, Hexport.
  split; [exact Hdata|]. split; [exact Hfound|].
  change (Forall2 (fun m fullPark => findPark (parks pg) m = Some fullPark
                                     /\ fullPark ∈ parks pg)
            [Demo.matchOf 0; Demo.matchOf 2] fullParks) in Hresolve.
  apply Forall2_cons_inv_l in Hresolve as (p0 & rest & [H0 _] & Hresolve & ->).
  apply Forall2_cons_inv_l in Hresolve as (p1 & rest' & [H1' _] & Hresolve & ->).
  apply Forall2_nil_inv_l in Hresolve as ->.
  assert (findPark (parks pg) (Demo.matchOf 0) = Some (park Demo.catalog 0)) as E0
    by (vm_compute; reflexivity).
  assert (findPark (parks pg) (Demo.matchOf 2) = Some (park Demo.catalog 2)) as E1
    by (vm_compute; reflexivity).
  rewrite E0 in H0. injection H0 as <-. rewrite E1 in H1'. injection H1' as <-.
  assert (is_Some (mapM row [park Demo.catalog 0; park Demo.catalog 2])) as [rows Hrows]
    by (vm_compute; eexists; reflexivity).
  exists rows. split; [exact Hrows|]. rewrite Hexport. by rewrite Hrows.
Defined.

Lemma search_distance_complete_witness :
  let pg := Demo.searchPage EmptyString ["toilets"] false in
  let run := applyLocationSearch Demo.endpoint pg in
  let ms := [Demo.matchOf 0; Demo.matchOf 2] in
  (nearestMode pg = false /\ outcome run = ToastFound ms)
  /\ ascendingByDistance ms.
Proof.
  intros pg run ms.
  assert (nearestMode pg = false) as H1 by reflexivity.
  assert (outcome run = ToastFound ms) as H2 by (vm_compute; reflexivity).
  split; [exact (conj H1 H2)|].
  destruct (search_distance_complete Demo.endpoint pg ms H1 H2) as (_ & _ & Hasc).
  apply Hasc.
  assert (candidates Demo.endpoint (applyLocationSearch Demo.endpoint pg)
          = [Demo.matchOf 0; Demo.matchOf 2;
             Demo.matchOf 1])
    as -> by (vm_compute; reflexivity).
  split; repeat constructor.
Defined.

Lemma suggestions_listed_witness :
  suggest "A" Demo.catalog = Some [0]
  /\ length [0] <= 6.
Proof.
  assert (suggest "A" Demo.catalog = Some [0]) as H by (vm_compute; reflexivity).
  split; [exact H|].
  exact (proj1 (suggestions_listed "A" Demo.catalog [0] H)).
Defined.

Lemma gallery_clicks_witness :
  let directions := [1; 1; 1; 1; -1]%Z in
  (galleries Demo.galleryState !! "7" = Some (newGallery 3)
   /\ shows (newGallery 3) 0
   /\ Forall (fun d => d = 1%Z \/ d = (-1)%Z) directions)
  /\ exists st' gallery',
       clicks "7" directions Demo.galleryState = Some st'
       /\ galleries st' !! "7" = Some gallery'
       /\ shows gallery' 0.
Proof.
  intros directions.
  assert (galleries Demo.galleryState !! "7" = Some (newGallery 3)) as H1
    by (vm_compute; reflexivity).
  assert (shows (newGallery 3) 0) as H2 by (apply newGallery_shows; lia).
  assert (Forall (fun d => d = 1%Z \/ d = (-1)%Z) directions) as H3
    by (repeat constructor; auto).
  split; [exact (conj H1 (conj H2 H3))|].
  destruct (gallery_clicks "7" directions Demo.galleryState (newGallery 3) H1 H2 H3)
    as (st' & gallery' & Hclicks & Hg & _ & _ & Hshows & _).
  exists st', gallery'. split; [exact Hclicks|]. split; [exact Hg|]. exact Hshows.
Defined.

Lemma markers_made_witness :
  (forall i j p q, Demo.catalog !! i = Some p -> Demo.catalog !! j = Some q ->
     nameKey p = nameKey q -> i = j)
  /\ loaded Demo.catalog Demo.markers.
Proof.
  assert (forall i j p q, Demo.catalog !! i = Some p -> Demo.catalog !! j = Some q ->
            nameKey p = nameKey q -> i = j) as H
    by exact (proj2 demo_loaded).
  split; [exact H|].
  pose proof (markers_made Demo.catalog H) as Hmade.
  assert (initMarkers Demo.catalog ∅ = Some Demo.markers) as E by (vm_compute; reflexivity).
  rewrite E in Hmade. exact (proj1 (proj2 Hmade)).
Defined.

Lemma ranked_markers_witness :
  let pg := Demo.rankingPage "quality_highest" "2" in
  let pg' := fst (applyRanking pg) in
  (applyRanking pg = (pg', ShowTieModal [4; 0; 1])
   /\ rankDataKey (rank_type pg) <> "displayRank"
   /\ loaded (parks pg) Demo.markers)
  /\ exists ms' m,
       resetMarkers (parks pg) Demo.markers
         ≫= decorateRanked (parks pg') (rankDataKey (rank_type pg)) [4; 0; 1] 0 = Some ms'
       /\ markerOf (parks pg') ms' 0 = Some m
       /\ zIndexOffset m = 9999%Z.
Proof.
  intros pg pg'.
  assert (applyRanking pg = (pg', ShowTieModal [4; 0; 1])) as H1.
  { apply injective_projections; [reflexivity|vm_compute; reflexivity]. }
  assert (rankDataKey (rank_type pg) <> "displayRank") as H2 by (vm_compute; discriminate).
  assert (loaded (parks pg) Demo.markers) as H3 by exact demo_loaded.
  split; [exact (conj H1 (conj H2 H3))|].
  destruct (ranked_markers pg pg' [4; 0; 1] Demo.markers H1 H2 H3) as (ms' & Hrun & Hranked & _).
  destruct (Hranked 1 0 eq_refl) as (m & n & c & hex & url & Hm & _ & _ & _ & _ & _ & Hz & _).
  exists ms', m. split; [exact Hrun|]. split; [exact Hm|]. exact Hz.
Defined.

Lemma found_markers_witness :
  let pg := Demo.searchPage EmptyString ["toilets"] false in
  let ms := [Demo.matchOf 0; Demo.matchOf 2] in
  (outcome (applyLocationSearch Demo.endpoint pg) = ToastFound ms
   /\ loaded (parks pg) Demo.markers)
  /\ exists ms' r fullPark m,
       resetMarkers (parks pg) Demo.markers
         ≫= decorateFound (parks pg) (facility_checked pg) ms = Some ms'
       /\ findPark (parks pg) (Demo.matchOf 2) = Some fullPark
       /\ parks pg !! r = Some fullPark
       /\ markerOf (parks pg) ms' r = Some m
       /\ icon m = JStr (iconUrl "green").
Proof.
  intros pg ms.
  assert (outcome (applyLocationSearch Demo.endpoint pg) = ToastFound ms) as H1
    by (vm_compute; reflexivity).
  assert (loaded (parks pg) Demo.markers) as H2 by exact demo_loaded.
  split; [exact (conj H1 H2)|].
  destruct (found_markers Demo.endpoint pg ms Demo.markers H1 H2) as (ms' & Hrun & Hfound & _).
  destruct (Hfound (Demo.matchOf 2))
    as (r & fullPark & m & Hfind & Hr & Hm & Hicon & _).
  { apply list_elem_of_further, list_elem_of_here. }
  exists ms', r, fullPark, m.
  split; [exact Hrun|]. split; [exact Hfind|]. split; [exact Hr|]. split; [exact Hm|exact Hicon].
Defined.

Lemma selected_marker_witness :
  (loaded Demo.catalog Demo.markers /\ 2 < length Demo.catalog)
  /\ exists ms',
       selectMarker Demo.catalog 2 Demo.markers = Some ms'
       /\ markerOf Demo.catalog ms' 2
          = Some {| icon := JStr (iconUrl "black");
                    zIndexOffset := 0;
                    tooltip := None;
                    popup := (park Demo.catalog 2, NoBadge);
                    onMap := true |}.
Proof.
  assert (loaded Demo.catalog Demo.markers) as H1 by exact demo_loaded.
  assert (2 < length Demo.catalog) as H2 by (simpl; lia).
  split; [exact (conj H1 H2)|].
  destruct (selected_marker (Demo.rankingPage "recreation" "3") 2 Demo.markers H1 H2)
    as ((ms' & Hrun & (m0 & _ & Hm) & _) & _).
  exists ms'. split; [exact Hrun|exact Hm].
Defined.
